(** * tripsettle: settlement of shared group expenses

    A shallow embedding of the settlement engine of the [tripsettle]
    package ([utils.py], [models.py], [strategies.py], [compute.py]) and
    the properties established about it.

    Conventions of the embedding.
    - A Python [Decimal] is a coefficient and an exponent, standing for
      [coef * 10 ^ exp].  Arithmetic follows the default decimal context:
      28 significant digits, round-half-even.  NaN, infinities, the sign of
      zero and the exponent limits (Emin, Emax) of the context are not
      represented.
    - A [dict] keyed by [Person] is an association list in insertion
      order; a well-formed dict has no repeated key.
    - A raised exception is the [Raise] outcome; a [while] loop is run on
      fuel and [Timeout] is the outcome of a loop that has not finished
      when the fuel is spent. *)

From Stdlib Require Import ZArith NArith List String Ascii Bool Lia Permutation Sorted.
Import ListNotations.
Open Scope Z_scope.

(** ** Exceptions ([errors.py]) and outcomes *)

Inductive error : Type :=
| ValidationError
| RoundingError
| StrategyError
| InvalidOperation   (* decimal.InvalidOperation *)
| DivisionByZero     (* decimal.DivisionByZero *)
| KeyError
| ValueError.

Inductive outcome (A : Type) : Type :=
| Ok (a : A)
| Raise (e : error)
| Timeout.

Arguments Ok {A} a.
Arguments Raise {A} e.
Arguments Timeout {A}.

Definition bind {A B : Type} (m : outcome A) (k : A -> outcome B) : outcome B :=
  match m with
  | Ok a => k a
  | Raise e => Raise e
  | Timeout => Timeout
  end.

Notation "x <- m ;; k" := (bind m (fun x => k))
  (at level 61, m at next level, right associativity).
Notation "' pat <- m ;; k" := (bind m (fun x => match x with pat => k end))
  (at level 61, pat pattern, m at next level, right associativity).

(** ** Python [Decimal] under the default context *)

Module Dec.

Record Decimal : Type := mkDec { coef : Z; exp : Z }.

(** [getcontext().prec] *)
Definition prec : Z := 28.

(** Number of decimal digits of a non-negative integer
    ([len(str(n))]); fuel bounds the recursion. *)
Fixpoint ndigits_pos (fuel : nat) (n : Z) : Z :=
  match fuel with
  | O => 1
  | S f => if n <? 10 then 1 else 1 + ndigits_pos f (n / 10)
  end.

Definition ndigits (c : Z) : Z :=
  ndigits_pos (Z.to_nat (Z.log2 (Z.abs c))) (Z.abs c).

(** ROUND_HALF_EVEN of the non-negative integer [n] divided by [10 ^ k]. *)
Definition round_half_even (n k : Z) : Z :=
  let p := 10 ^ k in
  let q := n / p in
  let r := n mod p in
  if 2 * r <? p then q
  else if p <? 2 * r then q + 1
  else if Z.even q then q else q + 1.

(** [Decimal._rescale(exp, ROUND_HALF_EVEN)]: the same value at exponent
    [e], padded with zeros or rounded. *)
Definition rescale (d : Decimal) (e : Z) : Decimal :=
  if coef d =? 0 then mkDec 0 e
  else if e <=? exp d then mkDec (coef d * 10 ^ (exp d - e)) e
  else mkDec (Z.sgn (coef d) * round_half_even (Z.abs (coef d)) (e - exp d)) e.

(** [Decimal._fix(context)]: round to the precision of the context. *)
Definition fix_ (d : Decimal) : Decimal :=
  let n := ndigits (coef d) in
  if n <=? prec then d
  else
    let e := exp d + (n - prec) in
    let r := rescale d e in
    if prec <? ndigits (coef r) then mkDec (Z.quot (coef r) 10) (e + 1) else r.

(** Exact sum and difference at the smaller exponent. *)
Definition add_exact (a b : Decimal) : Decimal :=
  let m := Z.min (exp a) (exp b) in
  mkDec (coef a * 10 ^ (exp a - m) + coef b * 10 ^ (exp b - m)) m.

Definition sub_exact (a b : Decimal) : Decimal :=
  let m := Z.min (exp a) (exp b) in
  mkDec (coef a * 10 ^ (exp a - m) - coef b * 10 ^ (exp b - m)) m.

(** [a + b], [a - b], [a * b], [-a], [abs(a)]: the exact result rounded
    to the context. *)
Definition add (a b : Decimal) : Decimal := fix_ (add_exact a b).
Definition sub (a b : Decimal) : Decimal := fix_ (sub_exact a b).
Definition mul (a b : Decimal) : Decimal :=
  fix_ (mkDec (coef a * coef b) (exp a + exp b)).
Definition neg (a : Decimal) : Decimal := fix_ (mkDec (- coef a) (exp a)).
Definition abs (a : Decimal) : Decimal := fix_ (mkDec (Z.abs (coef a)) (exp a)).

(** Comparison is by value and is exact. *)
Definition compare (a b : Decimal) : comparison :=
  let m := Z.min (exp a) (exp b) in
  (coef a * 10 ^ (exp a - m) ?= coef b * 10 ^ (exp b - m)).

Definition ltb (a b : Decimal) : bool :=
  match compare a b with Lt => true | _ => false end.
Definition leb (a b : Decimal) : bool :=
  match compare a b with Gt => false | _ => true end.
Definition gtb (a b : Decimal) : bool := ltb b a.
Definition eqb (a b : Decimal) : bool :=
  match compare a b with Eq => true | _ => false end.

(** The builtin [min(a, b)]: [b] when [b < a], else [a]. *)
Definition min (a b : Decimal) : Decimal := if ltb b a then b else a.

(** [Decimal(n)] for an integer, [Decimal("0")] and friends. *)
Definition of_Z (n : Z) : Decimal := mkDec n 0.
Definition zero : Decimal := mkDec 0 0.

(** The builtin [sum(values)]: starts from [0] and adds from the left. *)
Definition sum (l : list Decimal) : Decimal := fold_left add l zero.

(** Trailing zeros are removed from an exact quotient while its exponent
    is below the ideal one. *)
Fixpoint strip_zeros (fuel : nat) (c e ideal : Z) : Decimal :=
  match fuel with
  | O => mkDec c e
  | S f =>
      if (e <? ideal) && (c mod 10 =? 0)
      then strip_zeros f (c / 10) (e + 1) ideal
      else mkDec c e
  end.

(** [a / b] ([Decimal.__truediv__]). *)
Definition div (a b : Decimal) : outcome Decimal :=
  if coef b =? 0 then
    if coef a =? 0 then Raise InvalidOperation else Raise DivisionByZero
  else if coef a =? 0 then Ok (fix_ (mkDec 0 (exp a - exp b)))
  else
    let sign := Z.sgn (coef a) * Z.sgn (coef b) in
    let shift := ndigits (coef b) - ndigits (coef a) + prec + 1 in
    let e := exp a - exp b - shift in
    let '(q, r) :=
      if 0 <=? shift
      then Z.div_eucl (Z.abs (coef a) * 10 ^ shift) (Z.abs (coef b))
      else Z.div_eucl (Z.abs (coef a)) (Z.abs (coef b) * 10 ^ (- shift)) in
    if r =? 0 then
      let s := strip_zeros (Z.to_nat shift) q e (exp a - exp b) in
      Ok (fix_ (mkDec (sign * coef s) (exp s)))
    else
      let q' := if q mod 5 =? 0 then q + 1 else q in
      Ok (fix_ (mkDec (sign * q') e)).

(** [Decimal(10) ** n] for an integer [n]: [1E+n] for a negative [n], and
    for a non-negative one the integer [10 ^ n] written out at the ideal
    exponent 0 as far as the precision allows. *)
Definition pow10 (n : Z) : Decimal :=
  if n <? 0 then mkDec 1 n
  else if n =? 0 then mkDec 1 0
  else let z := Z.min n prec in fix_ (mkDec (10 ^ z) (n - z)).

(** [d.quantize(q, rounding=ROUND_HALF_EVEN)]: only the exponent of [q]
    is used; a result that needs more digits than the precision is an
    InvalidOperation. *)
Definition quantize (d q : Decimal) : outcome Decimal :=
  let e := exp q in
  if coef d =? 0 then Ok (fix_ (mkDec 0 e))
  else if prec <? ndigits (coef d) + exp d - e then Raise InvalidOperation
  else
    let ans := rescale d e in
    if prec <? ndigits (coef ans) then Raise InvalidOperation
    else Ok (fix_ ans).

End Dec.

Abbreviation Decimal := Dec.Decimal.

(** Decimal literals used by the source. *)
Definition d_0_01 : Decimal := Dec.mkDec 1 (-2).       (* Decimal("0.01") *)
Definition d_m0_01 : Decimal := Dec.mkDec (-1) (-2).   (* Decimal("-0.01") *)
Definition d_0_02 : Decimal := Dec.mkDec 2 (-2).       (* Decimal("0.02") *)
Definition d_1_0 : Decimal := Dec.mkDec 10 (-1).       (* Decimal("1.0") *)

(** ** [utils.py] *)

(** [round_money(amount, places=2)] *)
Definition round_money (amount : Decimal) (places : Z) : outcome Decimal :=
  let quantizer := Dec.pow10 (- places) in
  Dec.quantize amount quantizer.

(** [validate_amount(amount, name)] *)
Definition validate_amount (amount : Decimal) : outcome unit :=
  if Dec.ltb amount Dec.zero then Raise ValidationError else Ok tt.

(** ** Ordering of sort keys

    Python compares the tuples used as sort keys lexicographically; each
    component type brings its own three-way comparison. *)

Class Ord (K : Type) : Type := { cmp : K -> K -> comparison }.

#[export] Instance Ord_Decimal : Ord Decimal := { cmp := Dec.compare }.
#[export] Instance Ord_string : Ord string := { cmp := String.compare }.
#[export] Instance Ord_N : Ord N := { cmp := N.compare }.
#[export] Instance Ord_pair {A B : Type} `{Ord A} `{Ord B} : Ord (A * B) :=
  { cmp := fun x y =>
      match cmp (fst x) (fst y) with
      | Eq => cmp (snd x) (snd y)
      | c => c
      end }.

Definition key_lt {K : Type} `{Ord K} (a b : K) : bool :=
  match cmp a b with Lt => true | _ => false end.

Definition key_le {K : Type} `{Ord K} (a b : K) : Prop := cmp a b <> Gt.

(** [sorted(l, key=key)] and [l.sort(key=key)]: a stable sort, an element
    staying before the later ones whose key is not smaller. *)
Fixpoint insert_by {A K : Type} `{Ord K} (key : A -> K) (x : A) (l : list A) : list A :=
  match l with
  | [] => [x]
  | y :: l' => if key_lt (key y) (key x) then y :: insert_by key x l' else x :: l
  end.

Definition sort_by {A K : Type} `{Ord K} (key : A -> K) (l : list A) : list A :=
  fold_right (insert_by key) [] l.

(** ** [models.py]: Person *)

(** [str.strip()] leaves nothing exactly when every character is
    whitespace. *)
Definition is_space (c : ascii) : bool :=
  let n := N_of_ascii c in
  (((9 <=? n) && (n <=? 13)) || ((28 <=? n) && (n <=? 32)) || (n =? 133) || (n =? 160))%N.

Fixpoint all_space (s : string) : bool :=
  match s with
  | EmptyString => true
  | String c s' => is_space c && all_space s'
  end.

(** [not s or not s.strip()] *)
Definition blank (s : string) : bool := all_space s.

Module Person.

(** A frozen dataclass with [eq=True]: the generated [__eq__] and
    [__hash__] use the tuple of all fields, [(name, id)]. The [id] is the
    128-bit integer of the UUID. *)
Record t : Type := mk { name : string; id : N }.

Definition eqb (p q : t) : bool :=
  String.eqb (name p) (name q) && N.eqb (id p) (id q).

(** [Person(name=..., id=...)] with [__post_init__]. *)
Definition make (nm : string) (i : N) : outcome t :=
  if blank nm then Raise ValidationError else Ok (mk nm i).

End Person.

(** [str(uuid)]: 32 lower-case hexadecimal digits in groups of
    8-4-4-4-12. *)
Definition hex_digit (n : N) : ascii :=
  nth (N.to_nat n)
    ["0"; "1"; "2"; "3"; "4"; "5"; "6"; "7"; "8"; "9"; "a"; "b"; "c"; "d"; "e"; "f"]%char
    "0"%char.

Fixpoint hex_digits (k : nat) (n : N) : list ascii :=
  match k with
  | O => []
  | S k' => hex_digits k' (n / 16)%N ++ [hex_digit (n mod 16)%N]
  end.

Definition uuid_str (u : N) : string :=
  let h := hex_digits 32 u in
  string_of_list_ascii
    (firstn 8 h ++ "-"%char :: firstn 4 (skipn 8 h) ++ "-"%char ::
     firstn 4 (skipn 12 h) ++ "-"%char :: firstn 4 (skipn 16 h) ++ "-"%char ::
     skipn 20 h).

(** ** Dicts keyed by Person *)

Definition Dict (V : Type) : Type := list (Person.t * V).

(** [d[k]], a KeyError when [k] is absent. *)
Fixpoint dict_get {V : Type} (d : Dict V) (k : Person.t) : outcome V :=
  match d with
  | [] => Raise KeyError
  | (k', v) :: d' => if Person.eqb k k' then Ok v else dict_get d' k
  end.

(** [k in d] *)
Fixpoint dict_mem {V : Type} (d : Dict V) (k : Person.t) : bool :=
  match d with
  | [] => false
  | (k', _) :: d' => Person.eqb k k' || dict_mem d' k
  end.

(** [d[k] = v]: an existing key keeps its position, a new key goes last. *)
Fixpoint dict_set {V : Type} (d : Dict V) (k : Person.t) (v : V) : Dict V :=
  match d with
  | [] => [(k, v)]
  | (k', v') :: d' =>
      if Person.eqb k k' then (k', v) :: d' else (k', v') :: dict_set d' k v
  end.

Definition dict_keys {V : Type} (d : Dict V) : list Person.t := map fst d.
Definition dict_values {V : Type} (d : Dict V) : list V := map snd d.

Definition dict_wf {V : Type} (d : Dict V) : Prop := NoDup (dict_keys d).

(** A dict comprehension [{k: f(v) for k, v in d.items()}] whose body may
    raise. *)
Fixpoint dict_map_items {V W : Type} (f : V -> outcome W) (d : Dict V) : outcome (Dict W) :=
  match d with
  | [] => Ok []
  | (k, v) :: d' =>
      w <- f v ;;
      r <- dict_map_items f d' ;;
      Ok ((k, w) :: r)
  end.

(** ** [utils.py]: reconciliation *)

(** The body of [for person in sorted_people] in [distribute_remainder]. *)
Fixpoint distribute_loop (sorted_people : list Person.t) (adjusted : Dict Decimal)
    (remainder_remaining increment : Decimal) : outcome (Dict Decimal) :=
  match sorted_people with
  | [] => Ok adjusted
  | person :: rest =>
      if Dec.eqb remainder_remaining Dec.zero then Ok adjusted
      else
        v <- dict_get adjusted person ;;
        distribute_loop rest (dict_set adjusted person (Dec.add v increment))
          (Dec.sub remainder_remaining increment) increment
  end.

(** The people of [balances] sorted by [(abs(balances[p]), p.name, p.id)]. *)
Definition sorted_people (balances : Dict Decimal) : list Person.t :=
  map fst
    (sort_by (fun x => (Dec.abs (snd x), (Person.name (fst x), Person.id (fst x))))
       balances).

(** [distribute_remainder(balances, remainder, tolerance)]; the returned
    dict is a new one. *)
Definition distribute_remainder (balances : Dict Decimal) (remainder tolerance : Decimal)
    : outcome (Dict Decimal) :=
  if Dec.gtb (Dec.abs remainder) tolerance then Raise RoundingError
  else if Dec.eqb remainder Dec.zero then Ok balances
  else
    let increment := if Dec.gtb remainder Dec.zero then d_0_01 else d_m0_01 in
    distribute_loop (sorted_people balances) balances remainder increment.

(** [ensure_zero_sum(balances, tolerance)] *)
Definition ensure_zero_sum (balances : Dict Decimal) (tolerance : Decimal)
    : outcome (Dict Decimal) :=
  let total := Dec.sum (dict_values balances) in
  if Dec.leb (Dec.abs total) tolerance then
    if negb (Dec.eqb total Dec.zero)
    then distribute_remainder balances total tolerance
    else Ok balances
  else Raise RoundingError.

(** ** [models.py]: Activity, SettlementTransfer, Event *)

Inductive SplitStrategy : Type := EQUAL | WEIGHTED | FIXED_SHARES.

(** [SplitStrategy(s)] for a string (an enum member is its own value). *)
Definition SplitStrategy_of_string (s : string) : outcome SplitStrategy :=
  if String.eqb s "EQUAL" then Ok EQUAL
  else if String.eqb s "WEIGHTED" then Ok WEIGHTED
  else if String.eqb s "FIXED_SHARES" then Ok FIXED_SHARES
  else Raise ValueError.

(** [Union[Person, List[tuple[Person, Decimal]]]] *)
Inductive Payer : Type :=
| Single (p : Person.t)
| Multi (l : list (Person.t * Decimal)).

(** Truthiness of an optional dict: [None] and the empty dict are false. *)
Definition truthy {V : Type} (o : option (Dict V)) : bool :=
  match o with
  | Some (_ :: _) => true
  | _ => false
  end.

(** [for ...: validate_amount(...)] over the values of a list of pairs. *)
Fixpoint validate_amounts {K : Type} (l : list (K * Decimal)) : outcome unit :=
  match l with
  | [] => Ok tt
  | (_, amt) :: l' => _ <- validate_amount amt ;; validate_amounts l'
  end.

Module Activity.

Record t : Type := mk {
  id : N;
  description : string;
  amount : Decimal;
  payer : Payer;
  participants : list Person.t;
  split_strategy : SplitStrategy;
  weights : option (Dict Decimal);
  shares : option (Dict Decimal);
  currency : string
}.

Definition set_weights (a : t) (w : option (Dict Decimal)) : t :=
  mk (id a) (description a) (amount a) (payer a) (participants a)
     (split_strategy a) w (shares a) (currency a).

(** The payer part of [__post_init__]. *)
Definition check_payer (a : t) : outcome unit :=
  match payer a with
  | Multi [] => Raise ValidationError
  | Multi l =>
      let payer_total := Dec.sum (map snd l) in
      if Dec.gtb (Dec.abs (Dec.sub payer_total (amount a))) d_0_01
      then Raise ValidationError
      else validate_amounts l
  | Single _ => Ok tt
  end.

(** The split-strategy part of [__post_init__]; WEIGHTED may replace the
    weights. *)
Definition check_strategy (a : t) : outcome t :=
  match split_strategy a with
  | WEIGHTED =>
      if negb (truthy (weights a)) then Raise ValidationError
      else
        let ws := match weights a with Some ws => ws | None => [] end in
        let weight_sum := Dec.sum (dict_values ws) in
        if Dec.gtb (Dec.abs (Dec.sub weight_sum d_1_0)) d_0_01 then
          if Dec.gtb weight_sum Dec.zero then
            ws' <- dict_map_items (fun w => Dec.div w weight_sum) ws ;;
            Ok (set_weights a (Some ws'))
          else Raise ValidationError
        else Ok a
  | FIXED_SHARES =>
      if negb (truthy (shares a)) then Raise ValidationError
      else
        let ss := match shares a with Some ss => ss | None => [] end in
        let shares_sum := Dec.sum (dict_values ss) in
        if Dec.gtb (Dec.abs (Dec.sub shares_sum (amount a))) d_0_01
        then Raise ValidationError
        else _ <- validate_amounts ss ;; Ok a
  | EQUAL => Ok a
  end.

(** [Activity.__post_init__]: the validated activity, or the error. *)
Definition post_init (a : t) : outcome t :=
  _ <- validate_amount (amount a) ;;
  if blank (description a) then Raise ValidationError
  else
    match participants a with
    | [] => Raise ValidationError
    | _ :: _ =>
        _ <- check_payer a ;;
        check_strategy a
    end.

(** [Activity.get_payers()] *)
Definition get_payers (a : t) : list (Person.t * Decimal) :=
  match payer a with
  | Multi l => l
  | Single p => [(p, amount a)]
  end.

End Activity.

Module SettlementTransfer.

Record t : Type := mk {
  from_person : Person.t;
  to_person : Person.t;
  amount : Decimal
}.

(** The constructor with [__post_init__]. *)
Definition make (f g : Person.t) (a : Decimal) : outcome t :=
  _ <- validate_amount a ;;
  a' <- round_money a 2 ;;
  Ok (mk f g a').

End SettlementTransfer.

Module Event.

Record t : Type := mk {
  id : N;
  name : string;
  people : list Person.t;
  activities : list Activity.t;
  currency : string
}.

(** [p in set(self.people)] *)
Definition is_member (e : t) (p : Person.t) : bool :=
  existsb (Person.eqb p) (people e).

(** [Event.add_person(name)]; the fresh UUID is an argument. The
    outcome comes with the Event as the call leaves it. *)
Definition add_person (e : t) (nm : string) (fresh : N) : outcome Person.t * t :=
  match Person.make nm fresh with
  | Ok p => (Ok p, mk (id e) (name e) (people e ++ [p]) (activities e) (currency e))
  | Raise err => (Raise err, e)
  | Timeout => (Timeout, e)
  end.

(** The membership checks of [add_activity]. *)
Definition check_members (e : t) (payer : Payer) (participants : list Person.t)
    : outcome unit :=
  _ <- match payer with
       | Multi l =>
           if forallb (fun x => is_member e (fst x)) l then Ok tt
           else Raise ValidationError
       | Single p => if is_member e p then Ok tt else Raise ValidationError
       end ;;
  if forallb (is_member e) participants then Ok tt else Raise ValidationError.

(** [Event.add_activity(...)]; the fresh UUID of the activity is an
    argument. The outcome comes with the Event as the call leaves it:
    the activity is appended last, after every check. *)
Definition add_activity (e : t) (description : string) (amount : Decimal)
    (payer : Payer) (participants : list Person.t) (split_strategy : string)
    (weights shares : option (Dict Decimal)) (fresh : N) : outcome Activity.t * t :=
  let validated :=
    _ <- check_members e payer participants ;;
    strategy <- SplitStrategy_of_string split_strategy ;;
    Activity.post_init
      (Activity.mk fresh description amount payer participants strategy
         weights shares (currency e)) in
  match validated with
  | Ok activity =>
      (Ok activity, mk (id e) (name e) (people e) (activities e ++ [activity]) (currency e))
  | Raise err => (Raise err, e)
  | Timeout => (Timeout, e)
  end.

End Event.

(** ** [strategies.py] *)

Definition compute_equal_share (activity : Activity.t) (participant : Person.t)
    : outcome Decimal :=
  if negb (existsb (Person.eqb participant) (Activity.participants activity))
  then Raise StrategyError
  else
    let num_participants := Z.of_nat (List.length (Activity.participants activity)) in
    if num_participants =? 0 then Ok Dec.zero
    else
      share <- Dec.div (Activity.amount activity) (Dec.of_Z num_participants) ;;
      round_money share 2.

Definition compute_weighted_share (activity : Activity.t) (participant : Person.t)
    : outcome Decimal :=
  match Activity.weights activity with
  | Some ((_ :: _) as ws) =>
      if negb (dict_mem ws participant) then Raise StrategyError
      else
        weight <- dict_get ws participant ;;
        round_money (Dec.mul (Activity.amount activity) weight) 2
  | _ => Raise StrategyError
  end.

Definition compute_fixed_share (activity : Activity.t) (participant : Person.t)
    : outcome Decimal :=
  match Activity.shares activity with
  | Some ((_ :: _) as ss) =>
      if negb (dict_mem ss participant) then Raise StrategyError
      else
        share <- dict_get ss participant ;;
        round_money share 2
  | _ => Raise StrategyError
  end.

Definition compute_participant_share (activity : Activity.t) (participant : Person.t)
    : outcome Decimal :=
  match Activity.split_strategy activity with
  | EQUAL => compute_equal_share activity participant
  | WEIGHTED => compute_weighted_share activity participant
  | FIXED_SHARES => compute_fixed_share activity participant
  end.

(** The loop of [compute_all_shares] over the participants. *)
Fixpoint all_shares_loop (activity : Activity.t) (ps : list Person.t)
    (shares : Dict Decimal) : outcome (Dict Decimal) :=
  match ps with
  | [] => Ok shares
  | participant :: rest =>
      s <- compute_participant_share activity participant ;;
      all_shares_loop activity rest (dict_set shares participant s)
  end.

Definition compute_all_shares (activity : Activity.t) : outcome (Dict Decimal) :=
  all_shares_loop activity (Activity.participants activity) [].

(** ** [compute.py] *)

(** [{person: Decimal("0") for person in people}] *)
Definition zero_dict (people : list Person.t) : Dict Decimal :=
  fold_left (fun d p => dict_set d p Dec.zero) people [].

(** [for participant, share in shares.items(): balances[participant] -= share] *)
Fixpoint subtract_shares (balances : Dict Decimal) (shares : list (Person.t * Decimal))
    : outcome (Dict Decimal) :=
  match shares with
  | [] => Ok balances
  | (participant, share) :: rest =>
      v <- dict_get balances participant ;;
      subtract_shares (dict_set balances participant (Dec.sub v share)) rest
  end.

(** [for payer, amount in ...: balances[payer] += amount] *)
Fixpoint add_amounts (balances : Dict Decimal) (items : list (Person.t * Decimal))
    : outcome (Dict Decimal) :=
  match items with
  | [] => Ok balances
  | (payer, amount) :: rest =>
      v <- dict_get balances payer ;;
      add_amounts (dict_set balances payer (Dec.add v amount)) rest
  end.

(** [for activity in event.activities: ...] of [compute_net_balances]. *)
Fixpoint balances_loop (activities : list Activity.t) (balances : Dict Decimal)
    : outcome (Dict Decimal) :=
  match activities with
  | [] => Ok balances
  | activity :: rest =>
      shares <- compute_all_shares activity ;;
      b1 <- subtract_shares balances shares ;;
      b2 <- add_amounts b1 (Activity.get_payers activity) ;;
      balances_loop rest b2
  end.

(** The balances of [compute_net_balances] after rounding, before
    reconciliation. *)
Definition rounded_balances (event : Event.t) : outcome (Dict Decimal) :=
  balances <- balances_loop (Event.activities event) (zero_dict (Event.people event)) ;;
  dict_map_items (fun balance => round_money balance 2) balances.

Definition compute_net_balances (event : Event.t) : outcome (Dict Decimal) :=
  balances <- rounded_balances event ;;
  ensure_zero_sum balances d_0_02.

(** Sort keys of [compute_minimal_transfers]. *)
Definition person_key (p : Person.t) : string * string :=
  (Person.name p, uuid_str (Person.id p)).

Definition creditor_key (x : Person.t * Decimal) : Decimal * (string * string) :=
  (Dec.neg (snd x), person_key (fst x)).

Definition debtor_key (x : Person.t * Decimal) : Decimal * (string * string) :=
  (snd x, person_key (fst x)).

Definition transfer_key (t : SettlementTransfer.t)
    : string * (string * (string * string)) :=
  (Person.name (SettlementTransfer.from_person t),
   (uuid_str (Person.id (SettlementTransfer.from_person t)),
    (Person.name (SettlementTransfer.to_person t),
     uuid_str (Person.id (SettlementTransfer.to_person t))))).

Definition creditors_of (working_balances : Dict Decimal) (tolerance : Decimal)
    : list (Person.t * Decimal) :=
  filter (fun x => Dec.gtb (snd x) tolerance) working_balances.

Definition debtors_of (working_balances : Dict Decimal) (tolerance : Decimal)
    : list (Person.t * Decimal) :=
  filter (fun x => Dec.ltb (snd x) (Dec.neg tolerance)) working_balances.

(** One pass through the body of [while True]: [None] is the [break],
    otherwise the transfer appended and the working balances updated. *)
Definition greedy_step (working_balances : Dict Decimal) (tolerance : Decimal)
    : outcome (option (SettlementTransfer.t * Dict Decimal)) :=
  let creditors := creditors_of working_balances tolerance in
  let debtors := debtors_of working_balances tolerance in
  match creditors, debtors with
  | [], _ | _, [] => Ok None
  | _ :: _, _ :: _ =>
      match sort_by creditor_key creditors, sort_by debtor_key debtors with
      | (creditor_person, creditor_balance) :: _, (debtor_person, debtor_balance) :: _ =>
          transfer_amount <-
            round_money (Dec.min creditor_balance (Dec.neg debtor_balance)) 2 ;;
          transfer <-
            SettlementTransfer.make debtor_person creditor_person transfer_amount ;;
          c <- dict_get working_balances creditor_person ;;
          let wb1 := dict_set working_balances creditor_person (Dec.sub c transfer_amount) in
          d <- dict_get wb1 debtor_person ;;
          let wb2 := dict_set wb1 debtor_person (Dec.add d transfer_amount) in
          c2 <- dict_get wb2 creditor_person ;;
          c3 <- round_money c2 2 ;;
          let wb3 := dict_set wb2 creditor_person c3 in
          d2 <- dict_get wb3 debtor_person ;;
          d3 <- round_money d2 2 ;;
          Ok (Some (transfer, dict_set wb3 debtor_person d3))
      | _, _ => Ok None
      end
  end.

(** The [while True] loop: the final working balances and the transfers
    in the order they were appended. *)
Fixpoint greedy_loop (fuel : nat) (working_balances : Dict Decimal)
    (tolerance : Decimal) (transfers : list SettlementTransfer.t)
    : outcome (Dict Decimal * list SettlementTransfer.t) :=
  match fuel with
  | O => Timeout
  | S fuel' =>
      r <- greedy_step working_balances tolerance ;;
      match r with
      | None => Ok (working_balances, transfers)
      | Some (transfer, wb) => greedy_loop fuel' wb tolerance (transfers ++ [transfer])
      end
  end.

(** [abs(balance) > tolerance] for some item. *)
Definition exceeds (tolerance : Decimal) (working_balances : Dict Decimal) : bool :=
  existsb (fun x => Dec.gtb (Dec.abs (snd x)) tolerance) working_balances.

Definition compute_minimal_transfers (fuel : nat) (balances : Dict Decimal)
    (tolerance : Decimal) : outcome (list SettlementTransfer.t) :=
  '(working_balances, transfers) <- greedy_loop fuel balances tolerance [] ;;
  if exceeds tolerance working_balances then Raise RoundingError
  else Ok (sort_by transfer_key transfers).

(** Rows of the settlement summary. *)
Record SummaryRow : Type := mkRow { paid : Decimal; owed : Decimal; net : Decimal }.

(** [for activity in event.activities: ...] of [compute_settlement_summary]. *)
Fixpoint paid_owed_loop (activities : list Activity.t) (paid_d owed_d : Dict Decimal)
    : outcome (Dict Decimal * Dict Decimal) :=
  match activities with
  | [] => Ok (paid_d, owed_d)
  | activity :: rest =>
      paid1 <- add_amounts paid_d (Activity.get_payers activity) ;;
      shares <- compute_all_shares activity ;;
      owed1 <- add_amounts owed_d shares ;;
      paid_owed_loop rest paid1 owed1
  end.

(** [for person in sorted(event.people, ...): summary[person] = {...}] *)
Fixpoint summary_loop (people : list Person.t) (paid_d owed_d balances : Dict Decimal)
    (summary : Dict SummaryRow) : outcome (Dict SummaryRow) :=
  match people with
  | [] => Ok summary
  | person :: rest =>
      p <- dict_get paid_d person ;;
      p' <- round_money p 2 ;;
      o <- dict_get owed_d person ;;
      o' <- round_money o 2 ;;
      n <- dict_get balances person ;;
      summary_loop rest paid_d owed_d balances (dict_set summary person (mkRow p' o' n))
  end.

Definition compute_settlement_summary (event : Event.t) (balances : Dict Decimal)
    : outcome (Dict SummaryRow) :=
  '(paid_d, owed_d) <-
    paid_owed_loop (Event.activities event)
      (zero_dict (Event.people event)) (zero_dict (Event.people event)) ;;
  summary_loop (sort_by person_key (Event.people event)) paid_d owed_d balances [].

(** ** Scenarios of the test suite *)

Definition alice : Person.t := Person.mk "Alice" 1.
Definition bob : Person.t := Person.mk "Bob" 2.
Definition carol : Person.t := Person.mk "Carol" 3.
Definition dave : Person.t := Person.mk "Dave" 4.

Definition event0 (people : list Person.t) : Event.t :=
  Event.mk 0 "Trip" people [] "USD".

(** 100 paid by Alice, split equally among Alice, Bob and Carol. *)
Definition dinner_event (people : list Person.t) : Event.t :=
  snd (Event.add_activity (event0 people) "Dinner" (Dec.of_Z 100) (Single alice)
         [alice; bob; carol] "EQUAL" None None 10).

(** The balances of [test_small_remainder_distributed]: 33.33, -33.33 and
    0.01. *)
Definition small_remainder_balances : Dict Decimal :=
  [(alice, Dec.mkDec 3333 (-2)); (bob, Dec.mkDec (-3333) (-2)); (carol, Dec.mkDec 1 (-2))].

(** ** The same functions over a store of dict objects

    The functions of [utils.py] and [compute.py] receive a reference to
    the caller's dict.  Here dict objects live in a store, [.copy()]
    allocates a new object and an item assignment updates the object it
    is made on, whoever else holds it. *)

Definition Store : Type := list (Dict Decimal).
Definition ref : Type := nat.

Definition M (A : Type) : Type := Store -> outcome A * Store.

Definition ret {A : Type} (a : A) : M A := fun s => (Ok a, s).
Definition lift {A : Type} (o : outcome A) : M A := fun s => (o, s).

Definition bindM {A B : Type} (m : M A) (k : A -> M B) : M B :=
  fun s =>
    match m s with
    | (Ok a, s') => k a s'
    | (Raise e, s') => (Raise e, s')
    | (Timeout, s') => (Timeout, s')
    end.

Notation "x <~ m ;; k" := (bindM m (fun x => k))
  (at level 61, m at next level, right associativity).

Definition deref (s : Store) (r : ref) : Dict Decimal := nth r s [].

Arguments deref : simpl never.

Fixpoint store_update (s : Store) (r : ref) (d : Dict Decimal) : Store :=
  match s, r with
  | [], _ => []
  | _ :: s', O => d :: s'
  | x :: s', S r' => x :: store_update s' r' d
  end.

(** [d.items()], [d.values()], [d.keys()]: the contents at this point. *)
Definition items (r : ref) : M (Dict Decimal) := fun s => (Ok (deref s r), s).

(** [d.copy()] *)
Definition copy (r : ref) : M ref :=
  fun s => (Ok (List.length s), s ++ [deref s r]).

(** [d[k]] *)
Definition getitem (r : ref) (k : Person.t) : M Decimal :=
  fun s => (dict_get (deref s r) k, s).

(** [d[k] = v] *)
Definition setitem (r : ref) (k : Person.t) (v : Decimal) : M unit :=
  fun s => (Ok tt, store_update s r (dict_set (deref s r) k v)).

Module Imp.

Fixpoint distribute_loop (sorted_people : list Person.t) (adjusted : ref)
    (remainder_remaining increment : Decimal) : M unit :=
  match sorted_people with
  | [] => ret tt
  | person :: rest =>
      if Dec.eqb remainder_remaining Dec.zero then ret tt
      else
        v <~ getitem adjusted person ;;
        _ <~ setitem adjusted person (Dec.add v increment) ;;
        distribute_loop rest adjusted (Dec.sub remainder_remaining increment) increment
  end.

Definition distribute_remainder (balances : ref) (remainder tolerance : Decimal) : M ref :=
  if Dec.gtb (Dec.abs remainder) tolerance then lift (Raise RoundingError)
  else if Dec.eqb remainder Dec.zero then copy balances
  else
    d <~ items balances ;;
    let people := sorted_people d in
    adjusted <~ copy balances ;;
    let increment := if Dec.gtb remainder Dec.zero then d_0_01 else d_m0_01 in
    _ <~ distribute_loop people adjusted remainder increment ;;
    ret adjusted.

Definition ensure_zero_sum (balances : ref) (tolerance : Decimal) : M ref :=
  d <~ items balances ;;
  let total := Dec.sum (dict_values d) in
  if Dec.leb (Dec.abs total) tolerance then
    if negb (Dec.eqb total Dec.zero)
    then distribute_remainder balances total tolerance
    else copy balances
  else lift (Raise RoundingError).

Fixpoint greedy_loop (fuel : nat) (working_balances : ref) (tolerance : Decimal)
    (transfers : list SettlementTransfer.t) : M (list SettlementTransfer.t) :=
  match fuel with
  | O => lift Timeout
  | S fuel' =>
      d <~ items working_balances ;;
      let creditors := creditors_of d tolerance in
      let debtors := debtors_of d tolerance in
      match creditors, debtors with
      | [], _ | _, [] => ret transfers
      | _ :: _, _ :: _ =>
          match sort_by creditor_key creditors, sort_by debtor_key debtors with
          | (creditor_person, creditor_balance) :: _,
            (debtor_person, debtor_balance) :: _ =>
              transfer_amount <~
                lift (round_money (Dec.min creditor_balance (Dec.neg debtor_balance)) 2) ;;
              transfer <~
                lift (SettlementTransfer.make debtor_person creditor_person transfer_amount) ;;
              c <~ getitem working_balances creditor_person ;;
              _ <~ setitem working_balances creditor_person (Dec.sub c transfer_amount) ;;
              d <~ getitem working_balances debtor_person ;;
              _ <~ setitem working_balances debtor_person (Dec.add d transfer_amount) ;;
              c2 <~ getitem working_balances creditor_person ;;
              c3 <~ lift (round_money c2 2) ;;
              _ <~ setitem working_balances creditor_person c3 ;;
              d2 <~ getitem working_balances debtor_person ;;
              d3 <~ lift (round_money d2 2) ;;
              _ <~ setitem working_balances debtor_person d3 ;;
              greedy_loop fuel' working_balances tolerance (transfers ++ [transfer])
          | _, _ => ret transfers
          end
      end
  end.

Definition compute_minimal_transfers (fuel : nat) (balances : ref) (tolerance : Decimal)
    : M (list SettlementTransfer.t) :=
  working_balances <~ copy balances ;;
  transfers <~ greedy_loop fuel working_balances tolerance [] ;;
  final <~ items working_balances ;;
  if exceeds tolerance final then lift (Raise RoundingError)
  else ret (sort_by transfer_key transfers).

End Imp.

(** ** Vocabulary of the statements *)

(** A decimal the context represents without rounding. *)
Definition fits (d : Decimal) : Prop := Z.abs (Dec.coef d) < 10 ^ Dec.prec.

(** A money amount as [round_money] leaves it: exponent -2, within the
    precision. *)
Definition quantized (d : Decimal) : Prop := Dec.exp d = -2 /\ fits d.

Definition quantized_dict (d : Dict Decimal) : Prop :=
  Forall (fun x => quantized (snd x)) d.

(** Order of decimals by value. *)
Definition dle (a b : Decimal) : Prop := Dec.compare a b <> Gt.
Definition dlt (a b : Decimal) : Prop := Dec.compare a b = Lt.
Definition deq (a b : Decimal) : Prop := Dec.compare a b = Eq.

(** [r] is the coefficient, at exponent [e], of the multiple of [10 ^ e]
    nearest to [d], the even one of the two when [d] is half-way: both
    are compared at the smaller of the two exponents. *)
Definition nearest_even (d : Decimal) (e : Z) (r : Z) : Prop :=
  let m := Z.min (Dec.exp d) e in
  let x := Dec.coef d * 10 ^ (Dec.exp d - m) in
  let y := r * 10 ^ (e - m) in
  let unit := 10 ^ (e - m) in
  2 * Z.abs (x - y) <= unit /\ (2 * Z.abs (x - y) = unit -> Z.even r = true).

(** Magnitude at least one: [1 <= |coef * 10 ^ exp|], written at the
    exponent [min exp 0]. *)
Definition mag_ge1 (d : Decimal) : Prop :=
  let m := Z.min (Dec.exp d) 0 in
  10 ^ (- m) <= Z.abs (Dec.coef d) * 10 ^ (Dec.exp d - m).

(** The weights given to the constructor, their sum, the test that
    decides on renormalization, and a dict divided entry by entry. *)
Definition weights_of (a : Activity.t) : Dict Decimal :=
  match Activity.weights a with Some ws => ws | None => [] end.

Definition weight_sum (a : Activity.t) : Decimal := Dec.sum (dict_values (weights_of a)).

Definition far_from_1 (a : Activity.t) : bool :=
  Dec.gtb (Dec.abs (Dec.sub (weight_sum a) d_1_0)) d_0_01.

Definition divided_by (s : Decimal) (ws ws' : Dict Decimal) : Prop :=
  Forall2 (fun x y => fst y = fst x /\ Dec.div (snd x) s = Ok (snd y)) ws ws'.

(** The museum of the tests: 90 paid by Carol, Bob and Carol weighted 2
    to 1. *)
Definition museum : Activity.t :=
  Activity.mk 11 "Museum" (Dec.of_Z 90) (Single carol) [bob; carol] WEIGHTED
    (Some [(bob, Dec.of_Z 2); (carol, Dec.of_Z 1)]) None "USD".

(** 100 paid by Bob, weights 0.5 and 0.505: their sum is 1.005. *)
Definition near_one : Activity.t :=
  Activity.mk 12 "Taxi" (Dec.of_Z 100) (Single bob) [bob; carol] WEIGHTED
    (Some [(bob, Dec.mkDec 5 (-1)); (carol, Dec.mkDec 505 (-3))]) None "USD".

(** The museum after construction: 2/3 and 1/3 to 28 digits. *)
Definition museum_validated : Activity.t :=
  Activity.set_weights museum
    (Some [(bob, Dec.mkDec 6666666666666666666666666667 (-28));
           (carol, Dec.mkDec 3333333333333333333333333333 (-28))]).

(** A person who is neither a participant nor a payer of any activity. *)
Definition uninvolved (event : Event.t) (p : Person.t) : Prop :=
  forall a, In a (Event.activities event) ->
    ~ In p (Activity.participants a) /\
    ~ In p (map fst (Activity.get_payers a)).

Definition d_0_00 : Decimal := Dec.mkDec 0 (-2).   (* Decimal("0.00") *)

(** [test_person_not_in_activity]: Alice pays 100 for Alice and Bob;
    Carol is in the Event and in no activity. *)
Definition carol_absent_event : Event.t :=
  snd (Event.add_activity (event0 [alice; bob; carol]) "Dinner" (Dec.of_Z 100)
         (Single alice) [alice; bob] "EQUAL" None None 10).

Definition carol_absent_balances : Dict Decimal :=
  [(alice, Dec.mkDec 5000 (-2)); (bob, Dec.mkDec (-5000) (-2)); (carol, d_0_00)].

(** A computation that leaves the first [n] objects of the store as they
    are, and whose result satisfies [Q]. *)
Definition preserves {A : Type} (n : nat) (m : M A) (Q : A -> Prop) : Prop :=
  forall s, (n <= List.length s)%nat ->
    (n <= List.length (snd (m s)))%nat /\
    firstn n (snd (m s)) = firstn n s /\
    forall a, fst (m s) = Ok a -> Q a.

(** The outcome of a store computation that returns a dict object,
    against the outcome of the function on dict values. *)
Definition returns_dict (res : outcome ref * Store) (o : outcome (Dict Decimal)) : Prop :=
  match o with
  | Ok d => exists r, fst res = Ok r /\ deref (snd res) r = d
  | Raise e => fst res = Raise e
  | Timeout => fst res = Timeout
  end.

(** Laws of a three-way comparison: it is antisymmetric and "not
    greater" is transitive. *)
Record OrdLaws (K : Type) `{Ord K} : Prop := {
  cmp_antisym : forall x y : K, cmp x y = CompOpp (cmp y x);
  cmp_le_trans : forall x y z : K, cmp x y <> Gt -> cmp y z <> Gt -> cmp x z <> Gt
}.

(** The order a sort by [key] puts a list in. *)
Definition sorted_by {A K : Type} `{Ord K} (key : A -> K) (l : list A) : Prop :=
  StronglySorted (fun a b => key_le (key a) (key b)) l.

(** The creditor the greedy loop is to pick: the largest balance above
    the tolerance, the least (name, id) among equals. *)
Definition largest_creditor (wb : Dict Decimal) (tol : Decimal)
    (cp : Person.t) (cb : Decimal) : Prop :=
  In (cp, cb) wb /\ dlt tol cb /\
  forall p b, In (p, b) wb -> dlt tol b ->
    dle b cb /\ (deq b cb -> key_le (person_key cp) (person_key p)).

(** The debtor the greedy loop is to pick: the most negative balance
    below minus the tolerance, the least (name, id) among equals. *)
Definition most_negative_debtor (wb : Dict Decimal) (tol : Decimal)
    (dp : Person.t) (db : Decimal) : Prop :=
  In (dp, db) wb /\ dlt db (Dec.neg tol) /\
  forall p b, In (p, b) wb -> dlt b (Dec.neg tol) ->
    dle db b /\ (deq b db -> key_le (person_key dp) (person_key p)).

Definition fits_dict (d : Dict Decimal) : Prop := Forall (fun x => fits (snd x)) d.

(** [test_simple_transfer]: 50.00 and -50.00. *)
Definition simple_balances : Dict Decimal :=
  [(alice, Dec.mkDec 5000 (-2)); (bob, Dec.mkDec (-5000) (-2))].

(** The people whose working balance is not zero. *)
Definition nonzero_count (d : Dict Decimal) : nat :=
  List.length (filter (fun x => negb (Dec.coef (snd x) =? 0)) d).

(** The working balances at the start of some pass of the loop started
    on [balances]. *)
Inductive reached (tol : Decimal) (balances : Dict Decimal) : Dict Decimal -> Prop :=
| reached_start : reached tol balances balances
| reached_next (wb wb' : Dict Decimal) (t : SettlementTransfer.t) :
    reached tol balances wb ->
    greedy_step wb tol = Ok (Some (t, wb')) ->
    reached tol balances wb'.

(** Neither a creditor nor a debtor of the next pass. *)
Definition settled (tol : Decimal) (wb : Dict Decimal) (p : Person.t) : Prop :=
  dict_get wb p = Ok d_0_00 /\
  ~ In p (map fst (creditors_of wb tol)) /\
  ~ In p (map fst (debtors_of wb tol)).

(** Applying a transfer to balances, exactly: the amount is subtracted
    from the receiver's balance and added to the sender's. *)
Definition apply_transfer (b : Dict Decimal) (t : SettlementTransfer.t)
    : outcome (Dict Decimal) :=
  c <- dict_get b (SettlementTransfer.to_person t) ;;
  let b1 := dict_set b (SettlementTransfer.to_person t)
              (Dec.sub_exact c (SettlementTransfer.amount t)) in
  d <- dict_get b1 (SettlementTransfer.from_person t) ;;
  Ok (dict_set b1 (SettlementTransfer.from_person t)
        (Dec.add_exact d (SettlementTransfer.amount t))).

Fixpoint apply_transfers (b : Dict Decimal) (ts : list SettlementTransfer.t)
    : outcome (Dict Decimal) :=
  match ts with
  | [] => Ok b
  | t :: rest => b' <- apply_transfer b t ;; apply_transfers b' rest
  end.

(** What a list of transfers adds, in cents, to the balance of [p]. *)
Definition delta1 (t : SettlementTransfer.t) (p : Person.t) : Z :=
  (if Person.eqb p (SettlementTransfer.from_person t)
   then Dec.coef (SettlementTransfer.amount t) else 0)
  - (if Person.eqb p (SettlementTransfer.to_person t)
     then Dec.coef (SettlementTransfer.amount t) else 0).

Definition delta (ts : list SettlementTransfer.t) (p : Person.t) : Z :=
  fold_right (fun t acc => delta1 t p + acc) 0 ts.

(** Balances and transfers written with two decimals. *)
Definition cents_dict (d : Dict Decimal) : Prop :=
  Forall (fun x => Dec.exp (snd x) = -2) d.

Definition cents_transfers (ts : list SettlementTransfer.t) : Prop :=
  Forall (fun t => Dec.exp (SettlementTransfer.amount t) = -2) ts.

(** 50.024, -50.00 and -0.004: the net sum is 0.020. *)
Definition three_decimals_balances : Dict Decimal :=
  [(alice, Dec.mkDec 50024 (-3)); (bob, Dec.mkDec (-5000) (-2));
   (carol, Dec.mkDec (-4) (-3))].


(** ** Further vocabulary *)

(** The data of the split strategy covers the participant: the
    participant is in the activity (EQUAL), has a weight (WEIGHTED) or has
    a fixed share (FIXED_SHARES). *)
Definition covered (a : Activity.t) (p : Person.t) : bool :=
  match Activity.split_strategy a with
  | EQUAL => existsb (Person.eqb p) (Activity.participants a)
  | WEIGHTED => truthy (Activity.weights a) && dict_mem (weights_of a) p
  | FIXED_SHARES =>
      truthy (Activity.shares a) &&
      dict_mem (match Activity.shares a with Some ss => ss | None => [] end) p
  end.

(** The dinner of the tests as an Activity: 100, paid by Alice, split
    equally among Alice, Bob and Carol. *)
Definition dinner : Activity.t :=
  Activity.mk 10 "Dinner" (Dec.of_Z 100) (Single alice) [alice; bob; carol] EQUAL
    None None "USD".

Definition dinner_shares : Dict Decimal :=
  [(alice, Dec.mkDec 3333 (-2)); (bob, Dec.mkDec 3333 (-2)); (carol, Dec.mkDec 3333 (-2))].

(** What [Activity.__post_init__] requires of the payer: a single person,
    or a non-empty list of non-negative amounts whose sum is within 0.01
    of the activity amount. *)
Definition payer_ok (a : Activity.t) : Prop :=
  match Activity.payer a with
  | Single _ => True
  | Multi l =>
      l <> [] /\
      Dec.gtb (Dec.abs (Dec.sub (Dec.sum (map snd l)) (Activity.amount a))) d_0_01 = false /\
      Forall (fun x => dle Dec.zero (snd x)) l
  end.

(** What it requires of fixed shares: present, non-negative, summing to
    within 0.01 of the activity amount. *)
Definition shares_ok (a : Activity.t) : Prop :=
  exists ss, Activity.shares a = Some ss /\ ss <> [] /\
    Dec.gtb (Dec.abs (Dec.sub (Dec.sum (dict_values ss)) (Activity.amount a))) d_0_01 = false /\
    Forall (fun x => dle Dec.zero (snd x)) ss.

(** The people [distribute_remainder] adjusts for a remainder of [k]
    cents: the first [|k|] of the people sorted by (|balance|, name, id). *)
Definition adjusted_people (balances : Dict Decimal) (remainder : Decimal) : list Person.t :=
  firstn (Z.to_nat (Z.abs (Dec.coef remainder))) (sorted_people balances).

Definition increment_of (remainder : Decimal) : Decimal :=
  if Dec.gtb remainder Dec.zero then d_0_01 else d_m0_01.

(** 50.00 and -50.01, the balances of [test_distribute_small_remainder]. *)
Definition one_cent_short : Dict Decimal :=
  [(alice, Dec.mkDec 5000 (-2)); (bob, Dec.mkDec (-5001) (-2))].

Definition one_cent_adjusted : Dict Decimal :=
  [(alice, Dec.mkDec 5001 (-2)); (bob, Dec.mkDec (-5001) (-2))].

(** Referential integrity of an Event: the participants and the payers
    of its activities are among its people. *)
Definition referential_integrity (e : Event.t) : Prop :=
  forall a, In a (Event.activities e) ->
    (forall p, In p (Activity.participants a) -> In p (Event.people e)) /\
    (forall p, In p (map fst (Activity.get_payers a)) -> In p (Event.people e)).


(** A row of the settlement summary of [p]: the net is the balance given
    for [p], paid and owed are rounded to two decimals. *)
Definition summary_row_ok (balances : Dict Decimal) (p : Person.t) (row : SummaryRow) : Prop :=
  dict_get balances p = Ok (net row) /\ quantized (paid row) /\ quantized (owed row).

(** The summary of [carol_absent_event]. *)
Definition carol_absent_summary : Dict SummaryRow :=
  [(alice, mkRow (Dec.mkDec 10000 (-2)) (Dec.mkDec 5000 (-2)) (Dec.mkDec 5000 (-2)));
   (bob, mkRow d_0_00 (Dec.mkDec 5000 (-2)) (Dec.mkDec (-5000) (-2)));
   (carol, mkRow d_0_00 d_0_00 d_0_00)].

(** A transfer that follows the balances: the sender owes, the receiver
    is owed, and the amount, in cents, is positive and no more than what
    the sender owes and what the receiver is owed. *)
Definition transfer_sound (balances : Dict Decimal) (t : SettlementTransfer.t) : Prop :=
  exists vf vt,
    dict_get balances (SettlementTransfer.from_person t) = Ok vf /\
    dict_get balances (SettlementTransfer.to_person t) = Ok vt /\
    Dec.coef vf < 0 /\ 0 < Dec.coef vt /\
    quantized (SettlementTransfer.amount t) /\
    0 < Dec.coef (SettlementTransfer.amount t) /\
    Dec.coef (SettlementTransfer.amount t) <= - Dec.coef vf /\
    Dec.coef (SettlementTransfer.amount t) <= Dec.coef vt.

(** Balances within 0.02 of zero. *)
Definition within_tolerance_balances : Dict Decimal :=
  [(alice, Dec.mkDec 1 (-2)); (bob, Dec.mkDec (-2) (-2)); (carol, d_0_00)].

(** [Event.compute_settlement()]; the fuel bounds the passes of the loop
    of [compute_minimal_transfers], called with its default tolerance of
    0.02. *)
Definition compute_settlement (fuel : nat) (event : Event.t)
    : outcome (list SettlementTransfer.t * Dict SummaryRow) :=
  balances <- compute_net_balances event ;;
  transfers <- compute_minimal_transfers fuel balances d_0_02 ;;
  summary <- compute_settlement_summary event balances ;;
  Ok (transfers, summary).
(** * Proofs *)

(** ** Outcomes *)

Lemma bind_Ok {A B : Type} (m : outcome A) (k : A -> outcome B) (b : B) :
  bind m k = Ok b -> exists a, m = Ok a /\ k a = Ok b.
Proof. destruct m; simpl; intros H; try discriminate. eauto. Qed.

Lemma Person_eqb_spec (p q : Person.t) : reflect (p = q) (Person.eqb p q).
Proof.
  destruct p as [n1 i1], q as [n2 i2]; unfold Person.eqb; simpl.
  destruct (String.eqb_spec n1 n2) as [->|Hn]; simpl.
  - destruct (N.eqb_spec i1 i2) as [->|Hi]; constructor; congruence.
  - constructor; congruence.
Qed.

Lemma Person_eqb_refl (p : Person.t) : Person.eqb p p = true.
Proof. destruct (Person_eqb_spec p p); congruence. Qed.

(** ** Digits and powers of ten *)

Ltac plia := pose proof (eq_refl : Dec.prec = 28); lia.

Lemma pow10_pos (k : Z) : 0 <= k -> 0 < 10 ^ k.
Proof. intros; apply Z.pow_pos_nonneg; lia. Qed.

Lemma pow10_split (a b : Z) : 0 <= a -> 0 <= b -> 10 ^ (a + b) = 10 ^ a * 10 ^ b.
Proof. intros; apply Z.pow_add_r; lia. Qed.

Lemma ndigits_pos_ge1 (fuel : nat) (n : Z) : 1 <= Dec.ndigits_pos fuel n.
Proof.
  revert n; induction fuel as [|f IH]; intros n; cbn [Dec.ndigits_pos]; [lia|].
  destruct (n <? 10); [lia|]. specialize (IH (n / 10)). lia.
Qed.

Lemma ndigits_pos_spec (fuel : nat) :
  forall n k, 0 <= n -> n < 2 ^ (Z.of_nat fuel + 1) -> 1 <= k ->
    (Dec.ndigits_pos fuel n <= k <-> n < 10 ^ k).
Proof.
  induction fuel as [|f IH]; intros n k Hn Hlt Hk.
  - simpl in *. assert (10 ^ 1 <= 10 ^ k) by (apply Z.pow_le_mono_r; lia).
    change (10 ^ 1) with 10 in *. change (2 ^ 1) with 2 in Hlt. lia.
  - cbn [Dec.ndigits_pos]. destruct (Z.ltb_spec n 10) as [Hs|Hs].
    + assert (10 ^ 1 <= 10 ^ k) by (apply Z.pow_le_mono_r; lia).
      change (10 ^ 1) with 10 in *. lia.
    + assert (Hd : n / 10 < 2 ^ (Z.of_nat f + 1)).
      { apply Z.div_lt_upper_bound; [lia|].
        replace (Z.of_nat (S f) + 1) with (1 + (Z.of_nat f + 1)) in Hlt by lia.
        rewrite Z.pow_add_r in Hlt by lia. change (2 ^ 1) with 2 in Hlt. lia. }
      assert (H0 : 0 <= n / 10) by (apply Z.div_pos; lia).
      pose proof (ndigits_pos_ge1 f (n / 10)) as Hge.
      destruct (Z.eq_dec k 1) as [->|Hk1].
      * change (10 ^ 1) with 10. lia.
      * specialize (IH (n / 10) (k - 1) H0 Hd ltac:(lia)).
        replace k with (1 + (k - 1)) at 2 by lia.
        rewrite Z.pow_add_r by lia. change (10 ^ 1) with 10.
        split; intros H.
        -- assert (n / 10 < 10 ^ (k - 1)) by (apply IH; lia).
           pose proof (Z.mul_div_le n 10 ltac:(lia)).
           pose proof (Z.mod_pos_bound n 10 ltac:(lia)).
           pose proof (Z.div_mod n 10 ltac:(lia)). lia.
        -- assert (n / 10 < 10 ^ (k - 1)) by (apply Z.div_lt_upper_bound; lia).
           apply IH in H1. lia.
Qed.

(** [ndigits c <= k] exactly when [|c| < 10 ^ k]. *)
Lemma ndigits_le (c k : Z) : 1 <= k -> (Dec.ndigits c <= k <-> Z.abs c < 10 ^ k).
Proof.
  intros Hk. unfold Dec.ndigits. apply ndigits_pos_spec; [lia| |lia].
  destruct (Z.eq_dec (Z.abs c) 0) as [->|Hz]; [reflexivity|].
  rewrite Z2Nat.id by apply Z.log2_nonneg.
  pose proof (Z.log2_spec (Z.abs c) ltac:(lia)). lia.
Qed.

Lemma ndigits_ge1 (c : Z) : 1 <= Dec.ndigits c.
Proof. apply ndigits_pos_ge1. Qed.

(** [10 ^ (ndigits c - 1) <= |c|] for a non-zero [c]. *)
Lemma ndigits_lower (c : Z) : c <> 0 -> 10 ^ (Dec.ndigits c - 1) <= Z.abs c.
Proof.
  intros Hc. pose proof (ndigits_ge1 c) as H1.
  destruct (Z.eq_dec (Dec.ndigits c) 1) as [->|Hn]; [change (10 ^ (1 - 1)) with 1; lia|].
  destruct (Z_lt_le_dec (Z.abs c) (10 ^ (Dec.ndigits c - 1))) as [Hlt|]; [|assumption].
  apply ndigits_le in Hlt; lia.
Qed.

Lemma ndigits_upper (c : Z) : Z.abs c < 10 ^ Dec.ndigits c.
Proof. apply ndigits_le; [apply ndigits_ge1|lia]. Qed.

Lemma fix_fits (d : Decimal) : fits d -> Dec.fix_ d = d.
Proof.
  unfold fits, Dec.fix_. intros H.
  apply ndigits_le in H; [|plia].
  destruct (Z.leb_spec (Dec.ndigits (Dec.coef d)) Dec.prec); [reflexivity|lia].
Qed.

(** ** Rounding half to even *)

Lemma round_half_even_spec (n k : Z) :
  0 <= n -> 0 <= k ->
  let q := Dec.round_half_even n k in
  n / 10 ^ k <= q <= n / 10 ^ k + 1 /\ 2 * Z.abs (n - q * 10 ^ k) <= 10 ^ k /\
  (2 * Z.abs (n - q * 10 ^ k) = 10 ^ k -> Z.even q = true).
Proof.
  intros Hn Hk q. subst q. unfold Dec.round_half_even.
  pose proof (pow10_pos k Hk) as Hp.
  set (p := 10 ^ k) in *.
  pose proof (Z.div_mod n p ltac:(lia)) as Hdm.
  pose proof (Z.mod_pos_bound n p Hp) as Hr.
  set (q := n / p) in *. set (r := n mod p) in *.
  destruct (Z.ltb_spec (2 * r) p) as [H1|H1].
  - repeat split; try lia.
  - destruct (Z.ltb_spec p (2 * r)) as [H2|H2].
    + repeat split; try lia.
    + destruct (Z.even q) eqn:He.
      * repeat split; try lia. intros _; exact He.
      * repeat split; try lia. intros _.
        rewrite Z.even_add, He. reflexivity.
Qed.

Lemma rescale_exp (d : Decimal) (e : Z) : Dec.exp (Dec.rescale d e) = e.
Proof.
  unfold Dec.rescale. destruct (Dec.coef d =? 0); [reflexivity|].
  destruct (e <=? Dec.exp d); reflexivity.
Qed.

Lemma even_sgn_mul (c q : Z) : c <> 0 -> Z.even (Z.sgn c * q) = Z.even q.
Proof.
  intros Hc. rewrite Z.even_mul.
  destruct c; simpl; try contradiction; reflexivity.
Qed.

(** The coefficient that [rescale] computes is the nearest one, ties to
    even. *)
Lemma rescale_nearest (d : Decimal) (e : Z) :
  nearest_even d e (Dec.coef (Dec.rescale d e)).
Proof.
  unfold nearest_even, Dec.rescale.
  destruct (Z.eqb_spec (Dec.coef d) 0) as [Hz|Hz].
  - cbn [Dec.coef Dec.exp]. rewrite Hz. rewrite !Z.mul_0_l. change (Z.abs (0 - 0)) with 0.
    assert (0 < 10 ^ (e - Z.min (Dec.exp d) e)) by (apply pow10_pos; lia).
    split; lia.
  - destruct (Z.leb_spec e (Dec.exp d)) as [Hle|Hlt]; cbn [Dec.coef Dec.exp].
    + rewrite Z.min_r by lia. rewrite Z.sub_diag. change (10 ^ 0) with 1.
      split; lia.
    + rewrite Z.min_l by lia. rewrite Z.sub_diag. change (10 ^ 0) with 1.
      destruct (round_half_even_spec (Z.abs (Dec.coef d)) (e - Dec.exp d)
                  ltac:(lia) ltac:(lia)) as (_ & H1 & H2).
      set (q := Dec.round_half_even (Z.abs (Dec.coef d)) (e - Dec.exp d)) in *.
      rewrite even_sgn_mul by assumption.
      assert (Heq : Z.abs (Dec.coef d * 1 - Z.sgn (Dec.coef d) * q * 10 ^ (e - Dec.exp d))
                    = Z.abs (Z.abs (Dec.coef d) - q * 10 ^ (e - Dec.exp d))).
      { destruct (Z.sgn_spec (Dec.coef d)) as [[? ->]|[[? ->]|[? ->]]]; lia. }
      rewrite Heq. split; assumption.
Qed.

(** A rescaled coefficient is at least the scaled one rounded down. *)
Lemma rescale_large (d : Decimal) (e : Z) :
  Dec.coef d <> 0 -> Dec.prec < Dec.ndigits (Dec.coef d) + Dec.exp d - e ->
  10 ^ Dec.prec <= Z.abs (Dec.coef (Dec.rescale d e)).
Proof.
  intros Hz Hbig. unfold Dec.rescale.
  destruct (Z.eqb_spec (Dec.coef d) 0) as [|_]; [contradiction|].
  pose proof (ndigits_lower _ Hz) as Hlow.
  pose proof (ndigits_ge1 (Dec.coef d)) as Hge.
  set (n := Dec.ndigits (Dec.coef d)) in *.
  destruct (Z.leb_spec e (Dec.exp d)) as [Hle|Hlt]; cbn [Dec.coef Dec.exp].
  - rewrite Z.abs_mul. rewrite (Z.abs_eq (10 ^ _)) by (apply Z.pow_nonneg; lia).
    apply Z.le_trans with (10 ^ (n - 1) * 10 ^ (Dec.exp d - e)).
    + rewrite <- Z.pow_add_r by lia. apply Z.pow_le_mono_r; plia.
    + apply Z.mul_le_mono_nonneg_r; [apply Z.pow_nonneg; lia|assumption].
  - destruct (round_half_even_spec (Z.abs (Dec.coef d)) (e - Dec.exp d)
                ltac:(lia) ltac:(lia)) as ((H0 & _) & _ & _).
    set (q := Dec.round_half_even _ _) in *.
    assert (Hq : 10 ^ Dec.prec <= q).
    { apply Z.le_trans with (2 := H0).
      apply Z.div_le_lower_bound; [apply pow10_pos; lia|].
      rewrite <- Z.pow_add_r by (plia).
      apply Z.le_trans with (2 := Hlow).
      apply Z.pow_le_mono_r; plia. }
    assert (0 < 10 ^ Dec.prec) by (apply pow10_pos; plia).
    destruct (Z.sgn_spec (Dec.coef d)) as [[? ->]|[[? ->]|[? ->]]]; lia.
Qed.

Lemma pow10_exp (places : Z) : 0 <= places -> Dec.exp (Dec.pow10 (- places)) = - places.
Proof.
  intros H. unfold Dec.pow10.
  destruct (Z.ltb_spec (- places) 0); [reflexivity|].
  destruct (Z.eqb_spec (- places) 0) as [E|]; [simpl; lia|lia].
Qed.

(** [quantize] in full: the nearest coefficient, or InvalidOperation when
    it has more digits than the precision. *)
Lemma quantize_spec (d q : Decimal) :
  exists r, nearest_even d (Dec.exp q) r /\
    Dec.quantize d q =
      if Z.abs r <? 10 ^ Dec.prec then Ok (Dec.mkDec r (Dec.exp q))
      else Raise InvalidOperation.
Proof.
  exists (Dec.coef (Dec.rescale d (Dec.exp q))). split; [apply rescale_nearest|].
  unfold Dec.quantize.
  destruct (Z.eqb_spec (Dec.coef d) 0) as [Hz|Hz].
  - unfold Dec.rescale. rewrite Hz. simpl. reflexivity.
  - destruct (Z.ltb_spec Dec.prec (Dec.ndigits (Dec.coef d) + Dec.exp d - Dec.exp q)) as [Hb|Hb].
    + pose proof (rescale_large d (Dec.exp q) Hz Hb).
      destruct (Z.ltb_spec (Z.abs (Dec.coef (Dec.rescale d (Dec.exp q)))) (10 ^ Dec.prec));
        [lia|reflexivity].
    + set (ans := Dec.rescale d (Dec.exp q)).
      destruct (Z.ltb_spec Dec.prec (Dec.ndigits (Dec.coef ans))) as [Hc|Hc].
      * destruct (Z.ltb_spec (Z.abs (Dec.coef ans)) (10 ^ Dec.prec)) as [Hlt|]; [|reflexivity].
        apply ndigits_le in Hlt; [lia|plia].
      * assert (Hf : fits ans).
        { unfold fits. apply ndigits_le; [plia|lia]. }
        rewrite (fix_fits ans Hf).
        destruct (Z.ltb_spec (Z.abs (Dec.coef ans)) (10 ^ Dec.prec)) as [_|Hge];
          [|unfold fits in Hf; lia].
        f_equal. destruct ans as [c x] eqn:E. simpl.
        f_equal. change x with (Dec.exp (Dec.mkDec c x)). rewrite <- E.
        apply rescale_exp.
Qed.

Lemma round_money_spec (amount : Decimal) (places : Z) :
  0 <= places ->
  exists r, nearest_even amount (- places) r /\
    round_money amount places =
      if Z.abs r <? 10 ^ Dec.prec then Ok (Dec.mkDec r (- places))
      else Raise InvalidOperation.
Proof.
  intros Hp. unfold round_money.
  destruct (quantize_spec amount (Dec.pow10 (- places))) as (r & Hr & Hq).
  rewrite pow10_exp in Hr, Hq by assumption.
  exists r. split; assumption.
Qed.

(** C3. [round_money amount places] is the round-half-to-even
    quantization of [amount] at [places] decimal places: for a place count
    [places >= 0] the result has exponent [-places] and its coefficient is
    the nearest one, the even one on a tie (an InvalidOperation when that
    coefficient does not fit the 28 digits of the context, as
    [Decimal.quantize] has it).  At 2 places: 0.5 gives 0.50, 1.5 gives
    1.50, 2.5 gives 2.50, 10.545 gives 10.54 and 10.555 gives 10.56. *)
Theorem round_money_half_even :
  (forall (amount : Decimal) (places : Z), 0 <= places ->
     exists r, nearest_even amount (- places) r /\
       round_money amount places =
         if Z.abs r <? 10 ^ Dec.prec then Ok (Dec.mkDec r (- places))
         else Raise InvalidOperation) /\
  round_money (Dec.mkDec 5 (-1)) 2 = Ok (Dec.mkDec 50 (-2)) /\
  round_money (Dec.mkDec 15 (-1)) 2 = Ok (Dec.mkDec 150 (-2)) /\
  round_money (Dec.mkDec 25 (-1)) 2 = Ok (Dec.mkDec 250 (-2)) /\
  round_money (Dec.mkDec 10545 (-3)) 2 = Ok (Dec.mkDec 1054 (-2)) /\
  round_money (Dec.mkDec 10555 (-3)) 2 = Ok (Dec.mkDec 1056 (-2)).
Proof.
  split; [exact round_money_spec|repeat split; reflexivity].
Qed.

Lemma round_money_half_even_witness :
  0 <= 2 /\
  exists r, nearest_even (Dec.mkDec 10545 (-3)) (- 2) r /\
    round_money (Dec.mkDec 10545 (-3)) 2 =
      if Z.abs r <? 10 ^ Dec.prec then Ok (Dec.mkDec r (- 2)) else Raise InvalidOperation.
Proof.
  split; [lia|].
  apply (proj1 round_money_half_even (Dec.mkDec 10545 (-3)) 2). lia.
Defined.

(** ** Person equality *)

(** C7, as the code has it. The generated [__eq__] of the frozen
    dataclass compares both fields: two Person values are equal exactly
    when their names are equal and their ids are equal. *)
Theorem person_eq_name_and_id (p q : Person.t) :
  Person.eqb p q = true <->
  Person.name p = Person.name q /\ Person.id p = Person.id q.
Proof.
  destruct (Person_eqb_spec p q) as [->|Hne].
  - split; auto.
  - split; [discriminate|]. intros [Hn Hi]. exfalso. apply Hne.
    destruct p, q; simpl in *; congruence.
Qed.

(** C7 as stated fails: the same id under two names gives two distinct
    Person values. *)
Lemma person_same_id_distinct :
  Person.id (Person.mk "Alice" 7) = Person.id (Person.mk "Alicia" 7) /\
  Person.eqb (Person.mk "Alice" 7) (Person.mk "Alicia" 7) = false.
Proof. split; reflexivity. Qed.

(** ** Event.add_activity *)

(** C10. [add_activity] leaves the Event as it was whenever it raises
    (ValidationError included); an activity is appended, to an unchanged
    people list, only when the membership checks and the Activity
    construction have all succeeded. *)
Theorem add_activity_atomic (e : Event.t) (description : string) (amount : Decimal)
    (payer : Payer) (participants : list Person.t) (split_strategy : string)
    (weights shares : option (Dict Decimal)) (fresh : N) :
  let r := Event.add_activity e description amount payer participants
             split_strategy weights shares fresh in
  (forall err, fst r = Raise err -> snd r = e) /\
  (forall a, fst r = Ok a ->
     Event.check_members e payer participants = Ok tt /\
     Event.people (snd r) = Event.people e /\
     Event.activities (snd r) = Event.activities e ++ [a]).
Proof.
  unfold Event.add_activity.
  destruct (Event.check_members e payer participants) as [[]|err0|] eqn:Hm; simpl.
  - destruct (SplitStrategy_of_string split_strategy) as [st|err1|]; simpl.
    + destruct (Activity.post_init _) as [a0|err2|]; simpl.
      * split; [discriminate|]. intros a Ha. inversion Ha; subst. auto.
      * split; [reflexivity|discriminate].
      * split; [reflexivity|discriminate].
    + split; [reflexivity|discriminate].
    + split; [reflexivity|discriminate].
  - split; [reflexivity|discriminate].
  - split; [reflexivity|discriminate].
Qed.

(** A payer who is not a member: ValidationError, Event untouched. *)
Lemma add_activity_atomic_witness :
  fst (Event.add_activity (event0 [alice]) "Dinner" (Dec.of_Z 100) (Single bob)
         [alice] "EQUAL" None None 10) = Raise ValidationError /\
  snd (Event.add_activity (event0 [alice]) "Dinner" (Dec.of_Z 100) (Single bob)
         [alice] "EQUAL" None None 10) = event0 [alice].
Proof.
  split; [reflexivity|].
  apply (proj1 (add_activity_atomic (event0 [alice]) "Dinner" (Dec.of_Z 100) (Single bob)
                  [alice] "EQUAL" None None 10) ValidationError).
  reflexivity.
Defined.

(** ** Reconciliation on the scenarios of the tests *)

(** C1, what the code does. With a total of 0.01, inside the tolerance,
    [ensure_zero_sum] hands the total itself to [distribute_remainder],
    which adds it: the result sums to 0.02, not to 0, and with the default
    tolerance of 0.01 the result is outside the tolerance.  The same
    happens in [compute_net_balances] for 100 split equally among three
    people. *)
Theorem ensure_zero_sum_doubles_remainder :
  Dec.sum (dict_values small_remainder_balances) = Dec.mkDec 1 (-2) /\
  (exists b, ensure_zero_sum small_remainder_balances d_0_02 = Ok b /\
             Dec.sum (dict_values b) = Dec.mkDec 2 (-2)) /\
  (exists b, ensure_zero_sum small_remainder_balances d_0_01 = Ok b /\
             Dec.gtb (Dec.abs (Dec.sum (dict_values b))) d_0_01 = true) /\
  (exists a, fst (Event.add_activity (event0 [alice; bob; carol]) "Dinner" (Dec.of_Z 100)
                    (Single alice) [alice; bob; carol] "EQUAL" None None 10) = Ok a) /\
  (exists b, rounded_balances (dinner_event [alice; bob; carol]) = Ok b /\
             Dec.sum (dict_values b) = Dec.mkDec 1 (-2)) /\
  (exists b, compute_net_balances (dinner_event [alice; bob; carol]) = Ok b /\
             Dec.sum (dict_values b) = Dec.mkDec 2 (-2)).
Proof.
  split; [reflexivity|].
  split; [eexists; split; [vm_compute; reflexivity|reflexivity]|].
  split; [eexists; split; [vm_compute; reflexivity|reflexivity]|].
  split; [eexists; vm_compute; reflexivity|].
  split; eexists; (split; [vm_compute; reflexivity|reflexivity]).
Qed.

(** ** Rounding to the context *)

(** What [fix_] returns: the decimal itself when it fits, else a
    coefficient of exactly 28 digits with the sign kept and a larger
    exponent. *)
Lemma fix_cases (d : Decimal) :
  (fits d /\ Dec.fix_ d = d) \/
  (~ fits d /\ exists q x,
      Dec.fix_ d = Dec.mkDec (Z.sgn (Dec.coef d) * q) x /\
      10 ^ (Dec.prec - 1) <= q < 10 ^ Dec.prec /\
      Dec.exp d + Dec.ndigits (Dec.coef d) - Dec.prec <= x).
Proof.
  destruct (Z_lt_le_dec (Z.abs (Dec.coef d)) (10 ^ Dec.prec)) as [Hf|Hnf].
  - left. split; [exact Hf|apply fix_fits; exact Hf].
  - right. split; [unfold fits; lia|].
    assert (Hn : Dec.prec < Dec.ndigits (Dec.coef d)).
    { destruct (Z_lt_le_dec Dec.prec (Dec.ndigits (Dec.coef d))) as [|Hle]; [assumption|].
      apply ndigits_le in Hle; [lia|plia]. }
    assert (Hp : 0 < 10 ^ Dec.prec) by (apply pow10_pos; plia).
    assert (Hz : Dec.coef d <> 0) by lia.
    pose proof (ndigits_lower _ Hz) as Hlow.
    pose proof (ndigits_upper (Dec.coef d)) as Hup.
    unfold Dec.fix_.
    set (n := Dec.ndigits (Dec.coef d)) in *.
    destruct (Z.leb_spec n Dec.prec) as [|_]; [lia|].
    unfold Dec.rescale.
    destruct (Z.eqb_spec (Dec.coef d) 0) as [|_]; [contradiction|].
    destruct (Z.leb_spec (Dec.exp d + (n - Dec.prec)) (Dec.exp d)) as [|_]; [lia|].
    replace (Dec.exp d + (n - Dec.prec) - Dec.exp d) with (n - Dec.prec) by lia.
    cbn [Dec.coef Dec.exp].
    destruct (round_half_even_spec (Z.abs (Dec.coef d)) (n - Dec.prec)
                ltac:(lia) ltac:(lia)) as ((Hq1 & Hq2) & _ & _).
    set (q := Dec.round_half_even _ _) in *.
    assert (Hk : 0 < 10 ^ (n - Dec.prec)) by (apply pow10_pos; lia).
    assert (Hfl1 : 10 ^ (Dec.prec - 1) <= Z.abs (Dec.coef d) / 10 ^ (n - Dec.prec)).
    { apply Z.div_le_lower_bound; [assumption|].
      rewrite <- Z.pow_add_r by (plia).
      replace (n - Dec.prec + (Dec.prec - 1)) with (n - 1) by lia. assumption. }
    assert (Hfl2 : Z.abs (Dec.coef d) / 10 ^ (n - Dec.prec) < 10 ^ Dec.prec).
    { apply Z.div_lt_upper_bound; [assumption|].
      rewrite <- Z.pow_add_r by (plia).
      replace (n - Dec.prec + Dec.prec) with n by lia. assumption. }
    assert (Habs : Z.abs (Z.sgn (Dec.coef d) * q) = q).
    { destruct (Z.sgn_spec (Dec.coef d)) as [[? ->]|[[? ->]|[? ->]]]; lia. }
    destruct (Z.ltb_spec Dec.prec (Dec.ndigits (Z.sgn (Dec.coef d) * q))) as [Hc|Hc].
    + assert (Hq : q = 10 ^ Dec.prec).
      { destruct (Z_lt_le_dec q (10 ^ Dec.prec)) as [Hlt|]; [|lia].
        rewrite <- Habs in Hlt. apply ndigits_le in Hlt; [lia|plia]. }
      exists (10 ^ (Dec.prec - 1)), (Dec.exp d + (n - Dec.prec) + 1).
      split; [|split; [|lia]].
      * f_equal. rewrite Hq.
        destruct (Z.sgn_spec (Dec.coef d)) as [[? ->]|[[? ->]|[? ->]]]; try lia;
          unfold Dec.prec; reflexivity.
      * split; [lia|]. apply Z.pow_lt_mono_r; plia.
    + exists q, (Dec.exp d + (n - Dec.prec)). split; [reflexivity|]. split; [|lia].
      split; [lia|]. rewrite <- Habs. apply ndigits_le; plia.
Qed.

Lemma fix_out_fits (d : Decimal) : fits (Dec.fix_ d).
Proof.
  destruct (fix_cases d) as [[Hf ->]|[_ (q & x & -> & Hq & _)]]; [assumption|].
  unfold fits; cbn [Dec.coef].
  destruct (Z.sgn_spec (Dec.coef d)) as [[? ->]|[[? ->]|[? ->]]]; lia.
Qed.

(** [fix_] keeps the sign of the coefficient. *)
Lemma fix_sgn (d : Decimal) : Z.sgn (Dec.coef (Dec.fix_ d)) = Z.sgn (Dec.coef d).
Proof.
  destruct (fix_cases d) as [[_ ->]|[_ (q & x & -> & Hq & _)]]; [reflexivity|].
  cbn [Dec.coef].
  assert (0 < 10 ^ (Dec.prec - 1)) by (apply pow10_pos; plia).
  destruct (Z.sgn_spec (Dec.coef d)) as [[? ->]|[[? ->]|[? ->]]]; lia.
Qed.

(** ** Order of decimals *)

Lemma mul_compare_pos_r (n m p : Z) : 0 < p -> (n * p ?= m * p) = (n ?= m).
Proof.
  intros Hp. destruct (Z.compare_spec n m) as [->|H|H].
  - apply Z.compare_refl.
  - apply Z.compare_lt_iff. nia.
  - apply Z.compare_gt_iff. nia.
Qed.

Lemma compare_scaled (a b : Decimal) (m : Z) :
  m <= Dec.exp a -> m <= Dec.exp b ->
  Dec.compare a b =
    (Dec.coef a * 10 ^ (Dec.exp a - m) ?= Dec.coef b * 10 ^ (Dec.exp b - m)).
Proof.
  intros Ha Hb. unfold Dec.compare.
  set (m0 := Z.min (Dec.exp a) (Dec.exp b)).
  assert (Hm0 : m <= m0) by (unfold m0; lia).
  assert (m0 <= Dec.exp a /\ m0 <= Dec.exp b) as [H1 H2] by (unfold m0; lia).
  replace (Dec.exp a - m) with ((Dec.exp a - m0) + (m0 - m)) by lia.
  replace (Dec.exp b - m) with ((Dec.exp b - m0) + (m0 - m)) by lia.
  rewrite !Z.pow_add_r by lia. rewrite !Z.mul_assoc.
  symmetry. apply mul_compare_pos_r. apply pow10_pos; lia.
Qed.

Lemma compare_same_exp (a b : Decimal) :
  Dec.exp a = Dec.exp b -> Dec.compare a b = (Dec.coef a ?= Dec.coef b).
Proof.
  intros H. rewrite (compare_scaled a b (Dec.exp a)) by lia.
  rewrite H, Z.sub_diag. change (10 ^ 0) with 1. rewrite !Z.mul_1_r. reflexivity.
Qed.

Lemma compare_antisym (a b : Decimal) : Dec.compare a b = CompOpp (Dec.compare b a).
Proof.
  unfold Dec.compare. rewrite (Z.min_comm (Dec.exp b)). apply Z.compare_antisym.
Qed.

Lemma compare_zero_l (b : Decimal) : Dec.compare Dec.zero b = (0 ?= Dec.coef b).
Proof.
  unfold Dec.compare, Dec.zero; cbn [Dec.coef Dec.exp]. rewrite Z.mul_0_l.
  assert (0 < 10 ^ (Dec.exp b - Z.min 0 (Dec.exp b))) by (apply pow10_pos; lia).
  destruct (Dec.coef b) as [|c|c]; simpl; try reflexivity.
  - destruct (10 ^ _); try lia; reflexivity.
  - destruct (10 ^ _); try lia; reflexivity.
Qed.

Lemma compare_zero_r (a : Decimal) : Dec.compare a Dec.zero = (Dec.coef a ?= 0).
Proof.
  rewrite compare_antisym, compare_zero_l, <- Z.compare_antisym. reflexivity.
Qed.

Lemma compare_le_trans (a b c : Decimal) : dle a b -> dle b c -> dle a c.
Proof.
  unfold dle. set (m := Z.min (Dec.exp a) (Z.min (Dec.exp b) (Dec.exp c))).
  rewrite (compare_scaled a b m), (compare_scaled b c m), (compare_scaled a c m)
    by (unfold m; lia).
  rewrite !Z.compare_le_iff. lia.
Qed.

Lemma mag_ge1_scaled (d : Decimal) (m : Z) :
  mag_ge1 d -> m <= Dec.exp d -> m <= 0 ->
  10 ^ (- m) <= Z.abs (Dec.coef d) * 10 ^ (Dec.exp d - m).
Proof.
  unfold mag_ge1. set (m0 := Z.min (Dec.exp d) 0). intros H H1 H2.
  assert (Hm : m <= m0) by (unfold m0; lia).
  assert (Hm0 : m0 <= Dec.exp d /\ m0 <= 0) by (unfold m0; lia).
  replace (- m) with (- m0 + (m0 - m)) by lia.
  replace (Dec.exp d - m) with ((Dec.exp d - m0) + (m0 - m)) by lia.
  rewrite !Z.pow_add_r by lia. rewrite Z.mul_assoc.
  apply Z.mul_le_mono_nonneg_r; [apply Z.pow_nonneg; lia|exact H].
Qed.

Lemma fix_mag_ge1 (d : Decimal) : mag_ge1 d -> mag_ge1 (Dec.fix_ d).
Proof.
  intros H. destruct (fix_cases d) as [[_ ->]|[Hnf (q & x & -> & Hq & Hx)]]; [exact H|].
  unfold mag_ge1; cbn [Dec.coef Dec.exp].
  assert (Hz : Dec.coef d <> 0).
  { intros E. apply Hnf. unfold fits. rewrite E. apply pow10_pos. plia. }
  assert (Habs : Z.abs (Z.sgn (Dec.coef d) * q) = q).
  { assert (0 < 10 ^ (Dec.prec - 1)) by (apply pow10_pos; plia).
    destruct (Z.sgn_spec (Dec.coef d)) as [[? ->]|[[? ->]|[? ->]]]; lia. }
  rewrite Habs.
  assert (Hen : 1 <= Dec.exp d + Dec.ndigits (Dec.coef d)).
  { pose proof (ndigits_ge1 (Dec.coef d)). pose proof (ndigits_upper (Dec.coef d)) as Hup.
    destruct (Z_le_gt_dec (Dec.exp d) 0) as [He|He]; [|lia].
    pose proof (mag_ge1_scaled d (Dec.exp d) H ltac:(lia) He) as Hm.
    rewrite Z.sub_diag in Hm. change (10 ^ 0) with 1 in Hm. rewrite Z.mul_1_r in Hm.
    assert (Hlt : 10 ^ (- Dec.exp d) < 10 ^ Dec.ndigits (Dec.coef d)) by lia.
    apply Z.pow_lt_mono_r_iff in Hlt; lia. }
  destruct (Z_le_gt_dec 0 x) as [Hx0|Hx0].
  - rewrite Z.min_r by lia. rewrite Z.sub_0_r. change (10 ^ (- 0)) with 1.
    assert (0 < 10 ^ x) by (apply pow10_pos; lia).
    assert (0 < 10 ^ (Dec.prec - 1)) by (apply pow10_pos; plia).
    nia.
  - rewrite Z.min_l by lia. rewrite Z.sub_diag. change (10 ^ 0) with 1.
    rewrite Z.mul_1_r.
    apply Z.le_trans with (10 ^ (Dec.prec - 1)); [|lia].
    apply Z.pow_le_mono_r; lia.
Qed.

(** A weight sum that is not positive is further than 0.01 from 1.0 for
    the test [abs(weight_sum - Decimal("1.0")) > Decimal("0.01")]. *)
Lemma far_from_one (s : Decimal) :
  Dec.coef s <= 0 -> Dec.gtb (Dec.abs (Dec.sub s d_1_0)) d_0_01 = true.
Proof.
  intros Hs.
  set (X := Dec.sub_exact s d_1_0).
  assert (HX : mag_ge1 X /\ Dec.coef X <> 0).
  { unfold X, Dec.sub_exact, mag_ge1, d_1_0; cbn [Dec.coef Dec.exp].
    set (m := Z.min (Dec.exp s) (-1)).
    assert (Hm : m <= Dec.exp s /\ m <= -1) by (unfold m; lia).
    rewrite (Z.min_l m 0) by lia. rewrite Z.sub_diag. change (10 ^ 0) with 1.
    assert (H10 : 10 * 10 ^ (-1 - m) = 10 ^ (- m)).
    { replace (- m) with (1 + (-1 - m)) by lia. rewrite Z.pow_add_r by lia. reflexivity. }
    rewrite H10.
    assert (0 < 10 ^ (- m)) by (apply pow10_pos; lia).
    assert (0 <= 10 ^ (Dec.exp s - m)) by (apply Z.pow_nonneg; lia).
    nia. }
  destruct HX as [HX HXz].
  set (Y := Dec.fix_ X).
  assert (HY : mag_ge1 Y) by (apply fix_mag_ge1; exact HX).
  set (A := Dec.abs Y).
  assert (HA : mag_ge1 A).
  { unfold A, Dec.abs. apply fix_mag_ge1. unfold mag_ge1 in *; cbn [Dec.coef Dec.exp].
    rewrite Z.abs_idemp. exact HY. }
  assert (HApos : 0 <= Dec.coef A).
  { unfold A, Dec.abs.
    pose proof (fix_sgn (Dec.mkDec (Z.abs (Dec.coef Y)) (Dec.exp Y))) as Hsg.
    cbn [Dec.coef] in Hsg.
    destruct (Z.sgn_spec (Z.abs (Dec.coef Y))) as [[? E]|[[? E]|[? E]]]; try lia;
      rewrite E in Hsg;
      destruct (Z.sgn_spec (Dec.coef (Dec.fix_ (Dec.mkDec (Z.abs (Dec.coef Y)) (Dec.exp Y)))))
        as [[? E2]|[[? E2]|[? E2]]]; lia. }
  change (Dec.abs (Dec.sub s d_1_0)) with A.
  unfold Dec.gtb, Dec.ltb.
  set (m := Z.min (-2) (Dec.exp A)).
  assert (Hm : m <= -2 /\ m <= Dec.exp A) by (unfold m; lia).
  rewrite (compare_scaled d_0_01 A m) by (unfold d_0_01; cbn [Dec.exp]; lia).
  pose proof (mag_ge1_scaled A m HA ltac:(lia) ltac:(lia)) as Hge.
  rewrite (Z.abs_eq (Dec.coef A)) in Hge by assumption.
  unfold d_0_01; cbn [Dec.coef Dec.exp]. rewrite Z.mul_1_l.
  assert (Hlt : 10 ^ (-2 - m) < 10 ^ (- m)) by (apply Z.pow_lt_mono_r; lia).
  assert (Hc : 10 ^ (-2 - m) < Dec.coef A * 10 ^ (Dec.exp A - m)) by lia.
  apply Z.compare_lt_iff in Hc. rewrite Hc. reflexivity.
Qed.

(** ** Activity construction with weights *)

Lemma validate_amount_cases (x : Decimal) :
  validate_amount x = Ok tt \/ validate_amount x = Raise ValidationError.
Proof. unfold validate_amount. destruct (Dec.ltb x Dec.zero); auto. Qed.

Lemma validate_amounts_cases {K : Type} (l : list (K * Decimal)) :
  validate_amounts l = Ok tt \/ validate_amounts l = Raise ValidationError.
Proof.
  induction l as [|[k x] l IH]; simpl; [auto|].
  destruct (validate_amount_cases x) as [-> | ->]; simpl; auto.
Qed.

Lemma check_payer_cases (a : Activity.t) :
  Activity.check_payer a = Ok tt \/ Activity.check_payer a = Raise ValidationError.
Proof.
  unfold Activity.check_payer. destruct (Activity.payer a) as [p|[|x l]]; auto.
  destruct (Dec.gtb _ _); auto. apply validate_amounts_cases.
Qed.

(** [post_init] either raises ValidationError before looking at the
    strategy, or is what [check_strategy] returns. *)
Lemma post_init_cases (a : Activity.t) :
  Activity.post_init a = Raise ValidationError \/
  Activity.post_init a = Activity.check_strategy a.
Proof.
  unfold Activity.post_init.
  destruct (validate_amount_cases (Activity.amount a)) as [-> | ->]; simpl; auto.
  destruct (blank (Activity.description a)); auto.
  destruct (Activity.participants a); auto.
  destruct (check_payer_cases a) as [-> | ->]; simpl; auto.
Qed.

Lemma div_total (a b : Decimal) : Dec.coef b <> 0 -> exists q, Dec.div a b = Ok q.
Proof.
  intros Hb. unfold Dec.div.
  destruct (Z.eqb_spec (Dec.coef b) 0); [contradiction|].
  destruct (Dec.coef a =? 0); [eauto|].
  destruct (if 0 <=? _ then _ else _) as [q r].
  destruct (r =? 0); eauto.
Qed.

Lemma dict_map_items_div (s : Decimal) (ws : Dict Decimal) :
  Dec.coef s <> 0 ->
  exists ws', dict_map_items (fun w => Dec.div w s) ws = Ok ws' /\ divided_by s ws ws'.
Proof.
  intros Hs. induction ws as [|[k w] ws (ws' & IH & HF)]; simpl.
  - exists []. split; [reflexivity|constructor].
  - destruct (div_total w s Hs) as (q & Hq). rewrite Hq, IH. simpl.
    exists ((k, q) :: ws'). split; [reflexivity|]. constructor; auto.
Qed.

Lemma dict_get_mem {V : Type} (d : Dict V) (k : Person.t) (v : V) :
  dict_get d k = Ok v -> dict_mem d k = true.
Proof.
  induction d as [|[k' v'] d IH]; simpl; [discriminate|].
  destruct (Person.eqb k k'); simpl; auto.
Qed.

(** C6, as the code has it. For a WEIGHTED activity: construction raises
    ValidationError when the weights do not sum to a positive value; a
    successful construction divides each weight by the sum when the sum is
    further than 0.01 from 1.0 and keeps the weights as given otherwise;
    the share of a participant is the amount times the stored weight,
    rounded; and 90 with weights 2 and 1 gives 60.00 and 30.00. *)
Theorem weighted_renormalization :
  (forall a : Activity.t, Activity.split_strategy a = WEIGHTED ->
     (~ dlt Dec.zero (weight_sum a) -> Activity.post_init a = Raise ValidationError) /\
     (forall a', Activity.post_init a = Ok a' ->
        dlt Dec.zero (weight_sum a) /\
        Activity.amount a' = Activity.amount a /\
        if far_from_1 a
        then exists ws', Activity.weights a' = Some ws' /\
                         divided_by (weight_sum a) (weights_of a) ws'
        else Activity.weights a' = Activity.weights a)) /\
  (forall (a : Activity.t) (ws : Dict Decimal) (p : Person.t) (w : Decimal),
     Activity.weights a = Some ws -> dict_get ws p = Ok w ->
     compute_weighted_share a p = round_money (Dec.mul (Activity.amount a) w) 2) /\
  (exists a', Activity.post_init museum = Ok a' /\
     compute_weighted_share a' bob = Ok (Dec.mkDec 6000 (-2)) /\
     compute_weighted_share a' carol = Ok (Dec.mkDec 3000 (-2))).
Proof.
  split; [|split].
  - intros a Hst.
    assert (Hpos : forall s, dlt Dec.zero s <-> 0 < Dec.coef s).
    { intros s. unfold dlt. rewrite compare_zero_l. apply Z.compare_lt_iff. }
    assert (Hcs : (~ dlt Dec.zero (weight_sum a) ->
                   Activity.check_strategy a = Raise ValidationError) /\
                  (forall a', Activity.check_strategy a = Ok a' ->
                     dlt Dec.zero (weight_sum a) /\
                     Activity.amount a' = Activity.amount a /\
                     if far_from_1 a
                     then exists ws', Activity.weights a' = Some ws' /\
                                      divided_by (weight_sum a) (weights_of a) ws'
                     else Activity.weights a' = Activity.weights a)).
    { unfold Activity.check_strategy. rewrite Hst.
      destruct (truthy (Activity.weights a)); simpl;
        [|split; [reflexivity|discriminate]].
      fold (weights_of a). fold (weight_sum a). fold (far_from_1 a).
      destruct (far_from_1 a) eqn:Hfar.
      - unfold Dec.gtb, Dec.ltb. rewrite compare_zero_l.
        destruct (Z.compare_spec 0 (Dec.coef (weight_sum a))) as [E|Hlt|Hgt].
        + split; [reflexivity|discriminate].
        + destruct (dict_map_items_div (weight_sum a) (weights_of a) ltac:(lia))
            as (ws' & -> & Hdiv). simpl.
          split; [intros Hn; exfalso; apply Hn, Hpos; exact Hlt|].
          intros a' Ha'. inversion Ha'; subst a'. split; [apply Hpos; exact Hlt|].
          split; [reflexivity|]. exists ws'. split; [reflexivity|exact Hdiv].
        + split; [reflexivity|discriminate].
      - assert (Hgt : 0 < Dec.coef (weight_sum a)).
        { destruct (Z_lt_le_dec 0 (Dec.coef (weight_sum a))) as [|Hle]; [assumption|].
          pose proof (far_from_one _ Hle) as Hf. unfold far_from_1 in Hfar. congruence. }
        split; [intros Hn; exfalso; apply Hn, Hpos; exact Hgt|].
        intros a' Ha'. inversion Ha'; subst a'. split; [apply Hpos; exact Hgt|].
        split; reflexivity. }
    destruct Hcs as [Hfail Hok].
    destruct (post_init_cases a) as [E|E]; rewrite E.
    + split; [reflexivity|discriminate].
    + split; assumption.
  - intros a ws p w Hw Hg. unfold compute_weighted_share. rewrite Hw.
    destruct ws as [|x ws]; [discriminate|].
    rewrite (dict_get_mem _ _ _ Hg), Hg. reflexivity.
  - eexists. split; [vm_compute; reflexivity|]. split; vm_compute; reflexivity.
Qed.

Lemma weighted_renormalization_witness :
  Activity.split_strategy museum = WEIGHTED /\
  Activity.post_init museum = Ok museum_validated /\
  dlt Dec.zero (weight_sum museum) /\
  Activity.amount museum_validated = Activity.amount museum /\
  if far_from_1 museum
  then exists ws', Activity.weights museum_validated = Some ws' /\
                   divided_by (weight_sum museum) (weights_of museum) ws'
  else Activity.weights museum_validated = Activity.weights museum.
Proof.
  split; [reflexivity|]. split; [reflexivity|].
  apply (proj2 (proj1 weighted_renormalization museum eq_refl) museum_validated).
  reflexivity.
Defined.

(** C6 as stated fails: weights 0.5 and 0.505 sum to 1.005, within 0.01
    of 1.0, and are kept as given. Carol's share of 100 is then 50.50;
    with her weight divided by the sum it would be 50.25. *)
Lemma weights_near_one_kept :
  weight_sum near_one = Dec.mkDec 1005 (-3) /\
  Activity.post_init near_one = Ok near_one /\
  compute_weighted_share near_one carol = Ok (Dec.mkDec 5050 (-2)) /\
  (exists w, Dec.div (Dec.mkDec 505 (-3)) (weight_sum near_one) = Ok w /\
             w <> Dec.mkDec 505 (-3) /\
             round_money (Dec.mul (Activity.amount near_one) w) 2 = Ok (Dec.mkDec 5025 (-2))).
Proof.
  split; [reflexivity|]. split; [reflexivity|]. split; [reflexivity|].
  eexists. split; [vm_compute; reflexivity|]. split; [discriminate|reflexivity].
Qed.

(** ** Dicts *)

Lemma dict_get_set_same {V : Type} (d : Dict V) (k : Person.t) (v : V) :
  dict_get (dict_set d k v) k = Ok v.
Proof.
  induction d as [|[k' v'] d IH]; simpl.
  - rewrite Person_eqb_refl. reflexivity.
  - destruct (Person.eqb k k') eqn:E; simpl; rewrite E; auto.
Qed.

Lemma dict_get_set_other {V : Type} (d : Dict V) (k k0 : Person.t) (v : V) :
  k0 <> k -> dict_get (dict_set d k v) k0 = dict_get d k0.
Proof.
  intros Hne. induction d as [|[k' v'] d IH]; simpl.
  - destruct (Person_eqb_spec k0 k); [contradiction|reflexivity].
  - destruct (Person_eqb_spec k k') as [->|Hk]; simpl.
    + destruct (Person_eqb_spec k0 k'); [contradiction|reflexivity].
    + destruct (Person.eqb k0 k'); auto.
Qed.

Lemma dict_mem_set {V : Type} (d : Dict V) (k k0 : Person.t) (v : V) :
  dict_mem (dict_set d k v) k0 = Person.eqb k0 k || dict_mem d k0.
Proof.
  induction d as [|[k' v'] d IH]; simpl.
  - rewrite orb_false_r. reflexivity.
  - destruct (Person_eqb_spec k k') as [->|Hk]; simpl.
    + destruct (Person.eqb k0 k'); reflexivity.
    + rewrite IH. destruct (Person.eqb k0 k'), (Person.eqb k0 k); reflexivity.
Qed.

Lemma dict_mem_In {V : Type} (d : Dict V) (k : Person.t) :
  dict_mem d k = true <-> In k (dict_keys d).
Proof.
  induction d as [|[k' v'] d IH]; simpl; [split; [discriminate|tauto]|].
  destruct (Person_eqb_spec k k') as [->|Hk]; simpl.
  - split; auto.
  - rewrite IH. split; [auto|]. intros [E|H]; [congruence|assumption].
Qed.

Lemma zero_dict_get (people : list Person.t) (p : Person.t) :
  In p people -> dict_get (zero_dict people) p = Ok Dec.zero.
Proof.
  unfold zero_dict.
  assert (G : forall d, (In p people \/ dict_get d p = Ok Dec.zero) ->
            dict_get (fold_left (fun d p => dict_set d p Dec.zero) people d) p = Ok Dec.zero).
  { induction people as [|q people IH]; intros d H; simpl.
    - destruct H as [[]|H]; exact H.
    - apply IH. destruct H as [[->|H]|H].
      + right. apply dict_get_set_same.
      + left. exact H.
      + right. destruct (Person_eqb_spec p q) as [->|Hne].
        * apply dict_get_set_same.
        * rewrite dict_get_set_other by assumption. exact H. }
  intros H. apply G. left. exact H.
Qed.

(** ** People outside an activity keep their entries *)

Lemma subtract_shares_frame (p : Person.t) (shares : list (Person.t * Decimal)) :
  forall b b', subtract_shares b shares = Ok b' -> ~ In p (map fst shares) ->
    dict_get b' p = dict_get b p.
Proof.
  induction shares as [|[q s] shares IH]; intros b b' H Hn; simpl in *.
  - inversion H; reflexivity.
  - apply bind_Ok in H. destruct H as (v & _ & H).
    rewrite (IH _ _ H) by tauto. apply dict_get_set_other. intros E. apply Hn. auto.
Qed.

Lemma add_amounts_frame (p : Person.t) (l : list (Person.t * Decimal)) :
  forall b b', add_amounts b l = Ok b' -> ~ In p (map fst l) ->
    dict_get b' p = dict_get b p.
Proof.
  induction l as [|[q s] l IH]; intros b b' H Hn; simpl in *.
  - inversion H; reflexivity.
  - apply bind_Ok in H. destruct H as (v & _ & H).
    rewrite (IH _ _ H) by tauto. apply dict_get_set_other. intros E. apply Hn. auto.
Qed.

Lemma all_shares_loop_keys (a : Activity.t) (p : Person.t) (ps : list Person.t) :
  forall acc shares, all_shares_loop a ps acc = Ok shares ->
    In p (dict_keys shares) -> In p ps \/ In p (dict_keys acc).
Proof.
  induction ps as [|q ps IH]; intros acc shares H Hin; simpl in *.
  - inversion H; subst. auto.
  - apply bind_Ok in H. destruct H as (s & _ & H).
    destruct (IH _ _ H Hin) as [H1|H1]; [auto|].
    apply dict_mem_In in H1. rewrite dict_mem_set in H1.
    destruct (Person_eqb_spec p q) as [->|Hne]; [auto|].
    right. apply dict_mem_In. exact H1.
Qed.

Lemma compute_all_shares_keys (a : Activity.t) (p : Person.t) (shares : Dict Decimal) :
  compute_all_shares a = Ok shares -> In p (dict_keys shares) ->
  In p (Activity.participants a).
Proof.
  intros H Hin. destruct (all_shares_loop_keys a p _ _ _ H Hin) as [H1|[]]. exact H1.
Qed.

Lemma balances_loop_frame (p : Person.t) (activities : list Activity.t) :
  forall b b', balances_loop activities b = Ok b' ->
    (forall a, In a activities ->
       ~ In p (Activity.participants a) /\ ~ In p (map fst (Activity.get_payers a))) ->
    dict_get b' p = dict_get b p.
Proof.
  induction activities as [|a activities IH]; intros b b' H Hun; simpl in *.
  - inversion H; reflexivity.
  - apply bind_Ok in H. destruct H as (shares & Hs & H).
    apply bind_Ok in H. destruct H as (b1 & H1 & H).
    apply bind_Ok in H. destruct H as (b2 & H2 & H).
    destruct (Hun a (or_introl eq_refl)) as [Hp Hq].
    rewrite (IH _ _ H) by (intros; apply Hun; auto).
    rewrite (add_amounts_frame p _ _ _ H2 Hq).
    apply (subtract_shares_frame p _ _ _ H1).
    intros Hin. apply Hp. eapply compute_all_shares_keys; eauto.
Qed.

Lemma paid_owed_loop_frame (p : Person.t) (activities : list Activity.t) :
  forall pd od pd' od', paid_owed_loop activities pd od = Ok (pd', od') ->
    (forall a, In a activities ->
       ~ In p (Activity.participants a) /\ ~ In p (map fst (Activity.get_payers a))) ->
    dict_get pd' p = dict_get pd p /\ dict_get od' p = dict_get od p.
Proof.
  induction activities as [|a activities IH]; intros pd od pd' od' H Hun; simpl in *.
  - inversion H; auto.
  - apply bind_Ok in H. destruct H as (pd1 & H1 & H).
    apply bind_Ok in H. destruct H as (shares & Hs & H).
    apply bind_Ok in H. destruct H as (od1 & H2 & H).
    destruct (Hun a (or_introl eq_refl)) as [Hp Hq].
    destruct (IH _ _ _ _ H) as [E1 E2]; [intros; apply Hun; auto|].
    rewrite E1, E2. split.
    + apply (add_amounts_frame p _ _ _ H1 Hq).
    + apply (add_amounts_frame p _ _ _ H2).
      intros Hin. apply Hp. eapply compute_all_shares_keys; eauto.
Qed.

Lemma dict_map_items_get {V W : Type} (f : V -> outcome W) (d : Dict V) (p : Person.t) :
  forall d' v w, dict_map_items f d = Ok d' -> dict_get d p = Ok v -> f v = Ok w ->
    dict_get d' p = Ok w.
Proof.
  induction d as [|[k x] d IH]; intros d' v w H Hg Hf; simpl in *; [discriminate|].
  apply bind_Ok in H. destruct H as (w0 & Hw0 & H).
  apply bind_Ok in H. destruct H as (r & Hr & H). inversion H; subst d'. simpl.
  destruct (Person.eqb p k).
  - inversion Hg; subst. congruence.
  - eapply IH; eauto.
Qed.

(** ** Sorting *)

Lemma insert_by_perm {A K : Type} `{Ord K} (key : A -> K) (x : A) (l : list A) :
  Permutation (insert_by key x l) (x :: l).
Proof.
  induction l as [|y l IH]; simpl; [reflexivity|].
  destruct (key_lt (key y) (key x)); [|reflexivity].
  rewrite IH. apply perm_swap.
Qed.

Lemma sort_by_perm {A K : Type} `{Ord K} (key : A -> K) (l : list A) :
  Permutation (sort_by key l) l.
Proof.
  induction l as [|x l IH]; simpl; [reflexivity|].
  rewrite insert_by_perm. constructor. exact IH.
Qed.

Lemma sort_by_In {A K : Type} `{Ord K} (key : A -> K) (l : list A) (x : A) :
  In x (sort_by key l) <-> In x l.
Proof.
  split; apply Permutation_in; [|symmetry]; apply sort_by_perm.
Qed.

(** ** The uninvolved person *)

Lemma round_money_zero : round_money Dec.zero 2 = Ok d_0_00.
Proof. reflexivity. Qed.

Lemma ensure_zero_sum_exact (b : Dict Decimal) :
  deq (Dec.sum (dict_values b)) Dec.zero -> ensure_zero_sum b d_0_02 = Ok b.
Proof.
  unfold deq. rewrite compare_zero_r. intros Hz. apply Z.compare_eq_iff in Hz.
  unfold ensure_zero_sum. set (total := Dec.sum (dict_values b)) in *.
  assert (Habs : Dec.abs total = Dec.mkDec 0 (Dec.exp total)).
  { unfold Dec.abs. rewrite Hz. apply fix_fits. unfold fits. reflexivity. }
  assert (Hle : Dec.leb (Dec.abs total) d_0_02 = true).
  { rewrite Habs. unfold Dec.leb, Dec.compare, d_0_02; cbn [Dec.coef Dec.exp].
    rewrite Z.mul_0_l.
    assert (0 < 10 ^ (-2 - Z.min (Dec.exp total) (-2))) by (apply pow10_pos; lia).
    destruct (Z.compare_spec 0 (2 * 10 ^ (-2 - Z.min (Dec.exp total) (-2)))); try reflexivity; lia. }
  rewrite Hle.
  assert (He : Dec.eqb total Dec.zero = true).
  { unfold Dec.eqb. rewrite compare_zero_r, Hz. reflexivity. }
  rewrite He. reflexivity.
Qed.

Lemma summary_loop_get (p : Person.t) (pd od bal : Dict Decimal) (row : SummaryRow) :
  dict_get pd p = Ok Dec.zero -> dict_get od p = Ok Dec.zero ->
  dict_get bal p = Ok (net row) -> paid row = d_0_00 -> owed row = d_0_00 ->
  forall people acc s, summary_loop people pd od bal acc = Ok s ->
    In p people \/ dict_get acc p = Ok row ->
    dict_get s p = Ok row.
Proof.
  intros Hp Ho Hb Hrp Hro. induction people as [|q people IH]; intros acc s H Hin.
  - simpl in H. inversion H; subst. destruct Hin as [[]|Hin]. exact Hin.
  - simpl in H.
    apply bind_Ok in H. destruct H as (x1 & H1 & H).
    apply bind_Ok in H. destruct H as (x2 & H2 & H).
    apply bind_Ok in H. destruct H as (x3 & H3 & H).
    apply bind_Ok in H. destruct H as (x4 & H4 & H).
    apply bind_Ok in H. destruct H as (x5 & H5 & H).
    apply (IH _ _ H).
    destruct (Person_eqb_spec p q) as [<-|Hne].
    + right. rewrite Hp in H1. inversion H1; subst x1.
      rewrite Ho in H3. inversion H3; subst x3.
      rewrite round_money_zero in H2, H4. inversion H2; inversion H4; subst.
      rewrite Hb in H5. inversion H5; subst.
      rewrite dict_get_set_same. destruct row; simpl in *; congruence.
    + destruct Hin as [[E|Hin]|Hin]; [congruence|auto|].
      right. rewrite dict_get_set_other by assumption. exact Hin.
Qed.

(** C8, as the code has it. A person of the Event who is in no activity
    has net balance exactly 0.00 from [compute_net_balances] when the
    rounded balances sum to exactly zero, so that no remainder is
    distributed; in the settlement summary such a person always has paid
    0.00 and owed 0.00, and as net the balance that was passed in. *)
Theorem uninvolved_person (event : Event.t) (p : Person.t) :
  In p (Event.people event) -> uninvolved event p ->
  (forall rb, rounded_balances event = Ok rb ->
     deq (Dec.sum (dict_values rb)) Dec.zero ->
     compute_net_balances event = Ok rb /\ dict_get rb p = Ok d_0_00) /\
  (forall balances n summary,
     dict_get balances p = Ok n ->
     compute_settlement_summary event balances = Ok summary ->
     dict_get summary p = Ok (mkRow d_0_00 d_0_00 n)).
Proof.
  intros Hin Hun. split.
  - intros rb Hrb Hsum. unfold compute_net_balances. rewrite Hrb. simpl.
    split; [apply ensure_zero_sum_exact; exact Hsum|].
    unfold rounded_balances in Hrb.
    apply bind_Ok in Hrb. destruct Hrb as (b & Hb & Hrb).
    eapply dict_map_items_get; [exact Hrb| |exact round_money_zero].
    rewrite (balances_loop_frame p _ _ _ Hb Hun).
    apply zero_dict_get. exact Hin.
  - intros balances n summary Hn Hs. unfold compute_settlement_summary in Hs.
    apply bind_Ok in Hs. destruct Hs as ([pd od] & Hpo & Hs).
    destruct (paid_owed_loop_frame p _ _ _ _ _ Hpo Hun) as [E1 E2].
    rewrite zero_dict_get in E1, E2 by assumption.
    eapply (summary_loop_get p pd od balances (mkRow d_0_00 d_0_00 n));
      try reflexivity; try eassumption.
    left. apply sort_by_In. exact Hin.
Qed.

Lemma carol_uninvolved : uninvolved carol_absent_event carol.
Proof.
  intros a [<-|[]]. split; simpl.
  - intros [E|[E|[]]]; discriminate.
  - intros [E|[]]; discriminate.
Defined.

Lemma uninvolved_person_witness :
  In carol (Event.people carol_absent_event) /\
  uninvolved carol_absent_event carol /\
  rounded_balances carol_absent_event = Ok carol_absent_balances /\
  deq (Dec.sum (dict_values carol_absent_balances)) Dec.zero /\
  compute_net_balances carol_absent_event = Ok carol_absent_balances /\
  dict_get carol_absent_balances carol = Ok d_0_00.
Proof.
  split; [simpl; auto|]. split; [exact carol_uninvolved|].
  split; [reflexivity|]. split; [reflexivity|].
  apply (proj1 (uninvolved_person carol_absent_event carol
                  (or_intror (or_intror (or_introl eq_refl))) carol_uninvolved)
           carol_absent_balances); reflexivity.
Defined.

(** C8 as stated fails: with Dave added to the three diners of the 100
    dinner, the rounded balances sum to 0.01 and the remainder goes to the
    smallest absolute balance, Dave's: his net balance is 0.01. *)
Lemma uninvolved_gets_remainder :
  In dave (Event.people (dinner_event [alice; bob; carol; dave])) /\
  uninvolved (dinner_event [alice; bob; carol; dave]) dave /\
  (exists a, fst (Event.add_activity (event0 [alice; bob; carol; dave]) "Dinner"
                    (Dec.of_Z 100) (Single alice) [alice; bob; carol] "EQUAL"
                    None None 10) = Ok a) /\
  exists b, compute_net_balances (dinner_event [alice; bob; carol; dave]) = Ok b /\
    dict_get b dave = Ok d_0_01 /\
    exists s, compute_settlement_summary (dinner_event [alice; bob; carol; dave]) b = Ok s /\
      dict_get s dave = Ok (mkRow d_0_00 d_0_00 d_0_01).
Proof.
  split; [simpl; auto|]. split.
  { intros a [<-|[]]. split; simpl.
    - intros [E|[E|[E|[]]]]; discriminate.
    - intros [E|[]]; discriminate. }
  split; [eexists; vm_compute; reflexivity|].
  eexists. split; [vm_compute; reflexivity|]. split; [reflexivity|].
  eexists. split; [vm_compute; reflexivity|]. reflexivity.
Qed.

(** ** The store: what a call leaves untouched *)

Lemma store_update_length (s : Store) (r : ref) (d : Dict Decimal) :
  List.length (store_update s r d) = List.length s.
Proof.
  revert r; induction s as [|x s IH]; intros [|r]; simpl; auto.
Qed.

Lemma store_update_firstn (s : Store) (r : ref) (d : Dict Decimal) (n : nat) :
  (n <= r)%nat -> firstn n (store_update s r d) = firstn n s.
Proof.
  revert r n; induction s as [|x s IH]; intros [|r] [|n] H; simpl; auto; try lia.
  f_equal. apply IH. lia.
Qed.

Lemma deref_store_update (s : Store) (r : ref) (d : Dict Decimal) :
  (r < List.length s)%nat -> deref (store_update s r d) r = d.
Proof.
  unfold deref. revert r; induction s as [|x s IH]; intros [|r] H; simpl in *; try lia; auto.
  apply IH. lia.
Qed.

Lemma preserves_ret {A : Type} (n : nat) (a : A) (Q : A -> Prop) :
  Q a -> preserves n (ret a) Q.
Proof. intros HQ s Hs; simpl. repeat split; auto. intros b E; inversion E; subst; auto. Qed.

Lemma preserves_lift {A : Type} (n : nat) (o : outcome A) :
  preserves n (lift o) (fun _ => True).
Proof. intros s Hs; simpl. auto. Qed.

Lemma preserves_items (n : nat) (r : ref) : preserves n (items r) (fun _ => True).
Proof. intros s Hs; simpl. auto. Qed.

Lemma preserves_getitem (n : nat) (r : ref) (k : Person.t) :
  preserves n (getitem r k) (fun _ => True).
Proof. intros s Hs; simpl. auto. Qed.

Lemma preserves_copy (n : nat) (r : ref) : preserves n (copy r) (fun r' => (n <= r')%nat).
Proof.
  intros s Hs; simpl. rewrite length_app; simpl. split; [lia|]. split.
  - rewrite firstn_app. replace (n - List.length s)%nat with 0%nat by lia.
    simpl. apply app_nil_r.
  - intros a E; inversion E; subst; lia.
Qed.

Lemma preserves_setitem (n : nat) (r : ref) (k : Person.t) (v : Decimal) :
  (n <= r)%nat -> preserves n (setitem r k v) (fun _ => True).
Proof.
  intros Hr s Hs; simpl. rewrite store_update_length. split; [lia|]. split; [|auto].
  apply store_update_firstn; assumption.
Qed.

Lemma preserves_bind {A B : Type} (n : nat) (m : M A) (k : A -> M B)
    (Q : A -> Prop) (R : B -> Prop) :
  preserves n m Q -> (forall a, Q a -> preserves n (k a) R) ->
  preserves n (bindM m k) R.
Proof.
  intros Hm Hk s Hs. unfold bindM.
  destruct (Hm s Hs) as (H1 & H2 & H3).
  destruct (m s) as [[a|e|] s'] eqn:E; simpl in *.
  - destruct (Hk a (H3 a eq_refl) s' H1) as (K1 & K2 & K3).
    split; [exact K1|]. split; [congruence|exact K3].
  - split; [exact H1|]. split; [exact H2|discriminate].
  - split; [exact H1|]. split; [exact H2|discriminate].
Qed.

Lemma preserves_weaken {A : Type} (n : nat) (m : M A) (Q R : A -> Prop) :
  preserves n m Q -> (forall a, Q a -> R a) -> preserves n m R.
Proof.
  intros Hm HQR s Hs. destruct (Hm s Hs) as (H1 & H2 & H3). auto.
Qed.

Create HintDb frame.

#[local] Hint Resolve preserves_lift preserves_items preserves_getitem
  preserves_copy preserves_setitem : frame.

Ltac frame_step :=
  first
    [ eapply preserves_bind; [solve [eauto with frame]|intros ? ?]
    | eapply preserves_weaken; [solve [eauto with frame]|auto]
    | apply preserves_ret; auto ].

Lemma preserves_distribute_loop (n : nat) (adjusted : ref) (increment : Decimal) :
  (n <= adjusted)%nat ->
  forall people rem, preserves n (Imp.distribute_loop people adjusted rem increment)
                       (fun _ => True).
Proof.
  intros Hr. induction people as [|p people IH]; intros rem; simpl.
  - apply preserves_ret; auto.
  - destruct (Dec.eqb rem Dec.zero); [apply preserves_ret; auto|].
    do 2 frame_step. apply IH.
Qed.

Lemma preserves_distribute_remainder (n : nat) (balances : ref) (rem tol : Decimal) :
  preserves n (Imp.distribute_remainder balances rem tol) (fun r => (n <= r)%nat).
Proof.
  unfold Imp.distribute_remainder.
  destruct (Dec.gtb (Dec.abs rem) tol).
  { intros s Hs; simpl. repeat split; auto; discriminate. }
  destruct (Dec.eqb rem Dec.zero); [apply preserves_copy|].
  do 2 frame_step.
  eapply preserves_bind; [apply preserves_distribute_loop; assumption|intros ? _].
  apply preserves_ret; assumption.
Qed.

Lemma preserves_ensure_zero_sum (n : nat) (balances : ref) (tol : Decimal) :
  preserves n (Imp.ensure_zero_sum balances tol) (fun r => (n <= r)%nat).
Proof.
  unfold Imp.ensure_zero_sum. frame_step.
  destruct (Dec.leb _ tol).
  - destruct (negb _); [apply preserves_distribute_remainder|apply preserves_copy].
  - intros s Hs; simpl. repeat split; auto; discriminate.
Qed.

Lemma preserves_greedy_loop (n : nat) (wb : ref) (tol : Decimal) :
  (n <= wb)%nat ->
  forall fuel transfers, preserves n (Imp.greedy_loop fuel wb tol transfers) (fun _ => True).
Proof.
  intros Hr. induction fuel as [|fuel IH]; intros transfers; simpl.
  - apply preserves_lift.
  - frame_step.
    destruct (creditors_of a tol); [apply preserves_ret; auto|].
    destruct (debtors_of a tol); [apply preserves_ret; auto|].
    destruct (sort_by creditor_key _) as [|[cp cb] ?]; [apply preserves_ret; auto|].
    destruct (sort_by debtor_key _) as [|[dp db] ?]; [apply preserves_ret; auto|].
    do 12 frame_step. apply IH.
Qed.

Lemma preserves_compute_minimal_transfers (n : nat) (fuel : nat) (balances : ref)
    (tol : Decimal) :
  preserves n (Imp.compute_minimal_transfers fuel balances tol) (fun _ => True).
Proof.
  unfold Imp.compute_minimal_transfers. frame_step.
  eapply preserves_bind; [apply preserves_greedy_loop; assumption|intros ? _].
  frame_step. destruct (exceeds tol _); [apply preserves_lift|apply preserves_ret; auto].
Qed.

Lemma preserves_deref {A : Type} (m : M A) (Q : A -> Prop) (s : Store) (r : ref) :
  preserves (List.length s) m Q -> (r < List.length s)%nat ->
  deref (snd (m s)) r = deref s r.
Proof.
  intros Hm Hr. destruct (Hm s (le_n _)) as (H1 & H2 & _).
  rewrite firstn_all in H2. unfold deref.
  rewrite <- (firstn_skipn (List.length s) (snd (m s))), H2.
  apply app_nth1. exact Hr.
Qed.

(** C9. None of [compute_minimal_transfers], [ensure_zero_sum] and
    [distribute_remainder] changes a dict object that exists when it is
    called, the caller's balances among them: after the call, normal or
    raising, every object of the store holds the items it held before. *)
Theorem input_mapping_not_mutated (s : Store) (balances r : ref) :
  (r < List.length s)%nat ->
  (forall fuel tolerance,
     deref (snd (Imp.compute_minimal_transfers fuel balances tolerance s)) r = deref s r) /\
  (forall tolerance,
     deref (snd (Imp.ensure_zero_sum balances tolerance s)) r = deref s r) /\
  (forall remainder tolerance,
     deref (snd (Imp.distribute_remainder balances remainder tolerance s)) r = deref s r).
Proof.
  intros Hr. split; [|split]; intros.
  - eapply preserves_deref; [apply preserves_compute_minimal_transfers|exact Hr].
  - eapply preserves_deref; [apply preserves_ensure_zero_sum|exact Hr].
  - eapply preserves_deref; [apply preserves_distribute_remainder|exact Hr].
Qed.

Lemma input_mapping_not_mutated_witness :
  (0 < List.length [small_remainder_balances])%nat /\
  deref (snd (Imp.ensure_zero_sum 0%nat d_0_02 [small_remainder_balances])) 0%nat
    = deref [small_remainder_balances] 0%nat.
Proof.
  split; [simpl; lia|].
  apply (proj1 (proj2 (input_mapping_not_mutated [small_remainder_balances] 0%nat 0%nat
                         (le_n 1)))).
Defined.

(** ** The store: agreement with the functions on dict values *)

Lemma deref_app_new (s : Store) (d : Dict Decimal) : deref (s ++ [d]) (List.length s) = d.
Proof. unfold deref. rewrite app_nth2 by lia. rewrite Nat.sub_diag. reflexivity. Qed.

Lemma distribute_loop_refines (adjusted : ref) (increment : Decimal) :
  forall people s rem, (adjusted < List.length s)%nat ->
    match distribute_loop people (deref s adjusted) rem increment with
    | Ok d' =>
        fst (Imp.distribute_loop people adjusted rem increment s) = Ok tt /\
        deref (snd (Imp.distribute_loop people adjusted rem increment s)) adjusted = d'
    | Raise e => fst (Imp.distribute_loop people adjusted rem increment s) = Raise e
    | Timeout => fst (Imp.distribute_loop people adjusted rem increment s) = Timeout
    end.
Proof.
  induction people as [|p people IH]; intros s rem Hr; simpl.
  - auto.
  - destruct (Dec.eqb rem Dec.zero); [simpl; auto|].
    unfold bindM, getitem, setitem.
    destruct (dict_get (deref s adjusted) p) as [v|e|]; simpl; auto.
    specialize (IH (store_update s adjusted (dict_set (deref s adjusted) p (Dec.add v increment)))
                  (Dec.sub rem increment)).
    rewrite store_update_length in IH. specialize (IH Hr).
    rewrite deref_store_update in IH by assumption. exact IH.
Qed.

Lemma distribute_remainder_refines (s : Store) (balances : ref) (rem tol : Decimal) :
  returns_dict (Imp.distribute_remainder balances rem tol s)
    (distribute_remainder (deref s balances) rem tol).
Proof.
  unfold Imp.distribute_remainder, distribute_remainder.
  destruct (Dec.gtb (Dec.abs rem) tol); [reflexivity|].
  destruct (Dec.eqb rem Dec.zero).
  { simpl. eexists; split; [reflexivity|apply deref_app_new]. }
  unfold bindM at 1 2. unfold items, copy.
  set (inc := if Dec.gtb rem Dec.zero then d_0_01 else d_m0_01).
  pose proof (distribute_loop_refines (List.length s) inc
                (sorted_people (deref s balances)) (s ++ [deref s balances]) rem) as H.
  rewrite length_app in H. simpl in H. specialize (H ltac:(lia)).
  rewrite deref_app_new in H.
  unfold bindM.
  destruct (distribute_loop _ _ _ _) as [d'|e|]; simpl.
  - destruct H as [H1 H2].
    destruct (Imp.distribute_loop _ _ _ _ _) as [[[]|e|] s'] eqn:E; simpl in *; try discriminate.
    eexists; split; [reflexivity|exact H2].
  - destruct (Imp.distribute_loop _ _ _ _ _) as [[[]|e'|] s'] eqn:E; simpl in *;
      try discriminate; congruence.
  - destruct (Imp.distribute_loop _ _ _ _ _) as [[[]|e'|] s'] eqn:E; simpl in *;
      try discriminate; reflexivity.
Qed.

Lemma ensure_zero_sum_refines (s : Store) (balances : ref) (tol : Decimal) :
  returns_dict (Imp.ensure_zero_sum balances tol s)
    (ensure_zero_sum (deref s balances) tol).
Proof.
  unfold Imp.ensure_zero_sum, ensure_zero_sum, bindM, items.
  destruct (Dec.leb _ tol); [|reflexivity].
  destruct (negb _); [apply distribute_remainder_refines|].
  simpl. eexists; split; [reflexivity|apply deref_app_new].
Qed.

Lemma greedy_loop_refines (wb : ref) (tol : Decimal) :
  forall fuel s transfers, (wb < List.length s)%nat ->
    match greedy_loop fuel (deref s wb) tol transfers with
    | Ok (d', ts) =>
        fst (Imp.greedy_loop fuel wb tol transfers s) = Ok ts /\
        deref (snd (Imp.greedy_loop fuel wb tol transfers s)) wb = d'
    | Raise e => fst (Imp.greedy_loop fuel wb tol transfers s) = Raise e
    | Timeout => fst (Imp.greedy_loop fuel wb tol transfers s) = Timeout
    end.
Proof.
  induction fuel as [|fuel IH]; intros s transfers Hr; [reflexivity|].
  cbn [greedy_loop Imp.greedy_loop]. unfold greedy_step.
  unfold bindM, items, lift, getitem, setitem. cbn beta iota.
  destruct (creditors_of (deref s wb) tol) as [|c0 cs]; [simpl; auto|].
  destruct (debtors_of (deref s wb) tol) as [|d0 ds]; [simpl; auto|].
  destruct (sort_by creditor_key (c0 :: cs)) as [|[cp cb] ?]; [simpl; auto|].
  destruct (sort_by debtor_key (d0 :: ds)) as [|[dp db] ?]; [simpl; auto|].
  destruct (round_money (Dec.min cb (Dec.neg db)) 2) as [amt|e|]; simpl; auto.
  destruct (SettlementTransfer.make dp cp amt) as [t|e|]; simpl; auto.
  destruct (dict_get (deref s wb) cp) as [c|e|]; simpl; auto.
  rewrite ?deref_store_update by (rewrite ?store_update_length; assumption).
  destruct (dict_get _ dp) as [dv|e|]; simpl; auto.
  rewrite ?deref_store_update by (rewrite ?store_update_length; assumption).
  destruct (dict_get _ cp) as [c2|e|]; simpl; auto.
  destruct (round_money c2 2) as [c3|e|]; simpl; auto.
  rewrite ?deref_store_update by (rewrite ?store_update_length; assumption).
  destruct (dict_get _ dp) as [d2v|e|]; simpl; auto.
  destruct (round_money d2v 2) as [d3v|e|]; simpl; auto.
  rewrite ?deref_store_update by (rewrite ?store_update_length; assumption).
  match goal with
  | |- context [Imp.greedy_loop fuel wb tol ?ts ?st] => specialize (IH st ts)
  end.
  rewrite !store_update_length in IH. specialize (IH Hr).
  rewrite ?deref_store_update in IH by (rewrite ?store_update_length; assumption).
  exact IH.
Qed.

Lemma compute_minimal_transfers_refines (s : Store) (fuel : nat) (balances : ref)
    (tol : Decimal) :
  fst (Imp.compute_minimal_transfers fuel balances tol s)
    = compute_minimal_transfers fuel (deref s balances) tol.
Proof.
  unfold Imp.compute_minimal_transfers, compute_minimal_transfers.
  unfold bindM at 1. unfold copy.
  pose proof (greedy_loop_refines (List.length s) tol fuel (s ++ [deref s balances]) [])
    as H.
  rewrite length_app in H; simpl in H. specialize (H ltac:(lia)).
  rewrite deref_app_new in H.
  unfold bindM at 1.
  destruct (greedy_loop fuel (deref s balances) tol []) as [[d' ts]|e|]; simpl.
  - destruct H as [H1 H2].
    destruct (Imp.greedy_loop _ _ _ _ _) as [[ts'|e|] s'] eqn:E; simpl in *; try discriminate.
    inversion H1; subst ts'. unfold bindM, items. rewrite H2.
    destruct (exceeds tol d'); reflexivity.
  - destruct (Imp.greedy_loop _ _ _ _ _) as [[ts'|e'|] s'] eqn:E; simpl in *;
      try discriminate; congruence.
  - destruct (Imp.greedy_loop _ _ _ _ _) as [[ts'|e'|] s'] eqn:E; simpl in *;
      try discriminate; reflexivity.
Qed.

(** ** Laws of the sort keys *)

Section OrdFacts.
Context {K : Type} `{Ord K} (L : OrdLaws K).

Lemma cmp_refl (x : K) : cmp x x = Eq.
Proof. pose proof (cmp_antisym K L x x) as E. destruct (cmp x x); simpl in E; congruence. Qed.

Lemma cmp_total (x y : K) : cmp y x <> Lt -> cmp x y <> Gt.
Proof. rewrite (cmp_antisym K L x y). destruct (cmp y x); simpl; congruence. Qed.

Lemma cmp_lt_le (x y : K) : cmp x y = Lt -> cmp x y <> Gt.
Proof. congruence. Qed.

Lemma cmp_lt_le_trans (x y z : K) : cmp x y = Lt -> cmp y z <> Gt -> cmp x z = Lt.
Proof.
  intros Hxy Hyz.
  assert (Hxz : cmp x z <> Gt) by (apply (cmp_le_trans K L x y z); congruence).
  destruct (cmp x z) eqn:E; try congruence. exfalso.
  assert (Hzx : cmp z x <> Gt).
  { rewrite (cmp_antisym K L), E. simpl. congruence. }
  pose proof (cmp_le_trans K L y z x Hyz Hzx) as Hyx.
  rewrite (cmp_antisym K L), Hxy in Hyx. simpl in Hyx. congruence.
Qed.

Lemma cmp_le_lt_trans (x y z : K) : cmp x y <> Gt -> cmp y z = Lt -> cmp x z = Lt.
Proof.
  intros Hxy Hyz.
  assert (Hxz : cmp x z <> Gt) by (apply (cmp_le_trans K L x y z); congruence).
  destruct (cmp x z) eqn:E; try congruence. exfalso.
  assert (Hzx : cmp z x <> Gt).
  { rewrite (cmp_antisym K L), E. simpl. congruence. }
  pose proof (cmp_le_trans K L z x y Hzx Hxy) as Hzy.
  rewrite (cmp_antisym K L), Hyz in Hzy. simpl in Hzy. congruence.
Qed.

Lemma cmp_eq_trans (x y z : K) : cmp x y = Eq -> cmp y z = Eq -> cmp x z = Eq.
Proof.
  intros Hxy Hyz.
  assert (Hxz : cmp x z <> Gt) by (apply (cmp_le_trans K L x y z); congruence).
  assert (Hzx : cmp z x <> Gt).
  { apply (cmp_le_trans K L z y x); rewrite (cmp_antisym K L);
      [rewrite Hyz|rewrite Hxy]; simpl; congruence. }
  rewrite (cmp_antisym K L z x) in Hzx.
  destruct (cmp x z); simpl in *; congruence.
Qed.
End OrdFacts.

Lemma OrdLaws_Decimal : OrdLaws Decimal.
Proof.
  split.
  - exact compare_antisym.
  - exact compare_le_trans.
Qed.

Lemma OrdLaws_N : OrdLaws N.
Proof.
  split; simpl.
  - intros x y. apply N.compare_antisym.
  - intros x y z. rewrite !N.compare_le_iff. lia.
Qed.

Lemma OrdLaws_pair {A B : Type} `{Ord A} `{Ord B} :
  OrdLaws A -> OrdLaws B -> OrdLaws (A * B).
Proof.
  intros LA LB. split.
  - intros [a1 b1] [a2 b2]; simpl.
    rewrite (cmp_antisym A LA a1 a2), (cmp_antisym B LB b1 b2).
    destruct (cmp a2 a1); reflexivity.
  - intros [a1 b1] [a2 b2] [a3 b3]; simpl.
    destruct (cmp a1 a2) eqn:E12; try congruence;
      destruct (cmp a2 a3) eqn:E23; try congruence; intros H1 H2.
    + rewrite (cmp_eq_trans LA _ _ _ E12 E23).
      apply (cmp_le_trans B LB b1 b2 b3); assumption.
    + rewrite (cmp_le_lt_trans LA a1 a2 a3) by congruence. congruence.
    + rewrite (cmp_lt_le_trans LA a1 a2 a3) by congruence. congruence.
    + rewrite (cmp_lt_le_trans LA a1 a2 a3) by congruence. congruence.
Qed.

Lemma ascii_compare_antisym (a b : ascii) :
  Ascii.compare a b = CompOpp (Ascii.compare b a).
Proof. apply Ascii.compare_antisym. Qed.

Lemma OrdLaws_string : OrdLaws string.
Proof.
  split; simpl.
  - apply String.compare_antisym.
  - induction x as [|a x IH]; intros [|b y] [|c z]; simpl; try congruence.
    unfold Ascii.compare.
    destruct (N.compare_spec (N_of_ascii a) (N_of_ascii b)) as [E1|L1|G1];
      destruct (N.compare_spec (N_of_ascii b) (N_of_ascii c)) as [E2|L2|G2];
      try congruence; intros H1 H2.
    + rewrite E1, E2, N.compare_refl. apply (IH y z); assumption.
    + rewrite E1. apply N.compare_lt_iff in L2. rewrite L2. congruence.
    + rewrite <- E2. apply N.compare_lt_iff in L1. rewrite L1. congruence.
    + assert (L : (N_of_ascii a < N_of_ascii c)%N) by lia.
      apply N.compare_lt_iff in L. rewrite L. congruence.
Qed.

Lemma OrdLaws_person_key : OrdLaws (string * string).
Proof. apply OrdLaws_pair; apply OrdLaws_string. Qed.

Lemma OrdLaws_balance_key : OrdLaws (Decimal * (string * string)).
Proof. apply OrdLaws_pair; [apply OrdLaws_Decimal|apply OrdLaws_person_key]. Qed.

Lemma OrdLaws_transfer_key : OrdLaws (string * (string * (string * string))).
Proof.
  apply OrdLaws_pair; [apply OrdLaws_string|].
  apply OrdLaws_pair; [apply OrdLaws_string|apply OrdLaws_person_key].
Qed.

(** ** A sort by key sorts *)

Section SortFacts.
Context {A K : Type} `{Ord K} (L : OrdLaws K) (key : A -> K).

Lemma insert_by_sorted (x : A) (l : list A) :
  sorted_by key l -> sorted_by key (insert_by key x l).
Proof.
  unfold sorted_by. induction l as [|y l IH]; intros Hs; simpl.
  - constructor; constructor.
  - inversion Hs as [|? ? Hs' Hall]; subst.
    unfold key_lt. destruct (cmp (key y) (key x)) eqn:E.
    + constructor; [exact Hs|]. constructor.
      * apply (cmp_total L). congruence.
      * eapply Forall_impl; [|exact Hall]. intros z Hz. unfold key_le in *.
        apply (cmp_le_trans K L (key x) (key y) (key z)); [|exact Hz].
        apply (cmp_total L). congruence.
    + constructor; [apply IH; exact Hs'|].
      eapply Permutation_Forall; [symmetry; apply insert_by_perm|].
      constructor; [unfold key_le; congruence|exact Hall].
    + constructor; [exact Hs|]. constructor.
      * apply (cmp_total L). congruence.
      * eapply Forall_impl; [|exact Hall]. intros z Hz. unfold key_le in *.
        apply (cmp_le_trans K L (key x) (key y) (key z)); [|exact Hz].
        apply (cmp_total L). congruence.
Qed.

Lemma sort_by_sorted (l : list A) : sorted_by key (sort_by key l).
Proof.
  induction l as [|x l IH]; simpl; [constructor|].
  apply insert_by_sorted. exact IH.
Qed.

(** The head of a sorted list has the least key of the list. *)
Lemma sort_by_head (l : list A) (h : A) (rest : list A) :
  sort_by key l = h :: rest ->
  In h l /\ forall y, In y l -> key_le (key h) (key y).
Proof.
  intros E. pose proof (sort_by_sorted l) as Hs. rewrite E in Hs.
  assert (Hin : forall y, In y l <-> In y (h :: rest)).
  { intros y. rewrite <- E. symmetry. apply sort_by_In. }
  split; [apply Hin; left; reflexivity|].
  intros y Hy. apply Hin in Hy. inversion Hs as [|? ? _ Hall]; subst.
  destruct Hy as [<-|Hy].
  - unfold key_le. rewrite (cmp_refl L). congruence.
  - rewrite Forall_forall in Hall. apply Hall. exact Hy.
Qed.
End SortFacts.

(** ** Arithmetic on quantized amounts *)

Lemma quantized_eta (x : Decimal) : quantized x -> x = Dec.mkDec (Dec.coef x) (-2).
Proof. intros [He _]. destruct x as [c e]; simpl in *. subst. reflexivity. Qed.

Lemma quantized_mk (c : Z) : Z.abs c < 10 ^ Dec.prec -> quantized (Dec.mkDec c (-2)).
Proof. intros H. split; [reflexivity|exact H]. Qed.

Lemma add_cents (c1 c2 : Z) :
  Z.abs (c1 + c2) < 10 ^ Dec.prec ->
  Dec.add (Dec.mkDec c1 (-2)) (Dec.mkDec c2 (-2)) = Dec.mkDec (c1 + c2) (-2).
Proof.
  intros H. unfold Dec.add, Dec.add_exact; cbn [Dec.coef Dec.exp].
  rewrite Z.min_id, Z.sub_diag. change (10 ^ 0) with 1. rewrite !Z.mul_1_r.
  apply fix_fits. exact H.
Qed.

Lemma sub_cents (c1 c2 : Z) :
  Z.abs (c1 - c2) < 10 ^ Dec.prec ->
  Dec.sub (Dec.mkDec c1 (-2)) (Dec.mkDec c2 (-2)) = Dec.mkDec (c1 - c2) (-2).
Proof.
  intros H. unfold Dec.sub, Dec.sub_exact; cbn [Dec.coef Dec.exp].
  rewrite Z.min_id, Z.sub_diag. change (10 ^ 0) with 1. rewrite !Z.mul_1_r.
  apply fix_fits. exact H.
Qed.

Lemma neg_fits (x : Decimal) : fits x -> Dec.neg x = Dec.mkDec (- Dec.coef x) (Dec.exp x).
Proof.
  intros H. unfold Dec.neg. apply fix_fits. unfold fits in *; cbn [Dec.coef]. lia.
Qed.

Lemma abs_fits (x : Decimal) :
  fits x -> Dec.abs x = Dec.mkDec (Z.abs (Dec.coef x)) (Dec.exp x).
Proof.
  intros H. unfold Dec.abs. apply fix_fits. unfold fits in *; cbn [Dec.coef]. lia.
Qed.

Lemma round_money_quantized (x : Decimal) : quantized x -> round_money x 2 = Ok x.
Proof.
  intros Hq. rewrite (quantized_eta x Hq). destruct Hq as [_ Hf]. unfold fits in Hf.
  set (c := Dec.coef x) in *.
  destruct (round_money_spec (Dec.mkDec c (-2)) 2 ltac:(lia)) as (r & [Hr _] & E).
  cbn [Dec.coef Dec.exp] in Hr. change (- (2)) with (-2) in *.
  rewrite Z.min_id, Z.sub_diag in Hr. change (10 ^ 0) with 1 in Hr.
  assert (r = c) by lia. subst r.
  rewrite E. destruct (Z.ltb_spec (Z.abs c) (10 ^ Dec.prec)); [reflexivity|lia].
Qed.

Lemma round_money_out (x r : Decimal) : round_money x 2 = Ok r -> quantized r.
Proof.
  intros H. destruct (round_money_spec x 2 ltac:(lia)) as (c & _ & E).
  rewrite E in H. destruct (Z.ltb_spec (Z.abs c) (10 ^ Dec.prec)); [|discriminate].
  inversion H; subst. apply quantized_mk. assumption.
Qed.

(** ** More on dicts *)

Lemma dict_get_In {V : Type} (d : Dict V) (k : Person.t) (v : V) :
  dict_wf d -> In (k, v) d -> dict_get d k = Ok v.
Proof.
  unfold dict_wf, dict_keys. induction d as [|[k' v'] d IH]; intros Hwf Hin; simpl in *.
  - contradiction.
  - inversion Hwf as [|? ? Hnin Hwf']; subst.
    destruct Hin as [E|Hin].
    + inversion E; subst. rewrite Person_eqb_refl. reflexivity.
    + destruct (Person_eqb_spec k k') as [->|Hne]; [|auto].
      exfalso. apply Hnin. apply in_map_iff. exists (k', v). auto.
Qed.

Lemma dict_get_In_inv {V : Type} (d : Dict V) (k : Person.t) (v : V) :
  dict_get d k = Ok v -> In (k, v) d.
Proof.
  induction d as [|[k' v'] d IH]; simpl; [discriminate|].
  destruct (Person_eqb_spec k k') as [->|Hne]; intros H.
  - inversion H; subst. auto.
  - auto.
Qed.

Lemma dict_set_id {V : Type} (d : Dict V) (k : Person.t) (v : V) :
  dict_get d k = Ok v -> dict_set d k v = d.
Proof.
  induction d as [|[k' v'] d IH]; simpl; [discriminate|].
  destruct (Person_eqb_spec k k') as [->|Hne]; intros H.
  - inversion H; subst. reflexivity.
  - rewrite IH by assumption. reflexivity.
Qed.

Lemma dict_keys_set {V : Type} (d : Dict V) (k : Person.t) (v w : V) :
  dict_get d k = Ok w -> dict_keys (dict_set d k v) = dict_keys d.
Proof.
  unfold dict_keys. induction d as [|[k' v'] d IH]; simpl; [discriminate|].
  destruct (Person_eqb_spec k k') as [->|Hne]; intros H; simpl.
  - reflexivity.
  - rewrite IH by assumption. reflexivity.
Qed.

(** ** Signs of creditors and debtors *)

Lemma dlt_zero_coef (b : Decimal) : dlt Dec.zero b <-> 0 < Dec.coef b.
Proof. unfold dlt. rewrite compare_zero_l. apply Z.compare_lt_iff. Qed.

Lemma dle_zero_coef (b : Decimal) : dle Dec.zero b <-> 0 <= Dec.coef b.
Proof. unfold dle. rewrite compare_zero_l. apply Z.compare_le_iff. Qed.

Lemma coef_zero_dlt (b : Decimal) : dlt b Dec.zero <-> Dec.coef b < 0.
Proof. unfold dlt. rewrite compare_zero_r. apply Z.compare_lt_iff. Qed.

Lemma creditor_positive (b tol : Decimal) :
  dle Dec.zero tol -> Dec.gtb b tol = true -> 0 < Dec.coef b.
Proof.
  intros Ht Hg. apply dlt_zero_coef. unfold Dec.gtb, Dec.ltb in Hg.
  apply (cmp_le_lt_trans OrdLaws_Decimal Dec.zero tol b); [exact Ht|].
  simpl. destruct (Dec.compare tol b); congruence.
Qed.

Lemma neg_nonpos (tol : Decimal) : dle Dec.zero tol -> dle (Dec.neg tol) Dec.zero.
Proof.
  intros Ht. apply dle_zero_coef in Ht. unfold dle. rewrite compare_zero_r.
  apply Z.compare_le_iff. unfold Dec.neg.
  pose proof (fix_sgn (Dec.mkDec (- Dec.coef tol) (Dec.exp tol))) as Hs.
  cbn [Dec.coef] in Hs. lia.
Qed.

Lemma debtor_negative (b tol : Decimal) :
  dle Dec.zero tol -> Dec.ltb b (Dec.neg tol) = true -> Dec.coef b < 0.
Proof.
  intros Ht Hl. apply coef_zero_dlt. unfold Dec.ltb in Hl.
  apply (cmp_lt_le_trans OrdLaws_Decimal b (Dec.neg tol) Dec.zero).
  - simpl. destruct (Dec.compare b (Dec.neg tol)); congruence.
  - apply neg_nonpos. exact Ht.
Qed.

(** ** One pass of the greedy loop on quantized balances *)

Lemma greedy_step_quantized (wb : Dict Decimal) (tol : Decimal) :
  dict_wf wb -> quantized_dict wb -> dle Dec.zero tol ->
  greedy_step wb tol = Ok None \/
  exists cp cb dp db r1 r2,
    sort_by creditor_key (creditors_of wb tol) = (cp, cb) :: r1 /\
    sort_by debtor_key (debtors_of wb tol) = (dp, db) :: r2 /\
    In (cp, cb) wb /\ In (dp, db) wb /\ cp <> dp /\
    0 < Dec.coef cb /\ Dec.coef db < 0 /\
    let a := Z.min (Dec.coef cb) (- Dec.coef db) in
    greedy_step wb tol =
      Ok (Some (SettlementTransfer.mk dp cp (Dec.mkDec a (-2)),
                dict_set (dict_set wb cp (Dec.mkDec (Dec.coef cb - a) (-2)))
                  dp (Dec.mkDec (Dec.coef db + a) (-2)))).
Proof.
  intros Hwf Hq Ht. unfold greedy_step.
  destruct (creditors_of wb tol) as [|c0 cs] eqn:Ec; [left; reflexivity|].
  destruct (debtors_of wb tol) as [|d0 ds] eqn:Ed; [left; reflexivity|].
  destruct (sort_by creditor_key (c0 :: cs)) as [|[cp cb] r1] eqn:Esc; [left; reflexivity|].
  destruct (sort_by debtor_key (d0 :: ds)) as [|[dp db] r2] eqn:Esd; [left; reflexivity|].
  right. exists cp, cb, dp, db, r1, r2.
  destruct (sort_by_head OrdLaws_balance_key creditor_key _ _ _ Esc) as [Hinc _].
  destruct (sort_by_head OrdLaws_balance_key debtor_key _ _ _ Esd) as [Hind _].
  rewrite <- Ec in Hinc. rewrite <- Ed in Hind.
  apply filter_In in Hinc. destruct Hinc as [Hinc Hgc]. cbn [snd] in Hgc.
  apply filter_In in Hind. destruct Hind as [Hind Hgd]. cbn [snd] in Hgd.
  pose proof (creditor_positive cb tol Ht Hgc) as Hcpos.
  pose proof (debtor_negative db tol Ht Hgd) as Hdneg.
  unfold quantized_dict in Hq. rewrite Forall_forall in Hq.
  pose proof (Hq _ Hinc) as Hqc. pose proof (Hq _ Hind) as Hqd. cbn [snd] in Hqc, Hqd.
  destruct cb as [c ec], db as [d ed].
  destruct Hqc as [Hec Hfc], Hqd as [Hed Hfd]. unfold fits in Hfc, Hfd.
  cbn [Dec.coef Dec.exp] in *. subst ec ed.
  assert (Hne : cp <> dp).
  { intros E. subst dp. pose proof (dict_get_In wb cp _ Hwf Hinc) as G1.
    pose proof (dict_get_In wb cp _ Hwf Hind) as G2. rewrite G1 in G2.
    inversion G2; subst. lia. }
  repeat (split; [first [reflexivity|assumption]|]).
  rewrite (neg_fits (Dec.mkDec d (-2))) by (unfold fits; exact Hfd).
  cbn [Dec.coef Dec.exp].
  assert (Hmin : Dec.min (Dec.mkDec c (-2)) (Dec.mkDec (- d) (-2))
                 = Dec.mkDec (Z.min c (- d)) (-2)).
  { unfold Dec.min, Dec.ltb. rewrite compare_same_exp by reflexivity. cbn [Dec.coef].
    destruct (Z.compare_spec (- d) c); f_equal; lia. }
  rewrite Hmin. set (a := Z.min c (- d)).
  assert (Ha : 0 < a <= c /\ a <= - d) by (unfold a; lia).
  assert (Hqa : quantized (Dec.mkDec a (-2))) by (apply quantized_mk; lia).
  rewrite (round_money_quantized _ Hqa). cbn [bind].
  unfold SettlementTransfer.make.
  assert (Hva : validate_amount (Dec.mkDec a (-2)) = Ok tt).
  { unfold validate_amount, Dec.ltb. rewrite compare_zero_r. cbn [Dec.coef].
    destruct (Z.compare_spec a 0); try reflexivity; lia. }
  rewrite Hva. cbn [bind]. rewrite (round_money_quantized _ Hqa). cbn [bind].
  rewrite (dict_get_In wb cp _ Hwf Hinc). cbn [bind].
  rewrite sub_cents by lia.
  rewrite dict_get_set_other by (intros E; apply Hne; symmetry; exact E).
  rewrite (dict_get_In wb dp _ Hwf Hind). cbn [bind].
  rewrite add_cents by lia.
  rewrite dict_get_set_other by exact Hne.
  rewrite dict_get_set_same. cbn [bind].
  rewrite round_money_quantized by (apply quantized_mk; lia). cbn [bind].
  rewrite (dict_set_id (dict_set (dict_set wb cp _) dp _) cp (Dec.mkDec (c - a) (-2)))
    by (rewrite dict_get_set_other by exact Hne; apply dict_get_set_same).
  rewrite dict_get_set_same. cbn [bind].
  rewrite round_money_quantized by (apply quantized_mk; lia). cbn [bind].
  rewrite (dict_set_id (dict_set (dict_set wb cp _) dp _) dp (Dec.mkDec (d + a) (-2)))
    by apply dict_get_set_same.
  reflexivity.
Qed.

(** ** What the greedy loop selects *)

Lemma compare_neg_fits (a b : Decimal) :
  fits a -> fits b -> Dec.compare (Dec.neg a) (Dec.neg b) = Dec.compare b a.
Proof.
  intros Ha Hb. rewrite (neg_fits a Ha), (neg_fits b Hb).
  unfold Dec.compare; cbn [Dec.coef Dec.exp].
  rewrite (Z.min_comm (Dec.exp b)). rewrite !Z.mul_opp_l. apply Z.compare_opp.
Qed.

Lemma make_transfer_Ok (f g : Person.t) (a : Decimal) (t : SettlementTransfer.t) :
  quantized a -> SettlementTransfer.make f g a = Ok t -> t = SettlementTransfer.mk f g a.
Proof.
  intros Hq H. unfold SettlementTransfer.make in H.
  apply bind_Ok in H. destruct H as ([] & _ & H).
  rewrite (round_money_quantized a Hq) in H. simpl in H. inversion H. reflexivity.
Qed.

Lemma greedy_step_selects (wb : Dict Decimal) (tol : Decimal)
    (t : SettlementTransfer.t) (wb' : Dict Decimal) :
  fits_dict wb -> greedy_step wb tol = Ok (Some (t, wb')) ->
  exists cb db,
    largest_creditor wb tol (SettlementTransfer.to_person t) cb /\
    most_negative_debtor wb tol (SettlementTransfer.from_person t) db /\
    round_money (Dec.min cb (Dec.neg db)) 2 = Ok (SettlementTransfer.amount t).
Proof.
  intros Hfit H. unfold fits_dict in Hfit. rewrite Forall_forall in Hfit.
  unfold greedy_step in H.
  destruct (creditors_of wb tol) as [|c0 cs] eqn:Ec; [discriminate|].
  destruct (debtors_of wb tol) as [|d0 ds] eqn:Ed; [discriminate|].
  destruct (sort_by creditor_key (c0 :: cs)) as [|[cp cb] r1] eqn:Esc; [discriminate|].
  destruct (sort_by debtor_key (d0 :: ds)) as [|[dp db] r2] eqn:Esd; [discriminate|].
  apply bind_Ok in H. destruct H as (amt & Hamt & H).
  apply bind_Ok in H. destruct H as (t0 & Ht0 & H).
  apply bind_Ok in H. destruct H as (c1 & _ & H).
  apply bind_Ok in H. destruct H as (d1 & _ & H).
  apply bind_Ok in H. destruct H as (c2 & _ & H).
  apply bind_Ok in H. destruct H as (c3 & _ & H).
  apply bind_Ok in H. destruct H as (d2 & _ & H).
  apply bind_Ok in H. destruct H as (d3 & _ & H).
  inversion H; subst t0 wb'. clear H.
  apply make_transfer_Ok in Ht0; [|eapply round_money_out; exact Hamt]. subst t.
  cbn [SettlementTransfer.to_person SettlementTransfer.from_person SettlementTransfer.amount].
  destruct (sort_by_head OrdLaws_balance_key creditor_key _ _ _ Esc) as [Hinc Hminc].
  destruct (sort_by_head OrdLaws_balance_key debtor_key _ _ _ Esd) as [Hind Hmind].
  rewrite <- Ec in Hinc, Hminc. rewrite <- Ed in Hind, Hmind.
  apply filter_In in Hinc. destruct Hinc as [Hinc Hgc]. cbn [snd] in Hgc.
  apply filter_In in Hind. destruct Hind as [Hind Hgd]. cbn [snd] in Hgd.
  assert (Hlt : forall x y, Dec.ltb x y = true <-> dlt x y).
  { intros x y. unfold Dec.ltb, dlt. destruct (Dec.compare x y); split; congruence. }
  exists cb, db. split; [|split; [|exact Hamt]].
  - split; [exact Hinc|]. split; [apply Hlt; exact Hgc|].
    intros p b Hin Hb.
    assert (Hf : In (p, b) (creditors_of wb tol)).
    { apply filter_In. split; [exact Hin|]. apply Hlt. exact Hb. }
    specialize (Hminc _ Hf). unfold key_le in Hminc.
    change (cmp (creditor_key (cp, cb)) (creditor_key (p, b)))
      with (match Dec.compare (Dec.neg cb) (Dec.neg b) with
            | Eq => cmp (person_key cp) (person_key p)
            | c => c
            end) in Hminc.
    rewrite (compare_neg_fits cb b (Hfit (cp, cb) Hinc) (Hfit (p, b) Hin)) in Hminc.
    unfold dle, deq. destruct (Dec.compare b cb) eqn:E; split; try congruence;
      intros _; exact Hminc.
  - split; [exact Hind|]. split; [apply Hlt; exact Hgd|].
    intros p b Hin Hb.
    assert (Hf : In (p, b) (debtors_of wb tol)).
    { apply filter_In. split; [exact Hin|]. apply Hlt. exact Hb. }
    specialize (Hmind _ Hf). unfold key_le in Hmind.
    change (cmp (debtor_key (dp, db)) (debtor_key (p, b)))
      with (match Dec.compare db b with
            | Eq => cmp (person_key dp) (person_key p)
            | c => c
            end) in Hmind.
    unfold dle, deq. rewrite (compare_antisym b db).
    destruct (Dec.compare db b) eqn:E; simpl; split; try congruence;
      intros _; exact Hmind.
Qed.

(** Two sorted lists with the same elements have the same keys in the
    same order, when keys that compare equal are equal. *)
Lemma sorted_keys_unique {A K : Type} `{Ord K} (L : OrdLaws K) (key : A -> K) :
  (forall x y : K, cmp x y = Eq -> x = y) ->
  forall l1 l2, sorted_by key l1 -> sorted_by key l2 ->
    Permutation (map key l1) (map key l2) -> map key l1 = map key l2.
Proof.
  intros Heq. induction l1 as [|a l1 IH]; intros l2 S1 S2 P.
  - simpl in *. apply Permutation_nil in P. symmetry. exact P.
  - destruct l2 as [|b l2].
    { simpl in P. symmetry in P. apply Permutation_nil in P. discriminate. }
    inversion S1 as [|? ? S1' F1]; subst. inversion S2 as [|? ? S2' F2]; subst.
    assert (Hab : key a = key b).
    { assert (H1 : key_le (key a) (key b)).
      { assert (Hin : In (key b) (map key (a :: l1))).
        { eapply Permutation_in; [symmetry; exact P|]. left. reflexivity. }
        destruct Hin as [E|Hin].
        - rewrite E. unfold key_le. rewrite (cmp_refl L). congruence.
        - apply in_map_iff in Hin. destruct Hin as (y & Ey & Hy). rewrite <- Ey.
          rewrite Forall_forall in F1. apply F1. exact Hy. }
      assert (H2 : key_le (key b) (key a)).
      { assert (Hin : In (key a) (map key (b :: l2))).
        { eapply Permutation_in; [exact P|]. left. reflexivity. }
        destruct Hin as [E|Hin].
        - rewrite E. unfold key_le. rewrite (cmp_refl L). congruence.
        - apply in_map_iff in Hin. destruct Hin as (y & Ey & Hy). rewrite <- Ey.
          rewrite Forall_forall in F2. apply F2. exact Hy. }
      apply Heq. unfold key_le in *. rewrite (cmp_antisym K L) in H2.
      destruct (cmp (key a) (key b)); simpl in *; congruence. }
    simpl. rewrite Hab. f_equal. apply IH; [assumption|assumption|].
    simpl in P. rewrite Hab in P. eapply Permutation_cons_inv. exact P.
Qed.

Lemma string_cmp_eq (x y : string) : cmp x y = Eq -> x = y.
Proof. simpl. apply String.compare_eq_iff. Qed.

Lemma transfer_key_cmp_eq (x y : string * (string * (string * string))) :
  cmp x y = Eq -> x = y.
Proof.
  destruct x as (a1 & a2 & a3 & a4), y as (b1 & b2 & b3 & b4). cbn [cmp Ord_pair fst snd].
  destruct (cmp a1 b1) eqn:E1; try discriminate.
  destruct (cmp a2 b2) eqn:E2; try discriminate.
  destruct (cmp a3 b3) eqn:E3; try discriminate.
  intros E4.
  apply string_cmp_eq in E1, E2, E3, E4. congruence.
Qed.



(** ** Termination of the greedy loop *)

Lemma nonzero_count_le_length (d : Dict Decimal) : (nonzero_count d <= List.length d)%nat.
Proof. unfold nonzero_count. apply filter_length_le. Qed.

Lemma nonzero_count_set (d : Dict Decimal) (k : Person.t) (v v' : Decimal) :
  dict_get d k = Ok v -> Dec.coef v <> 0 ->
  (nonzero_count (dict_set d k v') <= nonzero_count d)%nat /\
  (Dec.coef v' = 0 -> (nonzero_count (dict_set d k v') < nonzero_count d)%nat).
Proof.
  unfold nonzero_count. induction d as [|[k' x] d IH]; simpl; [discriminate|].
  intros Hg Hv. destruct (Person.eqb k k').
  - inversion Hg; subst x. simpl.
    destruct (Z.eqb_spec (Dec.coef v) 0); [contradiction|]. simpl.
    destruct (Z.eqb_spec (Dec.coef v') 0); simpl; split; intros; lia.
  - simpl. destruct (IH Hg Hv) as [H1 H2].
    destruct (negb (Dec.coef x =? 0)); simpl; split; intros; try lia;
      specialize (H2 ltac:(assumption)); lia.
Qed.

Lemma quantized_dict_set (d : Dict Decimal) (k : Person.t) (v : Decimal) :
  quantized_dict d -> quantized v -> quantized_dict (dict_set d k v).
Proof.
  unfold quantized_dict. induction d as [|[k' x] d IH]; intros Hd Hv; simpl.
  - constructor; [exact Hv|constructor].
  - inversion Hd; subst. destruct (Person.eqb k k'); constructor; auto.
Qed.

Lemma settled_zero (tol : Decimal) (wb : Dict Decimal) (p : Person.t) :
  dict_wf wb -> dle Dec.zero tol -> dict_get wb p = Ok d_0_00 -> settled tol wb p.
Proof.
  intros Hwf Ht Hg. split; [exact Hg|]. split; intros Hin;
    apply in_map_iff in Hin; destruct Hin as ([q v] & Eq & Hin); simpl in Eq; subst q;
    apply filter_In in Hin; destruct Hin as [Hin Hc]; cbn [snd] in Hc;
    rewrite (dict_get_In wb p v Hwf Hin) in Hg; inversion Hg; subst v.
  - pose proof (creditor_positive _ _ Ht Hc) as H. simpl in H. lia.
  - pose proof (debtor_negative _ _ Ht Hc) as H. simpl in H. lia.
Qed.

(** A pass on quantized balances: the invariants are kept and one of the
    two people of the transfer is left at 0.00. *)
Lemma greedy_step_progress (wb : Dict Decimal) (tol : Decimal)
    (t : SettlementTransfer.t) (wb' : Dict Decimal) :
  dict_wf wb -> quantized_dict wb -> dle Dec.zero tol ->
  greedy_step wb tol = Ok (Some (t, wb')) ->
  dict_wf wb' /\ quantized_dict wb' /\ dict_keys wb' = dict_keys wb /\
  (nonzero_count wb' < nonzero_count wb)%nat /\
  quantized (SettlementTransfer.amount t) /\
  apply_transfer wb t = Ok wb' /\
  (settled tol wb' (SettlementTransfer.to_person t) \/
   settled tol wb' (SettlementTransfer.from_person t)).
Proof.
  intros Hwf Hq Ht Hstep.
  destruct (greedy_step_quantized wb tol Hwf Hq Ht) as [E|H]; [congruence|].
  destruct H as (cp & cb & dp & db & r1 & r2 & _ & _ & Hinc & Hind & Hne & Hc & Hd & E).
  cbv zeta in E. rewrite E in Hstep. inversion Hstep; subst t wb'. clear Hstep E.
  pose proof Hq as Hq'. unfold quantized_dict in Hq'. rewrite Forall_forall in Hq'.
  pose proof (Hq' _ Hinc) as Hqc. pose proof (Hq' _ Hind) as Hqd. cbn [snd] in Hqc, Hqd.
  destruct cb as [c ec], db as [d ed].
  destruct Hqc as [Hec Hfc], Hqd as [Hed Hfd]. unfold fits in Hfc, Hfd.
  cbn [Dec.coef Dec.exp] in *. subst ec ed.
  set (a := Z.min c (- d)).
  assert (Ha : 0 < a <= c /\ a <= - d) by (unfold a; lia).
  pose proof (dict_get_In wb cp _ Hwf Hinc) as Gc.
  pose proof (dict_get_In wb dp _ Hwf Hind) as Gd.
  set (wb1 := dict_set wb cp (Dec.mkDec (c - a) (-2))).
  assert (Gd1 : dict_get wb1 dp = Ok (Dec.mkDec d (-2))).
  { unfold wb1. rewrite dict_get_set_other by (intros E; apply Hne; symmetry; exact E).
    exact Gd. }
  assert (Hk1 : dict_keys wb1 = dict_keys wb) by (eapply dict_keys_set; exact Gc).
  assert (Hk2 : dict_keys (dict_set wb1 dp (Dec.mkDec (d + a) (-2))) = dict_keys wb).
  { rewrite <- Hk1. eapply dict_keys_set. exact Gd1. }
  assert (Hwf' : dict_wf (dict_set wb1 dp (Dec.mkDec (d + a) (-2)))).
  { unfold dict_wf. rewrite Hk2. exact Hwf. }
  split; [exact Hwf'|]. split.
  { apply quantized_dict_set; [apply quantized_dict_set; [exact Hq|]|];
      apply quantized_mk; lia. }
  split; [exact Hk2|]. split.
  { destruct (nonzero_count_set wb cp (Dec.mkDec c (-2)) (Dec.mkDec (c - a) (-2)) Gc)
      as [L1 S1]; [simpl; lia|].
    destruct (nonzero_count_set wb1 dp (Dec.mkDec d (-2)) (Dec.mkDec (d + a) (-2)) Gd1)
      as [L2 S2]; [simpl; lia|].
    fold wb1 in L1, S1. cbn [Dec.coef] in S1, S2.
    destruct (Z.eq_dec (c - a) 0) as [Ez|Ez]; [specialize (S1 Ez); lia|].
    assert (Ez2 : d + a = 0) by lia. specialize (S2 Ez2). lia. }
  split; [apply quantized_mk; cbn [SettlementTransfer.amount]; lia|].
  split.
  { unfold apply_transfer.
    cbn [SettlementTransfer.to_person SettlementTransfer.from_person SettlementTransfer.amount].
    rewrite Gc. cbn [bind].
    assert (Es : Dec.sub_exact (Dec.mkDec c (-2)) (Dec.mkDec a (-2)) = Dec.mkDec (c - a) (-2)).
    { unfold Dec.sub_exact; cbn [Dec.coef Dec.exp]. rewrite Z.min_id, Z.sub_diag.
      change (10 ^ 0) with 1. rewrite !Z.mul_1_r. reflexivity. }
    rewrite Es. fold wb1. rewrite Gd1. cbn [bind].
    assert (Ea : Dec.add_exact (Dec.mkDec d (-2)) (Dec.mkDec a (-2)) = Dec.mkDec (d + a) (-2)).
    { unfold Dec.add_exact; cbn [Dec.coef Dec.exp]. rewrite Z.min_id, Z.sub_diag.
      change (10 ^ 0) with 1. rewrite !Z.mul_1_r. reflexivity. }
    rewrite Ea. reflexivity. }
  cbn [SettlementTransfer.to_person SettlementTransfer.from_person].
  destruct (Z.eq_dec (c - a) 0) as [Ez|Ez].
  - left. apply settled_zero; [exact Hwf'|exact Ht|].
    rewrite dict_get_set_other by exact Hne. unfold wb1.
    rewrite dict_get_set_same, Ez. reflexivity.
  - right. apply settled_zero; [exact Hwf'|exact Ht|].
    rewrite dict_get_set_same. replace (d + a) with 0 by lia. reflexivity.
Qed.

Lemma reached_invariant (tol : Decimal) (balances wb : Dict Decimal) :
  dict_wf balances -> quantized_dict balances -> dle Dec.zero tol ->
  reached tol balances wb ->
  dict_wf wb /\ quantized_dict wb /\ dict_keys wb = dict_keys balances.
Proof.
  intros Hwf Hq Ht Hr. induction Hr as [|wb wb' t _ IH Hstep].
  - auto.
  - destruct IH as (W & Q & K).
    destruct (greedy_step_progress wb tol t wb' W Q Ht Hstep) as (W' & Q' & K' & _).
    split; [exact W'|]. split; [exact Q'|]. congruence.
Qed.

(** The loop on quantized balances, with the count of non-zero balances
    as its bound. *)
Lemma greedy_loop_quantized (tol : Decimal) :
  dle Dec.zero tol ->
  forall n wb acc,
    dict_wf wb -> quantized_dict wb -> (nonzero_count wb <= n)%nat ->
    exists wb' gen,
      (List.length gen <= n)%nat /\
      dict_wf wb' /\ quantized_dict wb' /\ dict_keys wb' = dict_keys wb /\
      cents_transfers gen /\
      apply_transfers wb gen = Ok wb' /\
      forall fuel, (n < fuel)%nat ->
        greedy_loop fuel wb tol acc = Ok (wb', acc ++ gen).
Proof.
  intros Ht. induction n as [|n IH]; intros wb acc Hwf Hq Hn.
  - destruct (greedy_step wb tol) as [[[t wb']|]|e|] eqn:E.
    + destruct (greedy_step_progress wb tol t wb' Hwf Hq Ht E) as (_ & _ & _ & Hlt & _). lia.
    + exists wb, []. repeat (split; [first [reflexivity|assumption|simpl; lia|constructor]|]).
      intros [|fuel] Hf; [lia|]. simpl. rewrite E. simpl. rewrite app_nil_r. reflexivity.
    + destruct (greedy_step_quantized wb tol Hwf Hq Ht) as [E'|H]; [congruence|].
      destruct H as (? & ? & ? & ? & ? & ? & _ & _ & _ & _ & _ & _ & _ & E'). congruence.
    + destruct (greedy_step_quantized wb tol Hwf Hq Ht) as [E'|H]; [congruence|].
      destruct H as (? & ? & ? & ? & ? & ? & _ & _ & _ & _ & _ & _ & _ & E'). congruence.
  - destruct (greedy_step wb tol) as [[[t wb1]|]|e|] eqn:E.
    + destruct (greedy_step_progress wb tol t wb1 Hwf Hq Ht E)
        as (W1 & Q1 & K1 & Hlt & Hqa & Happ & _).
      destruct (IH wb1 (acc ++ [t]) W1 Q1 ltac:(lia))
        as (wb' & gen & Hlen & W' & Q' & K' & C' & A' & Hloop).
      exists wb', (t :: gen).
      split; [simpl; lia|]. split; [exact W'|]. split; [exact Q'|].
      split; [congruence|]. split; [constructor; [apply Hqa|exact C']|].
      split; [simpl; rewrite Happ; simpl; exact A'|].
      intros [|fuel] Hf; [lia|]. simpl. rewrite E. simpl.
      rewrite (Hloop fuel ltac:(lia)). rewrite <- app_assoc. reflexivity.
    + exists wb, []. repeat (split; [first [reflexivity|assumption|simpl; lia|constructor]|]).
      intros [|fuel] Hf; [lia|]. simpl. rewrite E. simpl. rewrite app_nil_r. reflexivity.
    + destruct (greedy_step_quantized wb tol Hwf Hq Ht) as [E'|H]; [congruence|].
      destruct H as (? & ? & ? & ? & ? & ? & _ & _ & _ & _ & _ & _ & _ & E'). congruence.
    + destruct (greedy_step_quantized wb tol Hwf Hq Ht) as [E'|H]; [congruence|].
      destruct H as (? & ? & ? & ? & ? & ? & _ & _ & _ & _ & _ & _ & _ & E'). congruence.
Qed.

(** C5. On balances quantized to two decimals (with a tolerance that is
    not negative, as the default 0.02) the greedy loop terminates: it
    records at most as many transfers as there are people and then
    leaves, whatever fuel above that number it is given; and every pass
    that records a transfer leaves the balance of its creditor or of its
    debtor at exactly 0.00, no longer among the creditors or debtors. *)
Theorem greedy_loop_terminates (balances : Dict Decimal) (tol : Decimal) :
  dict_wf balances -> quantized_dict balances -> dle Dec.zero tol ->
  (exists wb generated,
     (List.length generated <= List.length balances)%nat /\
     forall fuel, (List.length balances < fuel)%nat ->
       greedy_loop fuel balances tol [] = Ok (wb, generated)) /\
  (forall wb t wb',
     reached tol balances wb -> greedy_step wb tol = Ok (Some (t, wb')) ->
     (nonzero_count wb' < nonzero_count wb)%nat /\
     (settled tol wb' (SettlementTransfer.to_person t) \/
      settled tol wb' (SettlementTransfer.from_person t))).
Proof.
  intros Hwf Hq Ht. split.
  - destruct (greedy_loop_quantized tol Ht (List.length balances) balances [] Hwf Hq
                (nonzero_count_le_length balances))
      as (wb & gen & Hlen & _ & _ & _ & _ & _ & Hloop).
    exists wb, gen. split; [exact Hlen|]. intros fuel Hf. apply Hloop. exact Hf.
  - intros wb t wb' Hr Hstep.
    destruct (reached_invariant tol balances wb Hwf Hq Ht Hr) as (W & Q & _).
    destruct (greedy_step_progress wb tol t wb' W Q Ht Hstep) as (_ & _ & _ & Hlt & _ & _ & Hs).
    split; assumption.
Qed.

Lemma simple_balances_wf : dict_wf simple_balances.
Proof.
  unfold dict_wf, simple_balances; simpl.
  constructor; [simpl; intros [E|[]]; discriminate|].
  constructor; [simpl; tauto|constructor].
Qed.

Lemma simple_balances_quantized : quantized_dict simple_balances.
Proof. repeat constructor. Qed.

Lemma tolerance_0_02_nonneg : dle Dec.zero d_0_02.
Proof. discriminate. Qed.

Lemma greedy_loop_terminates_witness :
  dict_wf simple_balances /\ quantized_dict simple_balances /\ dle Dec.zero d_0_02 /\
  exists wb generated,
    (List.length generated <= List.length simple_balances)%nat /\
    forall fuel, (List.length simple_balances < fuel)%nat ->
      greedy_loop fuel simple_balances d_0_02 [] = Ok (wb, generated).
Proof.
  split; [exact simple_balances_wf|]. split; [exact simple_balances_quantized|].
  split; [exact tolerance_0_02_nonneg|].
  exact (proj1 (greedy_loop_terminates simple_balances d_0_02 simple_balances_wf
                  simple_balances_quantized tolerance_0_02_nonneg)).
Defined.

(** ** Applying transfers *)

Lemma cents_get (b : Dict Decimal) (p : Person.t) (v : Decimal) :
  cents_dict b -> dict_get b p = Ok v -> Dec.exp v = -2.
Proof.
  intros Hc Hg. apply dict_get_In_inv in Hg. unfold cents_dict in Hc.
  rewrite Forall_forall in Hc. apply (Hc (p, v) Hg).
Qed.

Lemma cents_dict_set (d : Dict Decimal) (k : Person.t) (v : Decimal) :
  cents_dict d -> Dec.exp v = -2 -> cents_dict (dict_set d k v).
Proof.
  unfold cents_dict. induction d as [|[k' x] d IH]; intros Hd Hv; simpl.
  - constructor; [exact Hv|constructor].
  - inversion Hd; subst. destruct (Person.eqb k k'); constructor; auto.
Qed.

Lemma quantized_cents (d : Dict Decimal) : quantized_dict d -> cents_dict d.
Proof. apply Forall_impl. intros x [H _]. exact H. Qed.

Lemma sub_exact_cents (x y : Decimal) :
  Dec.exp x = -2 -> Dec.exp y = -2 ->
  Dec.sub_exact x y = Dec.mkDec (Dec.coef x - Dec.coef y) (-2).
Proof.
  intros Hx Hy. unfold Dec.sub_exact. rewrite Hx, Hy, Z.min_id, Z.sub_diag.
  change (10 ^ 0) with 1. rewrite !Z.mul_1_r. reflexivity.
Qed.

Lemma add_exact_cents (x y : Decimal) :
  Dec.exp x = -2 -> Dec.exp y = -2 ->
  Dec.add_exact x y = Dec.mkDec (Dec.coef x + Dec.coef y) (-2).
Proof.
  intros Hx Hy. unfold Dec.add_exact. rewrite Hx, Hy, Z.min_id, Z.sub_diag.
  change (10 ^ 0) with 1. rewrite !Z.mul_1_r. reflexivity.
Qed.

Lemma dict_get_keys {V : Type} (d : Dict V) (k : Person.t) (v : V) :
  dict_get d k = Ok v -> In k (dict_keys d).
Proof. intros H. apply dict_mem_In. eapply dict_get_mem. exact H. Qed.

Lemma dict_get_of_key {V : Type} (d : Dict V) (k : Person.t) :
  In k (dict_keys d) -> exists v, dict_get d k = Ok v.
Proof.
  induction d as [|[k' v'] d IH]; simpl; [tauto|].
  destruct (Person_eqb_spec k k') as [->|Hne]; [eauto|].
  intros [E|H]; [congruence|auto].
Qed.

Ltac cents_eq :=
  apply f_equal; apply (f_equal (fun z => Dec.mkDec z (-2))); lia.

Lemma apply_transfer_spec (b b' : Dict Decimal) (t : SettlementTransfer.t) :
  cents_dict b -> Dec.exp (SettlementTransfer.amount t) = -2 ->
  apply_transfer b t = Ok b' ->
  dict_keys b' = dict_keys b /\ cents_dict b' /\
  In (SettlementTransfer.to_person t) (dict_keys b) /\
  In (SettlementTransfer.from_person t) (dict_keys b) /\
  forall p v, dict_get b p = Ok v ->
    dict_get b' p = Ok (Dec.mkDec (Dec.coef v + delta1 t p) (-2)).
Proof.
  intros Hc Ha H. unfold apply_transfer in H.
  destruct t as [f g amt]. cbn [SettlementTransfer.to_person SettlementTransfer.from_person
                                SettlementTransfer.amount] in *.
  apply bind_Ok in H. destruct H as (c & Gc & H). cbv zeta in H.
  apply bind_Ok in H. destruct H as (d & Gd & H). inversion H; subst b'. clear H.
  pose proof (cents_get b g c Hc Gc) as Hec.
  rewrite (sub_exact_cents c amt Hec Ha) in *.
  set (b1 := dict_set b g (Dec.mkDec (Dec.coef c - Dec.coef amt) (-2))) in *.
  assert (Hc1 : cents_dict b1) by (apply cents_dict_set; [exact Hc|reflexivity]).
  pose proof (cents_get b1 f d Hc1 Gd) as Hed.
  rewrite (add_exact_cents d amt Hed Ha).
  assert (Hk1 : dict_keys b1 = dict_keys b) by (eapply dict_keys_set; exact Gc).
  split; [rewrite <- Hk1; eapply dict_keys_set; exact Gd|].
  split; [apply cents_dict_set; [exact Hc1|reflexivity]|].
  split; [eapply dict_get_keys; exact Gc|].
  split; [rewrite <- Hk1; eapply dict_get_keys; exact Gd|].
  intros p v Gp. unfold delta1.
  cbn [SettlementTransfer.to_person SettlementTransfer.from_person SettlementTransfer.amount].
  pose proof (cents_get b p v Hc Gp) as Hev.
  destruct (Person_eqb_spec p f) as [->|Hpf].
  - rewrite dict_get_set_same.
    destruct (Person_eqb_spec f g) as [->|Hfg].
    + unfold b1 in Gd. rewrite dict_get_set_same in Gd. inversion Gd; subst d.
      rewrite Gc in Gp. inversion Gp; subst v. cbn [Dec.coef]. cents_eq.
    + unfold b1 in Gd. rewrite dict_get_set_other in Gd by exact Hfg.
      rewrite Gd in Gp. inversion Gp; subst v. cents_eq.
  - rewrite dict_get_set_other by exact Hpf.
    destruct (Person_eqb_spec p g) as [->|Hpg].
    + unfold b1. rewrite dict_get_set_same. rewrite Gc in Gp. inversion Gp; subst v.
      cents_eq.
    + unfold b1. rewrite dict_get_set_other by exact Hpg. rewrite Gp.
      destruct v as [cv ev]; cbn [Dec.coef Dec.exp] in *. subst ev. cents_eq.
Qed.

Lemma apply_transfers_spec (ts : list SettlementTransfer.t) :
  forall b b', cents_dict b -> cents_transfers ts ->
    apply_transfers b ts = Ok b' ->
    dict_keys b' = dict_keys b /\ cents_dict b' /\
    (forall t, In t ts ->
       In (SettlementTransfer.to_person t) (dict_keys b) /\
       In (SettlementTransfer.from_person t) (dict_keys b)) /\
    forall p v, dict_get b p = Ok v ->
      dict_get b' p = Ok (Dec.mkDec (Dec.coef v + delta ts p) (-2)).
Proof.
  induction ts as [|t ts IH]; intros b b' Hc Ht H; simpl in H.
  - inversion H; subst b'. split; [reflexivity|]. split; [exact Hc|].
    split; [intros t []|]. intros p v Gp. rewrite Gp.
    pose proof (cents_get b p v Hc Gp) as Hev.
    destruct v as [cv ev]; cbn [Dec.coef Dec.exp delta fold_right] in *. subst ev. cents_eq.
  - apply bind_Ok in H. destruct H as (b1 & H1 & H).
    inversion Ht as [|? ? Hta Hts]; subst.
    destruct (apply_transfer_spec b b1 t Hc Hta H1) as (K1 & C1 & I1 & I2 & G1).
    destruct (IH b1 b' C1 Hts H) as (K2 & C2 & I3 & G2).
    split; [congruence|]. split; [exact C2|]. split.
    + intros t' [<-|Hin]; [auto|]. rewrite <- K1. apply I3. exact Hin.
    + intros p v Gp. rewrite (G2 p _ (G1 p v Gp)). cbn [Dec.coef]. unfold delta; cbn [fold_right]. cents_eq.
Qed.

Lemma apply_transfers_defined (ts : list SettlementTransfer.t) :
  forall b,
    (forall t, In t ts ->
       In (SettlementTransfer.to_person t) (dict_keys b) /\
       In (SettlementTransfer.from_person t) (dict_keys b)) ->
    exists b', apply_transfers b ts = Ok b'.
Proof.
  induction ts as [|t ts IH]; intros b Hk; simpl; [eauto|].
  destruct (Hk t (or_introl eq_refl)) as [Kt Kf].
  destruct (dict_get_of_key b _ Kt) as (c & Gc).
  unfold apply_transfer. rewrite Gc. cbn [bind].
  set (b1 := dict_set b _ _).
  assert (Hk1 : dict_keys b1 = dict_keys b) by (eapply dict_keys_set; exact Gc).
  destruct (dict_get_of_key b1 (SettlementTransfer.from_person t)) as (d & Gd);
    [rewrite Hk1; exact Kf|].
  rewrite Gd. cbn [bind].
  apply IH. intros t' Hin.
  rewrite (dict_keys_set b1 _ _ d Gd), Hk1. apply Hk. right. exact Hin.
Qed.

Lemma delta_perm (p : Person.t) (l1 l2 : list SettlementTransfer.t) :
  Permutation l1 l2 -> delta l1 p = delta l2 p.
Proof.
  intros Hp. unfold delta. induction Hp; simpl; lia.
Qed.

Lemma dict_ext {V : Type} (d1 : Dict V) :
  forall d2, dict_keys d1 = dict_keys d2 -> dict_wf d1 ->
    (forall p, In p (dict_keys d1) -> dict_get d1 p = dict_get d2 p) -> d1 = d2.
Proof.
  unfold dict_wf, dict_keys.
  induction d1 as [|[k v] d1 IH]; intros [|[k2 v2] d2] Hk Hwf Hg; simpl in *;
    try discriminate; [reflexivity|].
  inversion Hk; subst k2. inversion Hwf as [|? ? Hnin Hwf']; subst.
  pose proof (Hg k (or_introl eq_refl)) as H0. rewrite Person_eqb_refl in H0.
  inversion H0; subst v2. f_equal. apply IH; [assumption|assumption|].
  intros p Hp. specialize (Hg p (or_intror Hp)).
  destruct (Person_eqb_spec p k) as [E|Hne]; [subst; contradiction|exact Hg].
Qed.

(** Applying the same transfers in another order gives the same
    balances. *)
Lemma apply_transfers_perm (b b' : Dict Decimal) (l1 l2 : list SettlementTransfer.t) :
  dict_wf b -> cents_dict b -> cents_transfers l1 -> Permutation l1 l2 ->
  apply_transfers b l1 = Ok b' -> apply_transfers b l2 = Ok b'.
Proof.
  intros Hwf Hc Ht1 Hp H1.
  destruct (apply_transfers_spec l1 b b' Hc Ht1 H1) as (K1 & _ & I1 & G1).
  assert (Ht2 : cents_transfers l2).
  { unfold cents_transfers in *. eapply Permutation_Forall; eassumption. }
  destruct (apply_transfers_defined l2 b) as (b2 & H2).
  { intros t Hin. apply I1. eapply Permutation_in; [symmetry; exact Hp|exact Hin]. }
  destruct (apply_transfers_spec l2 b b2 Hc Ht2 H2) as (K2 & _ & _ & G2).
  rewrite H2. f_equal. apply dict_ext.
  - congruence.
  - unfold dict_wf. rewrite K2. exact Hwf.
  - intros p Hp'. rewrite K2 in Hp'. destruct (dict_get_of_key b p Hp') as (v & Gv).
    rewrite (G1 p v Gv), (G2 p v Gv), (delta_perm p l1 l2 Hp). reflexivity.
Qed.

(** ** The outcome of compute_minimal_transfers *)

Lemma bind_Raise {A B : Type} (m : outcome A) (k : A -> outcome B) (e : error) :
  bind m k = Raise e -> m = Raise e \/ exists a, m = Ok a /\ k a = Raise e.
Proof.
  destruct m; simpl; intros H; try discriminate.
  - right. eauto.
  - left. inversion H. reflexivity.
Qed.

Lemma quantize_raises (d q : Decimal) (e : error) :
  Dec.quantize d q = Raise e -> e = InvalidOperation.
Proof.
  unfold Dec.quantize. destruct (Dec.coef d =? 0); [discriminate|].
  destruct (Dec.prec <? _); [congruence|].
  destruct (Dec.prec <? _); [congruence|discriminate].
Qed.

Lemma round_money_raises (x : Decimal) (places : Z) (e : error) :
  round_money x places = Raise e -> e = InvalidOperation.
Proof. apply quantize_raises. Qed.

Lemma dict_get_raises {V : Type} (d : Dict V) (k : Person.t) (e : error) :
  dict_get d k = Raise e -> e = KeyError.
Proof.
  induction d as [|[k' v] d IH]; simpl; [congruence|].
  destruct (Person.eqb k k'); [discriminate|exact IH].
Qed.

Lemma make_transfer_raises (f g : Person.t) (a : Decimal) (e : error) :
  SettlementTransfer.make f g a = Raise e -> e = ValidationError \/ e = InvalidOperation.
Proof.
  unfold SettlementTransfer.make. intros H.
  apply bind_Raise in H. destruct H as [H|([] & _ & H)].
  - destruct (validate_amount_cases a) as [E|E]; rewrite E in H; [discriminate|].
    inversion H. auto.
  - apply bind_Raise in H. destruct H as [H|(? & _ & H)]; [|discriminate].
    apply round_money_raises in H. auto.
Qed.

(** The loop never raises RoundingError. *)
Lemma greedy_step_raises (wb : Dict Decimal) (tol : Decimal) (e : error) :
  greedy_step wb tol = Raise e -> e <> RoundingError.
Proof.
  unfold greedy_step.
  destruct (creditors_of wb tol); [discriminate|].
  destruct (debtors_of wb tol); [discriminate|].
  destruct (sort_by creditor_key _) as [|[cp cb] ?]; [discriminate|].
  destruct (sort_by debtor_key _) as [|[dp db] ?]; [discriminate|].
  intros H.
  repeat match type of H with
         | bind _ _ = Raise _ =>
             apply bind_Raise in H; destruct H as [H|(? & _ & H)]
         end;
    try discriminate H;
    try (apply round_money_raises in H; subst e; discriminate);
    try (apply dict_get_raises in H; subst e; discriminate);
    try (apply make_transfer_raises in H; destruct H; subst e; discriminate).
Qed.

Lemma greedy_loop_raises (tol : Decimal) (e : error) :
  forall fuel wb acc, greedy_loop fuel wb tol acc = Raise e -> e <> RoundingError.
Proof.
  induction fuel as [|fuel IH]; intros wb acc H; simpl in H; [discriminate|].
  apply bind_Raise in H. destruct H as [H|([[t wb']|] & _ & H)].
  - eapply greedy_step_raises; exact H.
  - eapply IH; exact H.
  - discriminate.
Qed.

Lemma greedy_loop_fuel_mono (tol : Decimal) :
  forall fuel fuel' wb acc r,
    (fuel <= fuel')%nat -> greedy_loop fuel wb tol acc = Ok r ->
    greedy_loop fuel' wb tol acc = Ok r.
Proof.
  induction fuel as [|fuel IH]; intros fuel' wb acc r Hle H; simpl in H; [discriminate|].
  destruct fuel' as [|fuel']; [lia|]. simpl.
  destruct (greedy_step wb tol) as [[[t wb']|]|e|]; simpl in *; try discriminate.
  - apply IH; [lia|exact H].
  - exact H.
Qed.

(** A pass keeps the people of the working balances. *)
Lemma greedy_step_keys (wb wb' : Dict Decimal) (tol : Decimal) (t : SettlementTransfer.t) :
  greedy_step wb tol = Ok (Some (t, wb')) -> dict_keys wb' = dict_keys wb.
Proof.
  unfold greedy_step.
  destruct (creditors_of wb tol); [discriminate|].
  destruct (debtors_of wb tol); [discriminate|].
  destruct (sort_by creditor_key _) as [|[cp cb] ?]; [discriminate|].
  destruct (sort_by debtor_key _) as [|[dp db] ?]; [discriminate|].
  intros H.
  apply bind_Ok in H. destruct H as (amt & _ & H).
  apply bind_Ok in H. destruct H as (t0 & _ & H).
  apply bind_Ok in H. destruct H as (c1 & G1 & H).
  apply bind_Ok in H. destruct H as (d1 & G2 & H).
  apply bind_Ok in H. destruct H as (c2 & G3 & H).
  apply bind_Ok in H. destruct H as (c3 & _ & H).
  apply bind_Ok in H. destruct H as (d2 & G4 & H).
  apply bind_Ok in H. destruct H as (d3 & _ & H).
  inversion H; subst.
  rewrite (dict_keys_set _ _ _ _ G4), (dict_keys_set _ _ _ _ G3),
    (dict_keys_set _ _ _ _ G2), (dict_keys_set _ _ _ _ G1). reflexivity.
Qed.

Lemma greedy_loop_keys (tol : Decimal) :
  forall fuel wb acc wb' gen,
    greedy_loop fuel wb tol acc = Ok (wb', gen) -> dict_keys wb' = dict_keys wb.
Proof.
  induction fuel as [|fuel IH]; intros wb acc wb' gen H; simpl in H; [discriminate|].
  apply bind_Ok in H. destruct H as ([[t wb1]|] & Hs & H).
  - rewrite (IH _ _ _ _ H). eapply greedy_step_keys. exact Hs.
  - inversion H; reflexivity.
Qed.

Lemma abs_nonneg (v : Decimal) : 0 <= Dec.coef (Dec.abs v).
Proof.
  unfold Dec.abs.
  pose proof (fix_sgn (Dec.mkDec (Z.abs (Dec.coef v)) (Dec.exp v))) as H.
  cbn [Dec.coef] in H. lia.
Qed.

Lemma exceeds_negative_tolerance (tol : Decimal) (wb : Dict Decimal) :
  ~ dle Dec.zero tol -> exceeds tol wb = false -> wb = [].
Proof.
  intros Ht He. destruct wb as [|[p v] wb]; [reflexivity|]. exfalso.
  unfold exceeds in He. simpl in He. apply orb_false_iff in He. destruct He as [He _].
  unfold Dec.gtb, Dec.ltb in He.
  assert (Hlt : Dec.compare tol (Dec.abs v) = Lt).
  { apply (cmp_lt_le_trans OrdLaws_Decimal tol Dec.zero (Dec.abs v)).
    - simpl. unfold dle in Ht. rewrite compare_antisym.
      destruct (Dec.compare Dec.zero tol); simpl; try reflexivity; exfalso; apply Ht; congruence.
    - apply dle_zero_coef. apply abs_nonneg. }
  rewrite Hlt in He. discriminate.
Qed.

Lemma not_exceeds (tol : Decimal) (wb : Dict Decimal) :
  exceeds tol wb = false -> Forall (fun x => dle (Dec.abs (snd x)) tol) wb.
Proof.
  unfold exceeds. induction wb as [|x wb IH]; simpl; intros H; [constructor|].
  apply orb_false_iff in H. destruct H as [H1 H2]. constructor; [|apply IH; exact H2].
  unfold Dec.gtb, Dec.ltb in H1. unfold dle. rewrite compare_antisym.
  destruct (Dec.compare tol (Dec.abs (snd x))); simpl; congruence.
Qed.

(** C2, as the code has it. For balances quantized to two decimals: when
    [compute_minimal_transfers] returns, applying the returned transfers
    in the returned order, the amount taken from the receiver's balance
    and added to the sender's, leaves every balance within the tolerance
    of 0.  For any balances: it raises RoundingError exactly when the
    loop ends with a working balance beyond the tolerance. *)
Theorem transfers_settle (fuel : nat) (balances : Dict Decimal) (tol : Decimal) :
  (dict_wf balances -> quantized_dict balances ->
   forall ts, compute_minimal_transfers fuel balances tol = Ok ts ->
     exists final, apply_transfers balances ts = Ok final /\
       dict_keys final = dict_keys balances /\
       Forall (fun x => dle (Dec.abs (snd x)) tol) final) /\
  (compute_minimal_transfers fuel balances tol = Raise RoundingError <->
   exists wb generated,
     greedy_loop fuel balances tol [] = Ok (wb, generated) /\ exceeds tol wb = true).
Proof.
  split.
  - intros Hwf Hq ts H. unfold compute_minimal_transfers in H.
    apply bind_Ok in H. destruct H as ([wb gen] & Hloop & H).
    destruct (exceeds tol wb) eqn:Hex; [discriminate|]. inversion H; subst ts. clear H.
    destruct (Dec.compare Dec.zero tol) eqn:Hc.
    1,2: assert (Ht : dle Dec.zero tol) by (unfold dle; congruence).
    1,2: destruct (greedy_loop_quantized tol Ht (List.length balances) balances [] Hwf Hq
                (nonzero_count_le_length balances))
        as (wb' & gen' & _ & _ & _ & K & C & A & Hl);
      pose proof (Hl (Nat.max fuel (S (List.length balances))) ltac:(lia)) as E1;
      pose proof (greedy_loop_fuel_mono tol fuel (Nat.max fuel (S (List.length balances)))
                    balances [] (wb, gen) ltac:(lia) Hloop) as E2;
      rewrite E1 in E2; simpl in E2; inversion E2; subst wb' gen';
      exists wb; split;
        [apply (apply_transfers_perm balances wb gen);
           [exact Hwf|apply quantized_cents; exact Hq|exact C
           |symmetry; apply sort_by_perm|exact A]
        |split; [exact K|apply not_exceeds; exact Hex]].
    assert (Ht : ~ dle Dec.zero tol) by (unfold dle; intros Hn; apply Hn; exact Hc).
    pose proof (exceeds_negative_tolerance tol wb Ht Hex) as Ew. subst wb.
    pose proof (greedy_loop_keys tol _ _ _ _ _ Hloop) as K.
    destruct balances as [|x balances]; [|discriminate].
    destruct fuel as [|fuel]; [discriminate|]. simpl in Hloop. inversion Hloop; subst gen.
    exists []. repeat split; constructor.
  - unfold compute_minimal_transfers. split.
    + intros H. destruct (greedy_loop fuel balances tol []) as [[wb gen]|e|] eqn:E;
        simpl in H.
      * exists wb, gen. split; [reflexivity|]. destruct (exceeds tol wb); congruence.
      * inversion H; subst e. exfalso. eapply greedy_loop_raises; [exact E|reflexivity].
      * discriminate.
    + intros (wb & gen & E & Hex). rewrite E. simpl. rewrite Hex. reflexivity.
Qed.

Lemma transfers_settle_witness :
  dict_wf simple_balances /\ quantized_dict simple_balances /\
  compute_minimal_transfers 10 simple_balances d_0_02
    = Ok [SettlementTransfer.mk bob alice (Dec.mkDec 5000 (-2))] /\
  exists final,
    apply_transfers simple_balances [SettlementTransfer.mk bob alice (Dec.mkDec 5000 (-2))]
      = Ok final /\
    dict_keys final = dict_keys simple_balances /\
    Forall (fun x => dle (Dec.abs (snd x)) d_0_02) final.
Proof.
  split; [exact simple_balances_wf|]. split; [exact simple_balances_quantized|].
  split; [reflexivity|].
  apply (proj1 (transfers_settle 10 simple_balances d_0_02) simple_balances_wf
           simple_balances_quantized).
  reflexivity.
Defined.

(** C2 as stated fails: balances 50.024, -50.00 and -0.004 sum to 0.020,
    within the tolerance; the call returns one transfer of 50.00 from Bob
    to Alice, and applying it leaves Alice at 0.024, beyond 0.02. *)
Lemma three_decimals_not_settled :
  Dec.leb (Dec.abs (Dec.sum (dict_values three_decimals_balances))) d_0_02 = true /\
  compute_minimal_transfers 10 three_decimals_balances d_0_02
    = Ok [SettlementTransfer.mk bob alice (Dec.mkDec 5000 (-2))] /\
  exists final,
    apply_transfers three_decimals_balances
      [SettlementTransfer.mk bob alice (Dec.mkDec 5000 (-2))] = Ok final /\
    dict_get final alice = Ok (Dec.mkDec 24 (-3)) /\
    Dec.gtb (Dec.abs (Dec.mkDec 24 (-3))) d_0_02 = true.
Proof.
  split; [reflexivity|]. split; [reflexivity|].
  eexists. split; [reflexivity|]. split; reflexivity.
Qed.

(** * Further properties of the code *)

(** ** round_money *)

(** X1. A result of [round_money] at [places >= 0] decimal places has
    exponent [-places] and at most 28 digits, and [round_money] at the
    same place count returns it unchanged. *)
Theorem round_money_idempotent (x r : Decimal) (places : Z) :
  0 <= places -> round_money x places = Ok r ->
  Dec.exp r = - places /\ fits r /\ round_money r places = Ok r.
Proof.
  intros Hp H.
  destruct (round_money_spec x places Hp) as (c & _ & E). rewrite E in H.
  destruct (Z.ltb_spec (Z.abs c) (10 ^ Dec.prec)) as [Hc|]; [|discriminate].
  inversion H; subst r. clear H E.
  split; [reflexivity|]. split; [exact Hc|].
  destruct (round_money_spec (Dec.mkDec c (- places)) places Hp) as (c2 & [Hn _] & E2).
  cbn [Dec.coef Dec.exp] in Hn.
  rewrite Z.min_id, Z.sub_diag in Hn. change (10 ^ 0) with 1 in Hn.
  assert (c2 = c) by lia. subst c2. rewrite E2.
  destruct (Z.ltb_spec (Z.abs c) (10 ^ Dec.prec)); [reflexivity|lia].
Qed.

Lemma round_money_idempotent_witness :
  0 <= 2 /\ round_money (Dec.mkDec 10545 (-3)) 2 = Ok (Dec.mkDec 1054 (-2)) /\
  Dec.exp (Dec.mkDec 1054 (-2)) = - 2 /\ fits (Dec.mkDec 1054 (-2)) /\
  round_money (Dec.mkDec 1054 (-2)) 2 = Ok (Dec.mkDec 1054 (-2)).
Proof.
  split; [lia|]. split; [reflexivity|].
  apply (round_money_idempotent (Dec.mkDec 10545 (-3)) (Dec.mkDec 1054 (-2)) 2);
    [lia|reflexivity].
Defined.

(** The sign of a rounded amount. *)
Lemma round_money_nonneg (x r : Decimal) :
  0 <= Dec.coef x -> round_money x 2 = Ok r -> 0 <= Dec.coef r.
Proof.
  intros Hx H.
  destruct (round_money_spec x 2 ltac:(lia)) as (c & [Hn _] & E). rewrite E in H.
  destruct (Z.ltb_spec (Z.abs c) (10 ^ Dec.prec)) as [Hc|]; [|discriminate].
  inversion H; subst r. cbn [Dec.coef]. clear H E.
  set (m := Z.min (Dec.exp x) (- (2))) in *.
  assert (H1 : 0 < 10 ^ (- (2) - m)) by (apply pow10_pos; unfold m; lia).
  assert (H2 : 0 <= 10 ^ (Dec.exp x - m)) by (apply Z.pow_nonneg; lia).
  destruct (Z_lt_le_dec c 0) as [Hneg|]; [|assumption]. exfalso. nia.
Qed.

(** ** SettlementTransfer *)

(** X2. Constructing a transfer raises ValidationError exactly when the
    amount is negative; a constructed transfer keeps the two people and
    holds the amount rounded to two decimals, which is not negative. *)
Theorem transfer_construction (f g : Person.t) (a : Decimal) :
  (SettlementTransfer.make f g a = Raise ValidationError <-> dlt a Dec.zero) /\
  (forall t, SettlementTransfer.make f g a = Ok t ->
     SettlementTransfer.from_person t = f /\ SettlementTransfer.to_person t = g /\
     round_money a 2 = Ok (SettlementTransfer.amount t) /\
     quantized (SettlementTransfer.amount t) /\
     0 <= Dec.coef (SettlementTransfer.amount t)).
Proof.
  unfold SettlementTransfer.make, validate_amount, Dec.ltb, dlt.
  destruct (Dec.compare a Dec.zero) eqn:Hc; cbn [bind].
  - split.
    + split; [|discriminate]. intros H.
      destruct (round_money a 2) as [r|e|] eqn:E; simpl in H; try discriminate.
      apply round_money_raises in E. congruence.
    + intros t H. apply bind_Ok in H. destruct H as (r & Hr & H). inversion H; subst t.
      cbn. split; [reflexivity|]. split; [reflexivity|]. split; [exact Hr|].
      split; [apply (round_money_out a r Hr)|].
      apply (round_money_nonneg a r); [|exact Hr].
      rewrite compare_zero_r in Hc. apply Z.compare_eq_iff in Hc. lia.
  - split; [split; reflexivity|discriminate].
  - split.
    + split; [|discriminate]. intros H.
      destruct (round_money a 2) as [r|e|] eqn:E; simpl in H; try discriminate.
      apply round_money_raises in E. congruence.
    + intros t H. apply bind_Ok in H. destruct H as (r & Hr & H). inversion H; subst t.
      cbn. split; [reflexivity|]. split; [reflexivity|]. split; [exact Hr|].
      split; [apply (round_money_out a r Hr)|].
      apply (round_money_nonneg a r); [|exact Hr].
      rewrite compare_zero_r in Hc. apply Z.compare_gt_iff in Hc. lia.
Qed.

(** ** Shares *)

Lemma dict_mem_get {V : Type} (d : Dict V) (k : Person.t) :
  dict_mem d k = true -> exists v, dict_get d k = Ok v.
Proof. intros H. apply dict_get_of_key. apply dict_mem_In. exact H. Qed.

Lemma existsb_eqb_In (p : Person.t) (l : list Person.t) :
  existsb (Person.eqb p) l = true <-> In p l.
Proof.
  rewrite existsb_exists. split.
  - intros (q & Hq & E). destruct (Person_eqb_spec p q); [subst; exact Hq|discriminate].
  - intros H. exists p. split; [exact H|apply Person_eqb_refl].
Qed.

(** The outcomes of [compute_participant_share], strategy by strategy. *)
Lemma participant_share_cases (a : Activity.t) (p : Person.t) :
  (covered a p = false <-> compute_participant_share a p = Raise StrategyError) /\
  (forall e, compute_participant_share a p = Raise e ->
     e = StrategyError \/ e = InvalidOperation) /\
  compute_participant_share a p <> Timeout /\
  (forall s, compute_participant_share a p = Ok s -> quantized s).
Proof.
  unfold compute_participant_share, covered.
  destruct (Activity.split_strategy a).
  - (* EQUAL *)
    unfold compute_equal_share.
    destruct (existsb (Person.eqb p) (Activity.participants a)) eqn:Hin; cbn [negb].
    + assert (Hn : Z.of_nat (List.length (Activity.participants a)) <> 0).
      { apply existsb_eqb_In in Hin. destruct (Activity.participants a); [contradiction|].
        simpl. lia. }
      destruct (Z.eqb_spec (Z.of_nat (List.length (Activity.participants a))) 0);
        [contradiction|].
      destruct (div_total (Activity.amount a)
                  (Dec.of_Z (Z.of_nat (List.length (Activity.participants a)))) Hn)
        as (q & ->). cbn [bind].
      split; [split; [discriminate|]|].
      * intros H. apply round_money_raises in H. discriminate.
      * split; [intros e H; apply round_money_raises in H; auto|].
        split; [|intros s H; eapply round_money_out; exact H].
        destruct (round_money q 2) as [r|e|] eqn:E; try discriminate.
        unfold round_money, Dec.quantize in E.
        destruct (Dec.coef q =? 0); [discriminate|].
        destruct (Dec.prec <? _); [discriminate|].
        destruct (Dec.prec <? _); discriminate.
    + split; [split; reflexivity|]. split; [intros e H; inversion H; auto|].
      split; discriminate.
  - (* WEIGHTED *)
    unfold compute_weighted_share, weights_of.
    destruct (Activity.weights a) as [[|x ws]|]; cbn [truthy andb].
    + split; [split; reflexivity|]. split; [intros e H; inversion H; auto|].
      split; discriminate.
    + destruct (dict_mem (x :: ws) p) eqn:Hm; cbn [negb].
      * destruct (dict_mem_get _ _ Hm) as (w & ->). cbn [bind].
        split; [split; [discriminate|]|].
        -- intros H. apply round_money_raises in H. discriminate.
        -- split; [intros e H; apply round_money_raises in H; auto|].
           split; [|intros s H; eapply round_money_out; exact H].
           destruct (round_money _ 2) as [r|e|] eqn:E; try discriminate.
           unfold round_money, Dec.quantize in E.
           destruct (Dec.coef _ =? 0); [discriminate|].
           destruct (Dec.prec <? _); [discriminate|].
           destruct (Dec.prec <? _); discriminate.
      * split; [split; reflexivity|]. split; [intros e H; inversion H; auto|].
        split; discriminate.
    + split; [split; reflexivity|]. split; [intros e H; inversion H; auto|].
      split; discriminate.
  - (* FIXED_SHARES *)
    unfold compute_fixed_share.
    destruct (Activity.shares a) as [[|x ss]|]; cbn [truthy andb].
    + split; [split; reflexivity|]. split; [intros e H; inversion H; auto|].
      split; discriminate.
    + destruct (dict_mem (x :: ss) p) eqn:Hm; cbn [negb].
      * destruct (dict_mem_get _ _ Hm) as (w & ->). cbn [bind].
        split; [split; [discriminate|]|].
        -- intros H. apply round_money_raises in H. discriminate.
        -- split; [intros e H; apply round_money_raises in H; auto|].
           split; [|intros s H; eapply round_money_out; exact H].
           destruct (round_money _ 2) as [r|e|] eqn:E; try discriminate.
           unfold round_money, Dec.quantize in E.
           destruct (Dec.coef _ =? 0); [discriminate|].
           destruct (Dec.prec <? _); [discriminate|].
           destruct (Dec.prec <? _); discriminate.
      * split; [split; reflexivity|]. split; [intros e H; inversion H; auto|].
        split; discriminate.
    + split; [split; reflexivity|]. split; [intros e H; inversion H; auto|].
      split; discriminate.
Qed.

(** X3. The share of a participant: StrategyError exactly when the data
    of the strategy does not cover the participant (not in the activity
    for EQUAL, no weights or no weight for WEIGHTED, no shares or no share
    for FIXED_SHARES); otherwise the rounded share, or InvalidOperation
    when it does not fit the precision. No other error is raised: no
    KeyError and no division by zero. *)
Theorem participant_share_errors (a : Activity.t) (p : Person.t) :
  (covered a p = false <-> compute_participant_share a p = Raise StrategyError) /\
  (forall e, compute_participant_share a p = Raise e ->
     e = StrategyError \/ e = InvalidOperation) /\
  compute_participant_share a p <> Timeout /\
  (forall s, compute_participant_share a p = Ok s -> quantized s).
Proof. exact (participant_share_cases a p). Qed.

Lemma dict_wf_set {V : Type} (d : Dict V) (k : Person.t) (v : V) :
  dict_wf d -> dict_wf (dict_set d k v).
Proof.
  unfold dict_wf, dict_keys. induction d as [|[k' v'] d IH]; intros H; simpl.
  - constructor; [simpl; tauto|constructor].
  - inversion H as [|? ? Hn H']; subst.
    destruct (Person_eqb_spec k k') as [->|Hne]; simpl.
    + constructor; assumption.
    + constructor; [|apply IH; exact H'].
      intros Hin. apply Hn.
      change (In k' (dict_keys (dict_set d k v))) in Hin.
      apply dict_mem_In in Hin. rewrite dict_mem_set in Hin.
      destruct (Person_eqb_spec k' k); [congruence|]. simpl in Hin.
      apply dict_mem_In in Hin. exact Hin.
Qed.

Lemma all_shares_loop_spec (a : Activity.t) (ps : list Person.t) :
  forall acc shares, all_shares_loop a ps acc = Ok shares ->
    (dict_wf acc -> dict_wf shares) /\
    (forall p, In p (dict_keys shares) <-> In p ps \/ In p (dict_keys acc)) /\
    (forall p, In p ps -> exists s, compute_participant_share a p = Ok s /\
                                    dict_get shares p = Ok s) /\
    (forall p, ~ In p ps -> dict_get shares p = dict_get acc p).
Proof.
  induction ps as [|q ps IH]; intros acc shares H; simpl in H.
  - inversion H; subst. split; [auto|]. split; [intros p; simpl; tauto|].
    split; [intros p []|reflexivity].
  - apply bind_Ok in H. destruct H as (s & Hs & H).
    destruct (IH _ _ H) as (W & K & G & F).
    split; [intros Hwf; apply W, dict_wf_set; exact Hwf|]. split; [|split].
    + intros p. rewrite K. rewrite <- !dict_mem_In. rewrite dict_mem_set.
      rewrite orb_true_iff. rewrite !dict_mem_In. simpl.
      destruct (Person_eqb_spec p q) as [->|Hne];
        intuition (try discriminate; try congruence).
    + intros p [<-|Hin].
      * destruct (in_dec (fun x y => reflect_dec _ _ (Person_eqb_spec x y)) q ps) as [Hq|Hq].
        -- apply G. exact Hq.
        -- exists s. split; [exact Hs|]. rewrite (F q Hq). apply dict_get_set_same.
      * apply G. exact Hin.
    + intros p Hn. rewrite (F p) by (intros Hin; apply Hn; right; exact Hin).
      apply dict_get_set_other. intros E. apply Hn. left. congruence.
Qed.



(** ** Activity construction *)

Lemma validate_amount_Ok (x : Decimal) : validate_amount x = Ok tt <-> dle Dec.zero x.
Proof.
  unfold validate_amount, Dec.ltb, dle. rewrite (compare_antisym Dec.zero x).
  destruct (Dec.compare x Dec.zero); simpl; split; congruence.
Qed.

Lemma validate_amounts_Ok {K : Type} (l : list (K * Decimal)) :
  validate_amounts l = Ok tt -> Forall (fun x => dle Dec.zero (snd x)) l.
Proof.
  induction l as [|[k x] l IH]; simpl; intros H; [constructor|].
  apply bind_Ok in H. destruct H as ([] & H1 & H2).
  constructor; [apply validate_amount_Ok; exact H1|apply IH; exact H2].
Qed.

Lemma check_strategy_spec (a : Activity.t) :
  (forall e, Activity.check_strategy a = Raise e -> e = ValidationError) /\
  Activity.check_strategy a <> Timeout /\
  (forall a', Activity.check_strategy a = Ok a' ->
     (Activity.split_strategy a = FIXED_SHARES -> shares_ok a) /\
     (Activity.split_strategy a <> WEIGHTED -> a' = a) /\
     a' = Activity.set_weights a (Activity.weights a')).
Proof.
  assert (Heta : a = Activity.set_weights a (Activity.weights a)) by (destruct a; reflexivity).
  unfold Activity.check_strategy.
  destruct (Activity.split_strategy a) eqn:Hst.
  - split; [discriminate|]. split; [discriminate|].
    intros a' H. inversion H; subst a'. split; [discriminate|]. split; [reflexivity|exact Heta].
  - destruct (truthy (Activity.weights a)); cbn [negb].
    2:{ split; [intros e H; inversion H; reflexivity|]. split; discriminate. }
    destruct (Dec.gtb (Dec.abs _) d_0_01).
    + destruct (Dec.gtb _ Dec.zero) eqn:Hpos.
      * assert (Hnz : Dec.coef (weight_sum a) <> 0).
        { pose proof (creditor_positive _ Dec.zero ltac:(discriminate) Hpos) as Hc.
          unfold weight_sum, weights_of. lia. }
        destruct (dict_map_items_div (weight_sum a) (weights_of a) Hnz) as (ws' & E & _).
        unfold weight_sum, weights_of in E. rewrite E. cbn [bind].
        split; [discriminate|]. split; [discriminate|].
        intros a' H. inversion H; subst a'. split; [discriminate|].
        split; [congruence|]. destruct a; reflexivity.
      * split; [intros e H; inversion H; reflexivity|]. split; discriminate.
    + split; [discriminate|]. split; [discriminate|].
      intros a' H. inversion H; subst a'. split; [discriminate|]. split; [reflexivity|exact Heta].
  - unfold shares_ok. destruct (Activity.shares a) as [[|x ss]|]; cbn [truthy negb].
    + split; [intros e H; inversion H; reflexivity|]. split; discriminate.
    + destruct (Dec.gtb (Dec.abs _) d_0_01) eqn:Hsum.
      * split; [intros e H; inversion H; reflexivity|]. split; discriminate.
      * destruct (validate_amounts_cases (x :: ss)) as [E|E]; rewrite E; cbn [bind].
        -- split; [discriminate|]. split; [discriminate|].
           intros a' H. inversion H; subst a'. split; [|split; [reflexivity|exact Heta]].
           intros _. exists (x :: ss). split; [reflexivity|]. split; [discriminate|].
           split; [exact Hsum|apply validate_amounts_Ok; exact E].
        -- split; [intros e H; inversion H; reflexivity|]. split; discriminate.
    + split; [intros e H; inversion H; reflexivity|]. split; discriminate.
Qed.

Lemma post_init_set_weights (a a' : Activity.t) :
  Activity.post_init a = Ok a' -> a' = Activity.set_weights a (Activity.weights a').
Proof.
  unfold Activity.post_init. intros H.
  apply bind_Ok in H. destruct H as (_ & _ & H).
  destruct (blank (Activity.description a)); [discriminate|].
  destruct (Activity.participants a); [discriminate|].
  apply bind_Ok in H. destruct H as (_ & _ & H).
  apply (proj2 (proj2 (check_strategy_spec a)) a' H).
Qed.


(** ** Reconciliation *)

Lemma sorted_people_perm (b : Dict Decimal) : Permutation (sorted_people b) (dict_keys b).
Proof. unfold sorted_people, dict_keys. apply Permutation_map. apply sort_by_perm. Qed.

Lemma distribute_loop_ok (increment : Decimal) (people : list Person.t) :
  forall adj rem,
    (forall p, In p people -> In p (dict_keys adj)) ->
    exists adj', distribute_loop people adj rem increment = Ok adj' /\
                 dict_keys adj' = dict_keys adj.
Proof.
  induction people as [|q people IH]; intros adj rem Hk; simpl; [eauto|].
  destruct (Dec.eqb rem Dec.zero); [eauto|].
  destruct (dict_get_of_key adj q (Hk q (or_introl eq_refl))) as (v & Gv).
  rewrite Gv. cbn [bind].
  assert (K : dict_keys (dict_set adj q (Dec.add v increment)) = dict_keys adj)
    by (eapply dict_keys_set; exact Gv).
  destruct (IH (dict_set adj q (Dec.add v increment)) (Dec.sub rem increment))
    as (adj' & E & K').
  { intros p Hp. rewrite K. apply Hk. right. exact Hp. }
  exists adj'. split; [exact E|congruence].
Qed.

Lemma distribute_remainder_ok (b : Dict Decimal) (remainder tol : Decimal) :
  Dec.gtb (Dec.abs remainder) tol = false ->
  exists b', distribute_remainder b remainder tol = Ok b' /\ dict_keys b' = dict_keys b.
Proof.
  intros Hg. unfold distribute_remainder. rewrite Hg.
  destruct (Dec.eqb remainder Dec.zero); [eauto|].
  apply distribute_loop_ok. intros p Hp.
  eapply Permutation_in; [apply sorted_people_perm|exact Hp].
Qed.

(** X6. [distribute_remainder] raises RoundingError exactly when
    |remainder| exceeds the tolerance and raises nothing else; otherwise
    it returns balances over the same people in the same order. *)
Theorem distribute_remainder_outcome (b : Dict Decimal) (remainder tol : Decimal) :
  (Dec.gtb (Dec.abs remainder) tol = true ->
   distribute_remainder b remainder tol = Raise RoundingError) /\
  (Dec.gtb (Dec.abs remainder) tol = false ->
   exists b', distribute_remainder b remainder tol = Ok b' /\ dict_keys b' = dict_keys b).
Proof.
  split; [|apply distribute_remainder_ok].
  intros Hg. unfold distribute_remainder. rewrite Hg. reflexivity.
Qed.

Lemma gtb_of_leb (x y : Decimal) : Dec.leb x y = true -> Dec.gtb x y = false.
Proof.
  unfold Dec.gtb, Dec.ltb, Dec.leb. rewrite (compare_antisym y x).
  destruct (Dec.compare x y); simpl; congruence.
Qed.

Lemma ensure_zero_sum_keys (b : Dict Decimal) (tol : Decimal) :
  ensure_zero_sum b tol = Raise RoundingError \/
  exists b', ensure_zero_sum b tol = Ok b' /\ dict_keys b' = dict_keys b.
Proof.
  unfold ensure_zero_sum.
  destruct (Dec.leb (Dec.abs (Dec.sum (dict_values b))) tol) eqn:Hle; [right|left; reflexivity].
  destruct (Dec.eqb (Dec.sum (dict_values b)) Dec.zero); cbn [negb]; [eauto|].
  apply distribute_remainder_ok, gtb_of_leb, Hle.
Qed.

(** X7. [ensure_zero_sum] raises RoundingError exactly when the absolute
    total exceeds the tolerance and raises nothing else; otherwise it
    returns balances over the same people in the same order, and the
    balances themselves when the total is zero. *)
Theorem ensure_zero_sum_outcome (b : Dict Decimal) (tol : Decimal) :
  let total := Dec.sum (dict_values b) in
  (Dec.leb (Dec.abs total) tol = false -> ensure_zero_sum b tol = Raise RoundingError) /\
  (Dec.leb (Dec.abs total) tol = true ->
   exists b', ensure_zero_sum b tol = Ok b' /\ dict_keys b' = dict_keys b /\
              (deq total Dec.zero -> b' = b)).
Proof.
  intros total. unfold ensure_zero_sum. fold total.
  destruct (Dec.leb (Dec.abs total) tol) eqn:Hle.
  - split; [discriminate|]. intros _.
    destruct (Dec.eqb total Dec.zero) eqn:Hz; cbn [negb].
    + exists b. auto.
    + destruct (distribute_remainder_ok b total tol (gtb_of_leb _ _ Hle)) as (b' & E & K).
      exists b'. split; [exact E|]. split; [exact K|].
      intros Hd. unfold deq in Hd. unfold Dec.eqb in Hz. rewrite Hd in Hz. discriminate.
  - split; [reflexivity|discriminate].
Qed.

Lemma In_firstn {A : Type} (n : nat) (l : list A) (x : A) : In x (firstn n l) -> In x l.
Proof.
  intros H. rewrite <- (firstn_skipn n l). apply in_or_app. left. exact H.
Qed.

(** The remainder counted down one cent at a time. *)
Lemma step_towards_zero (r : Z) :
  r <> 0 -> Z.abs r < 10 ^ Dec.prec ->
  let inc := if Dec.gtb (Dec.mkDec r (-2)) Dec.zero then d_0_01 else d_m0_01 in
  Dec.coef inc = Z.sgn r /\
  Dec.sub (Dec.mkDec r (-2)) inc = Dec.mkDec (r - Z.sgn r) (-2).
Proof.
  intros Hr Hf. unfold Dec.gtb, Dec.ltb. rewrite compare_zero_l. cbn [Dec.coef].
  destruct (Z.compare_spec 0 r) as [E|L|G]; [lia| |]; cbn zeta.
  - unfold d_0_01. cbn [Dec.coef]. split; [lia|].
    rewrite sub_cents by lia. f_equal. lia.
  - unfold d_m0_01. cbn [Dec.coef]. split; [lia|].
    rewrite sub_cents by lia. f_equal. lia.
Qed.

Lemma distribute_loop_spec (inc : Decimal) (people : list Person.t) :
  forall adj r adj',
    NoDup people -> Z.abs r < 10 ^ Dec.prec ->
    (r <> 0 -> Dec.coef inc = Z.sgn r /\ Dec.exp inc = -2) ->
    distribute_loop people adj (Dec.mkDec r (-2)) inc = Ok adj' ->
    forall p v, dict_get adj p = Ok v ->
      dict_get adj' p =
        Ok (if existsb (Person.eqb p) (firstn (Z.to_nat (Z.abs r)) people)
            then Dec.add v inc else v).
Proof.
  induction people as [|q people IH]; intros adj r adj' Hnd Hf Hinc H p v Gp; simpl in H.
  - inversion H; subst. rewrite firstn_nil. simpl. exact Gp.
  - unfold Dec.eqb in H. rewrite compare_zero_r in H. cbn [Dec.coef] in H.
    destruct (Z.compare_spec r 0) as [E|L|G].
    + inversion H; subst. simpl. exact Gp.
    + apply bind_Ok in H. destruct H as (w & Gq & H).
      destruct (Hinc ltac:(lia)) as [Hc He].
      assert (Es : Dec.sub (Dec.mkDec r (-2)) inc = Dec.mkDec (r - Z.sgn r) (-2)).
      { destruct inc as [ci ei]; cbn [Dec.coef Dec.exp] in *. subst ci ei.
        rewrite sub_cents by lia. reflexivity. }
      rewrite Es in H. inversion Hnd as [|? ? Hnin Hnd']; subst.
      assert (Hf' : Z.abs (r - Z.sgn r) < 10 ^ Dec.prec) by lia.
      assert (Hinc' : r - Z.sgn r <> 0 -> Dec.coef inc = Z.sgn (r - Z.sgn r) /\ Dec.exp inc = -2)
        by (intros; split; [lia|exact He]).
      replace (Z.to_nat (Z.abs r)) with (S (Z.to_nat (Z.abs (r - Z.sgn r)))) by lia.
      cbn [firstn existsb].
      destruct (Person_eqb_spec p q) as [->|Hne]; cbn [orb].
      * rewrite Gq in Gp. inversion Gp; subst w.
        assert (Hq : existsb (Person.eqb q) (firstn (Z.to_nat (Z.abs (r - Z.sgn r))) people) = false).
        { apply not_true_is_false. intros Hex. apply existsb_eqb_In in Hex.
          apply Hnin. eapply In_firstn; exact Hex. }
        pose proof (IH _ _ _ Hnd' Hf' Hinc' H q _
                      (dict_get_set_same adj q (Dec.add v inc))) as R.
        rewrite Hq in R. exact R.
      * apply (IH _ _ _ Hnd' Hf' Hinc' H).
        rewrite dict_get_set_other by exact Hne. exact Gp.
    + apply bind_Ok in H. destruct H as (w & Gq & H).
      destruct (Hinc ltac:(lia)) as [Hc He].
      assert (Es : Dec.sub (Dec.mkDec r (-2)) inc = Dec.mkDec (r - Z.sgn r) (-2)).
      { destruct inc as [ci ei]; cbn [Dec.coef Dec.exp] in *. subst ci ei.
        rewrite sub_cents by lia. reflexivity. }
      rewrite Es in H. inversion Hnd as [|? ? Hnin Hnd']; subst.
      assert (Hf' : Z.abs (r - Z.sgn r) < 10 ^ Dec.prec) by lia.
      assert (Hinc' : r - Z.sgn r <> 0 -> Dec.coef inc = Z.sgn (r - Z.sgn r) /\ Dec.exp inc = -2)
        by (intros; split; [lia|exact He]).
      replace (Z.to_nat (Z.abs r)) with (S (Z.to_nat (Z.abs (r - Z.sgn r)))) by lia.
      cbn [firstn existsb].
      destruct (Person_eqb_spec p q) as [->|Hne]; cbn [orb].
      * rewrite Gq in Gp. inversion Gp; subst w.
        assert (Hq : existsb (Person.eqb q) (firstn (Z.to_nat (Z.abs (r - Z.sgn r))) people) = false).
        { apply not_true_is_false. intros Hex. apply existsb_eqb_In in Hex.
          apply Hnin. eapply In_firstn; exact Hex. }
        pose proof (IH _ _ _ Hnd' Hf' Hinc' H q _
                      (dict_get_set_same adj q (Dec.add v inc))) as R.
        rewrite Hq in R. exact R.
      * apply (IH _ _ _ Hnd' Hf' Hinc' H).
        rewrite dict_get_set_other by exact Hne. exact Gp.
Qed.

(** X8. For a remainder of [k] cents within the tolerance, on a dict
    without repeated keys: [distribute_remainder] adds one increment of
    0.01 (of the sign of the remainder) to each of the first [|k|] people
    in the order of (absolute balance, name, id), and leaves every other
    balance as it is. *)
Theorem distribute_remainder_spec (b b' : Dict Decimal) (remainder tol : Decimal) :
  dict_wf b -> quantized remainder ->
  distribute_remainder b remainder tol = Ok b' ->
  dict_keys b' = dict_keys b /\
  forall p v, dict_get b p = Ok v ->
    dict_get b' p =
      Ok (if existsb (Person.eqb p) (adjusted_people b remainder)
          then Dec.add v (increment_of remainder) else v).
Proof.
  intros Hwf Hq H.
  assert (K : dict_keys b' = dict_keys b).
  { destruct (Dec.gtb (Dec.abs remainder) tol) eqn:Hg.
    - unfold distribute_remainder in H. rewrite Hg in H. discriminate.
    - destruct (distribute_remainder_ok b remainder tol Hg) as (b2 & E & K).
      congruence. }
  split; [exact K|]. intros p v Gp.
  unfold distribute_remainder in H.
  destruct (Dec.gtb (Dec.abs remainder) tol); [discriminate|].
  unfold adjusted_people, increment_of.
  rewrite (quantized_eta remainder Hq) in *. destruct Hq as [_ Hf]. unfold fits in Hf.
  set (r := Dec.coef remainder) in *. cbn [Dec.coef].
  unfold Dec.eqb in H. rewrite compare_zero_r in H. cbn [Dec.coef] in H.
  destruct (Z.compare_spec r 0) as [E|L|G].
  - inversion H; subst b'. rewrite E. simpl. exact Gp.
  - eapply distribute_loop_spec; [| |intros Hr|exact H|exact Gp].
    + eapply Permutation_NoDup; [symmetry; apply sorted_people_perm|exact Hwf].
    + exact Hf.
    + destruct (step_towards_zero r Hr Hf) as [Hc _]. split; [exact Hc|].
      destruct (Dec.gtb _ _); reflexivity.
  - eapply distribute_loop_spec; [| |intros Hr|exact H|exact Gp].
    + eapply Permutation_NoDup; [symmetry; apply sorted_people_perm|exact Hwf].
    + exact Hf.
    + destruct (step_towards_zero r Hr Hf) as [Hc _]. split; [exact Hc|].
      destruct (Dec.gtb _ _); reflexivity.
Qed.

Lemma one_cent_short_wf : dict_wf one_cent_short.
Proof.
  unfold dict_wf, one_cent_short; simpl.
  constructor; [simpl; intros [E|[]]; discriminate|].
  constructor; [simpl; tauto|constructor].
Qed.

Lemma distribute_remainder_spec_witness :
  dict_wf one_cent_short /\ quantized d_0_01 /\
  distribute_remainder one_cent_short d_0_01 d_0_01 = Ok one_cent_adjusted /\
  dict_keys one_cent_adjusted = dict_keys one_cent_short /\
  forall p v, dict_get one_cent_short p = Ok v ->
    dict_get one_cent_adjusted p =
      Ok (if existsb (Person.eqb p) (adjusted_people one_cent_short d_0_01)
          then Dec.add v (increment_of d_0_01) else v).
Proof.
  assert (Hq : quantized d_0_01) by (split; reflexivity).
  split; [exact one_cent_short_wf|]. split; [exact Hq|]. split; [reflexivity|].
  apply (distribute_remainder_spec one_cent_short one_cent_adjusted d_0_01 d_0_01
           one_cent_short_wf Hq).
  reflexivity.
Defined.

(** ** Referential integrity of an Event *)

Lemma is_member_In (e : Event.t) (p : Person.t) :
  Event.is_member e p = true <-> In p (Event.people e).
Proof. apply existsb_eqb_In. Qed.

Lemma check_members_Ok (e : Event.t) (payer : Payer) (participants : list Person.t) :
  Event.check_members e payer participants = Ok tt ->
  (forall p, In p participants -> In p (Event.people e)) /\
  (forall p, In p (match payer with Single q => [q] | Multi l => map fst l end) ->
     In p (Event.people e)).
Proof.
  unfold Event.check_members. intros H.
  apply bind_Ok in H. destruct H as ([] & H1 & H2).
  split.
  - destruct (forallb (Event.is_member e) participants) eqn:E; [|discriminate].
    rewrite forallb_forall in E. intros p Hp. apply is_member_In. apply E. exact Hp.
  - destruct payer as [q|l].
    + destruct (Event.is_member e q) eqn:E; [|discriminate].
      intros p [<-|[]]. apply is_member_In. exact E.
    + destruct (forallb _ l) eqn:E; [|discriminate].
      rewrite forallb_forall in E. intros p Hp. apply in_map_iff in Hp.
      destruct Hp as (x & <- & Hx). apply is_member_In. apply (E x Hx).
Qed.

Lemma add_activity_integrity (e : Event.t) :
  referential_integrity e ->
  forall description amount payer participants split_strategy weights shares fresh,
    referential_integrity
      (snd (Event.add_activity e description amount payer participants
              split_strategy weights shares fresh)).
Proof.
  intros Hi description amount payer participants split_strategy weights shares fresh.
  unfold Event.add_activity.
  destruct (Event.check_members e payer participants) as [[]| |] eqn:Hm; simpl;
    try exact Hi.
  destruct (SplitStrategy_of_string split_strategy) as [st| |]; simpl; try exact Hi.
  destruct (Activity.post_init _) as [act| |] eqn:Hp; simpl; try exact Hi.
  pose proof (post_init_set_weights _ act Hp) as Eact.
  destruct (check_members_Ok e payer participants Hm) as [M1 M2].
  intros a Ha. simpl in Ha. apply in_app_or in Ha. destruct Ha as [Ha|[<-|[]]].
  - apply Hi. exact Ha.
  - rewrite Eact. unfold Activity.get_payers. simpl. split; [exact M1|].
    destruct payer as [q|l]; exact M2.
Qed.

(** X9. Referential integrity is kept by [add_person] and by
    [add_activity], whether they return or raise: in an Event built by
    these two, every participant and every payer of every activity is one
    of the Event's people. *)
Theorem integrity_kept (e : Event.t) :
  referential_integrity e ->
  (forall nm fresh, referential_integrity (snd (Event.add_person e nm fresh))) /\
  (forall description amount payer participants split_strategy weights shares fresh,
     referential_integrity
       (snd (Event.add_activity e description amount payer participants
               split_strategy weights shares fresh))).
Proof.
  intros Hi. split; [|apply add_activity_integrity; exact Hi].
  intros nm fresh. unfold Event.add_person.
  destruct (Person.make nm fresh) as [p| |]; simpl; try exact Hi.
  intros a Ha. destruct (Hi a Ha) as [H1 H2]. simpl in *.
  split; intros q Hq; apply in_or_app; left; auto.
Qed.

Lemma integrity_kept_witness :
  referential_integrity (event0 [alice; bob; carol]) /\
  referential_integrity (dinner_event [alice; bob; carol]).
Proof.
  assert (H : referential_integrity (event0 [alice; bob; carol])) by (intros a []).
  split; [exact H|].
  apply (proj2 (integrity_kept (event0 [alice; bob; carol]) H)).
Defined.

(** ** compute_net_balances on an Event with referential integrity *)

Lemma dict_keys_set_new {V : Type} (d : Dict V) (k : Person.t) (v : V) :
  dict_mem d k = false -> dict_keys (dict_set d k v) = dict_keys d ++ [k].
Proof.
  unfold dict_keys. induction d as [|[k' v'] d IH]; simpl; [reflexivity|].
  destruct (Person.eqb k k'); simpl; [discriminate|].
  intros H. rewrite IH by exact H. reflexivity.
Qed.

Lemma zero_dict_spec (people : list Person.t) :
  dict_wf (zero_dict people) /\
  (forall p, In p (dict_keys (zero_dict people)) <-> In p people) /\
  (NoDup people -> dict_keys (zero_dict people) = people).
Proof.
  unfold zero_dict.
  assert (G : forall d, dict_wf d ->
            dict_wf (fold_left (fun d p => dict_set d p Dec.zero) people d) /\
            (forall p, In p (dict_keys (fold_left (fun d p => dict_set d p Dec.zero) people d))
                       <-> In p (dict_keys d) \/ In p people) /\
            (NoDup (dict_keys d ++ people) ->
             dict_keys (fold_left (fun d p => dict_set d p Dec.zero) people d)
               = dict_keys d ++ people)).
  { induction people as [|q people IH]; intros d Hwf; simpl.
    - split; [exact Hwf|]. split; [intros p; tauto|]. intros _. symmetry. apply app_nil_r.
    - destruct (IH (dict_set d q Dec.zero) (dict_wf_set d q Dec.zero Hwf)) as (W & K & N).
      split; [exact W|]. split.
      + intros p. rewrite K. rewrite <- !dict_mem_In. rewrite dict_mem_set.
        rewrite orb_true_iff. rewrite !dict_mem_In.
        destruct (Person_eqb_spec p q) as [->|Hne];
          intuition (try discriminate; try congruence).
      + intros Hnd.
        assert (Hq : dict_mem d q = false).
        { apply not_true_is_false. intros Hm. apply dict_mem_In in Hm.
          apply NoDup_remove_2 in Hnd. apply Hnd. apply in_or_app. left. exact Hm. }
        rewrite N; rewrite (dict_keys_set_new d q Dec.zero Hq); rewrite <- app_assoc;
          simpl; [reflexivity|exact Hnd]. }
  destruct (G [] ltac:(constructor)) as (W & K & N).
  split; [exact W|]. split; [intros p; rewrite K; simpl; tauto|exact N].
Qed.

Lemma subtract_shares_ok (shares : list (Person.t * Decimal)) :
  forall b, (forall p, In p (map fst shares) -> In p (dict_keys b)) ->
    exists b', subtract_shares b shares = Ok b' /\ dict_keys b' = dict_keys b.
Proof.
  induction shares as [|[q s] shares IH]; intros b Hk; simpl; [eauto|].
  destruct (dict_get_of_key b q (Hk q (or_introl eq_refl))) as (v & Gv).
  rewrite Gv. cbn [bind].
  assert (K : dict_keys (dict_set b q (Dec.sub v s)) = dict_keys b)
    by (eapply dict_keys_set; exact Gv).
  destruct (IH (dict_set b q (Dec.sub v s))) as (b' & E & K').
  { intros p Hp. rewrite K. apply Hk. right. exact Hp. }
  exists b'. split; [exact E|congruence].
Qed.

Lemma add_amounts_ok (items : list (Person.t * Decimal)) :
  forall b, (forall p, In p (map fst items) -> In p (dict_keys b)) ->
    exists b', add_amounts b items = Ok b' /\ dict_keys b' = dict_keys b.
Proof.
  induction items as [|[q s] items IH]; intros b Hk; simpl; [eauto|].
  destruct (dict_get_of_key b q (Hk q (or_introl eq_refl))) as (v & Gv).
  rewrite Gv. cbn [bind].
  assert (K : dict_keys (dict_set b q (Dec.add v s)) = dict_keys b)
    by (eapply dict_keys_set; exact Gv).
  destruct (IH (dict_set b q (Dec.add v s))) as (b' & E & K').
  { intros p Hp. rewrite K. apply Hk. right. exact Hp. }
  exists b'. split; [exact E|congruence].
Qed.

Lemma all_shares_loop_raises (a : Activity.t) (ps : list Person.t) :
  forall acc,
    (forall e, all_shares_loop a ps acc = Raise e -> e = StrategyError \/ e = InvalidOperation) /\
    all_shares_loop a ps acc <> Timeout.
Proof.
  induction ps as [|q ps IH]; intros acc; simpl; [split; discriminate|].
  destruct (participant_share_cases a q) as (_ & He & Ht & _).
  destruct (compute_participant_share a q) as [s|e|]; cbn [bind].
  - apply IH.
  - split; [intros e' H; inversion H; subst; apply He; reflexivity|discriminate].
  - contradiction.
Qed.

Lemma balances_loop_outcome (p_ok : Person.t -> Prop) (activities : list Activity.t) :
  (forall a, In a activities ->
     (forall p, In p (Activity.participants a) -> p_ok p) /\
     (forall p, In p (map fst (Activity.get_payers a)) -> p_ok p)) ->
  forall b, (forall p, p_ok p -> In p (dict_keys b)) ->
    (forall e, balances_loop activities b = Raise e ->
       e = StrategyError \/ e = InvalidOperation) /\
    balances_loop activities b <> Timeout /\
    (forall b', balances_loop activities b = Ok b' -> dict_keys b' = dict_keys b).
Proof.
  induction activities as [|a activities IH]; intros Hi b Hk; simpl.
  - split; [discriminate|]. split; [discriminate|]. intros b' H. inversion H. reflexivity.
  - destruct (Hi a (or_introl eq_refl)) as [Hp Hq].
    destruct (all_shares_loop_raises a (Activity.participants a) []) as [He Ht].
    fold (compute_all_shares a) in He, Ht.
    destruct (compute_all_shares a) as [shares|e|] eqn:Es; cbn [bind].
    + destruct (subtract_shares_ok shares b) as (b1 & E1 & K1).
      { intros p Hin. apply Hk, Hp. eapply compute_all_shares_keys; eauto. }
      rewrite E1. cbn [bind].
      destruct (add_amounts_ok (Activity.get_payers a) b1) as (b2 & E2 & K2).
      { intros p Hin. rewrite K1. apply Hk, Hq. exact Hin. }
      rewrite E2. cbn [bind].
      destruct (IH (fun a' Ha' => Hi a' (or_intror Ha')) b2) as (R & T & O).
      { intros p Hp'. rewrite K2, K1. apply Hk. exact Hp'. }
      split; [exact R|]. split; [exact T|]. intros b' H. rewrite (O b' H). congruence.
    + split; [intros e' H; inversion H; subst; apply He; reflexivity|].
      split; discriminate.
    + contradiction.
Qed.

Lemma round_items_outcome (d : Dict Decimal) :
  (forall e, dict_map_items (fun v => round_money v 2) d = Raise e -> e = InvalidOperation) /\
  dict_map_items (fun v => round_money v 2) d <> Timeout /\
  (forall d', dict_map_items (fun v => round_money v 2) d = Ok d' ->
     dict_keys d' = dict_keys d /\ quantized_dict d').
Proof.
  induction d as [|[k v] d (R & T & O)]; simpl.
  - split; [discriminate|]. split; [discriminate|].
    intros d' H. inversion H. split; [reflexivity|constructor].
  - destruct (round_money v 2) as [r|e|] eqn:E; cbn [bind].
    + destruct (dict_map_items _ d) as [d1|e1|]; cbn [bind].
      * split; [discriminate|]. split; [discriminate|].
        intros d' H. inversion H; subst d'. destruct (O d1 eq_refl) as [K Q].
        split; [unfold dict_keys in *; simpl; congruence|].
        constructor; [eapply round_money_out; exact E|exact Q].
      * split; [intros e' H; inversion H; subst; apply R; reflexivity|]. split; discriminate.
      * contradiction.
    + split; [intros e' H; inversion H; subst; eapply round_money_raises; exact E|].
      split; discriminate.
    + exfalso. unfold round_money, Dec.quantize in E.
      destruct (Dec.coef v =? 0); [discriminate|].
      destruct (Dec.prec <? _); [discriminate|].
      destruct (Dec.prec <? _); discriminate.
Qed.

Lemma net_balances_keys (event : Event.t) (b : Dict Decimal) :
  referential_integrity event ->
  compute_net_balances event = Ok b ->
  dict_wf b /\
  (forall p, In p (dict_keys b) <-> In p (Event.people event)) /\
  (NoDup (Event.people event) -> dict_keys b = Event.people event).
Proof.
  intros Hi H. destruct (zero_dict_spec (Event.people event)) as (W0 & K0 & N0).
  unfold compute_net_balances, rounded_balances in H.
  apply bind_Ok in H. destruct H as (b2 & H & H3).
  apply bind_Ok in H. destruct H as (b1 & H1 & H2).
  destruct (balances_loop_outcome (fun p => In p (Event.people event))
              (Event.activities event) Hi (zero_dict (Event.people event)))
    as (_ & _ & O1); [intros p Hp; apply K0; exact Hp|].
  pose proof (O1 b1 H1) as K1.
  destruct (round_items_outcome b1) as (_ & _ & O2).
  destruct (O2 b2 H2) as [K2 _].
  assert (K : dict_keys b = dict_keys (zero_dict (Event.people event))).
  { destruct (ensure_zero_sum_keys b2 d_0_02) as [Z|(b3 & E3 & K3)]; congruence. }
  split; [unfold dict_wf; rewrite K; exact W0|].
  split; [intros p; rewrite K; apply K0|].
  intros Hnd. rewrite K. apply N0. exact Hnd.
Qed.

(** X10. On an Event with referential integrity [compute_net_balances]
    raises no KeyError: its only errors are StrategyError (a participant
    the strategy data does not cover), InvalidOperation (an amount beyond
    the precision) and RoundingError (rounded balances further than 0.02
    from zero). When it returns, the mapping has exactly the Event's
    people as keys, each once, in the order of the people list. *)
Theorem net_balances_outcome (event : Event.t) :
  referential_integrity event ->
  (forall e, compute_net_balances event = Raise e ->
     e = StrategyError \/ e = InvalidOperation \/ e = RoundingError) /\
  compute_net_balances event <> Timeout /\
  (forall b, compute_net_balances event = Ok b ->
     dict_wf b /\
     (forall p, In p (dict_keys b) <-> In p (Event.people event)) /\
     (NoDup (Event.people event) -> dict_keys b = Event.people event)).
Proof.
  intros Hi. split; [|split; [|intros b H; apply net_balances_keys; assumption]].
  - intros e H. unfold compute_net_balances, rounded_balances in H.
    apply bind_Raise in H. destruct H as [H|(b2 & _ & H)].
    + apply bind_Raise in H. destruct H as [H|(b1 & _ & H)].
      * destruct (zero_dict_spec (Event.people event)) as (_ & K0 & _).
        destruct (balances_loop_outcome (fun p => In p (Event.people event))
                    (Event.activities event) Hi (zero_dict (Event.people event)))
          as (R1 & _ & _); [intros p Hp; apply K0; exact Hp|].
        destruct (R1 e H); auto.
      * right; left. apply (proj1 (round_items_outcome b1)). exact H.
    + destruct (ensure_zero_sum_keys b2 d_0_02) as [Z|(b3 & E3 & _)]; [|congruence].
      rewrite Z in H. inversion H. auto.
  - intros H. unfold compute_net_balances, rounded_balances in H.
    destruct (zero_dict_spec (Event.people event)) as (_ & K0 & _).
    destruct (balances_loop_outcome (fun p => In p (Event.people event))
                (Event.activities event) Hi (zero_dict (Event.people event)))
      as (_ & T1 & _); [intros p Hp; apply K0; exact Hp|].
    destruct (balances_loop _ _) as [b1|e1|]; cbn [bind] in H; [|discriminate|contradiction].
    destruct (round_items_outcome b1) as (_ & T2 & _).
    destruct (dict_map_items _ b1) as [b2|e2|]; cbn [bind] in H; [|discriminate|contradiction].
    destruct (ensure_zero_sum_keys b2 d_0_02) as [Z|(b3 & E3 & _)]; congruence.
Qed.

Lemma net_balances_outcome_witness :
  referential_integrity carol_absent_event /\
  compute_net_balances carol_absent_event = Ok carol_absent_balances /\
  dict_wf carol_absent_balances /\
  (forall p, In p (dict_keys carol_absent_balances) <-> In p (Event.people carol_absent_event)) /\
  (NoDup (Event.people carol_absent_event) ->
   dict_keys carol_absent_balances = Event.people carol_absent_event).
Proof.
  assert (H : referential_integrity carol_absent_event).
  { apply (add_activity_integrity (event0 [alice; bob; carol])). intros a []. }
  split; [exact H|]. split; [reflexivity|].
  apply (proj2 (proj2 (net_balances_outcome carol_absent_event H)) carol_absent_balances).
  reflexivity.
Defined.

(** ** The settlement summary *)

Lemma summary_loop_spec (pd od bal : Dict Decimal) (people : list Person.t) :
  forall acc s,
    summary_loop people pd od bal acc = Ok s ->
    dict_wf acc ->
    (forall p row, dict_get acc p = Ok row -> summary_row_ok bal p row) ->
    dict_wf s /\
    (forall p, In p (dict_keys s) <-> In p (dict_keys acc) \/ In p people) /\
    (NoDup (dict_keys acc ++ people) -> dict_keys s = dict_keys acc ++ people) /\
    (forall p row, dict_get s p = Ok row -> summary_row_ok bal p row).
Proof.
  induction people as [|q people IH]; intros acc s H Hwf Hrows; simpl in H.
  - inversion H; subst s. split; [exact Hwf|]. split; [intros p; simpl; tauto|].
    split; [intros _; symmetry; apply app_nil_r|exact Hrows].
  - apply bind_Ok in H. destruct H as (x1 & H1 & H).
    apply bind_Ok in H. destruct H as (x2 & H2 & H).
    apply bind_Ok in H. destruct H as (x3 & H3 & H).
    apply bind_Ok in H. destruct H as (x4 & H4 & H).
    apply bind_Ok in H. destruct H as (x5 & H5 & H).
    destruct (IH _ _ H (dict_wf_set acc q _ Hwf)) as (W & K & N & R).
    { intros p row G. destruct (Person_eqb_spec p q) as [E|Hne].
      - subst p. rewrite dict_get_set_same in G. inversion G; subst row.
        split; [exact H5|]. split; eapply round_money_out; eassumption.
      - rewrite dict_get_set_other in G by exact Hne. apply Hrows. exact G. }
    split; [exact W|]. split; [|split; [|exact R]].
    + intros p. rewrite K. rewrite <- !dict_mem_In. rewrite dict_mem_set.
      rewrite orb_true_iff. rewrite !dict_mem_In. simpl.
      destruct (Person_eqb_spec p q) as [->|Hne];
        intuition (try discriminate; try congruence).
    + intros Hnd.
      assert (Hq : dict_mem acc q = false).
      { apply not_true_is_false. intros Hm. apply dict_mem_In in Hm.
        apply NoDup_remove_2 in Hnd. apply Hnd. apply in_or_app. left. exact Hm. }
      rewrite N; rewrite (dict_keys_set_new acc q _ Hq); rewrite <- app_assoc;
        simpl; [reflexivity|exact Hnd].
Qed.

(** X11. When [compute_settlement_summary] returns, the summary has one
    row for each of the Event's people and for nobody else; for people
    without repetition the rows are in the order of (name, id). In every
    row the net is the balance passed in for that person, and paid and
    owed are rounded to two decimals. *)
Theorem summary_rows (event : Event.t) (balances : Dict Decimal) (s : Dict SummaryRow) :
  compute_settlement_summary event balances = Ok s ->
  dict_wf s /\
  (forall p, In p (dict_keys s) <-> In p (Event.people event)) /\
  (NoDup (Event.people event) ->
   dict_keys s = sort_by person_key (Event.people event)) /\
  (forall p row, dict_get s p = Ok row -> summary_row_ok balances p row).
Proof.
  unfold compute_settlement_summary. intros H.
  apply bind_Ok in H. destruct H as ([pd od] & _ & H).
  destruct (summary_loop_spec pd od balances _ [] s H) as (W & K & N & R).
  { constructor. }
  { intros p row G. discriminate. }
  split; [exact W|]. split; [|split; [|exact R]].
  - intros p. rewrite K. rewrite sort_by_In. simpl. tauto.
  - intros Hnd. apply N. simpl.
    eapply Permutation_NoDup; [symmetry; apply sort_by_perm|exact Hnd].
Qed.

Lemma summary_rows_witness :
  compute_settlement_summary carol_absent_event carol_absent_balances
    = Ok carol_absent_summary /\
  dict_wf carol_absent_summary /\
  (forall p, In p (dict_keys carol_absent_summary)
             <-> In p (Event.people carol_absent_event)) /\
  (NoDup (Event.people carol_absent_event) ->
   dict_keys carol_absent_summary = sort_by person_key (Event.people carol_absent_event)) /\
  (forall p row, dict_get carol_absent_summary p = Ok row ->
     summary_row_ok carol_absent_balances p row).
Proof.
  split; [reflexivity|].
  apply (summary_rows carol_absent_event carol_absent_balances carol_absent_summary).
  reflexivity.
Defined.

(** ** The transfers follow the balances *)

Lemma transfer_sound_step (wb : Dict Decimal) (cp dp : Person.t) (cb db : Decimal)
    (t : SettlementTransfer.t) :
  dict_wf wb -> quantized_dict wb ->
  In (cp, cb) wb -> In (dp, db) wb -> cp <> dp ->
  0 < Dec.coef cb -> Dec.coef db < 0 ->
  let a := Z.min (Dec.coef cb) (- Dec.coef db) in
  transfer_sound
    (dict_set (dict_set wb cp (Dec.mkDec (Dec.coef cb - a) (-2)))
       dp (Dec.mkDec (Dec.coef db + a) (-2))) t ->
  transfer_sound wb t.
Proof.
  intros Hwf Hq Hc Hd Hne Hcb Hdb a (vf & vt & Gf & Gt & Hf & Ht & Q & Ha & Haf & Hat).
  pose proof (dict_get_In wb cp cb Hwf Hc) as Gc.
  pose proof (dict_get_In wb dp db Hwf Hd) as Gd.
  assert (Old : forall p v1,
            dict_get (dict_set (dict_set wb cp (Dec.mkDec (Dec.coef cb - a) (-2)))
                        dp (Dec.mkDec (Dec.coef db + a) (-2))) p = Ok v1 ->
            exists v, dict_get wb p = Ok v /\
                      (Dec.coef v1 < 0 -> Dec.coef v <= Dec.coef v1) /\
                      (0 < Dec.coef v1 -> Dec.coef v1 <= Dec.coef v)).
  { intros p v1 G. destruct (Person_eqb_spec p dp) as [E|Hn1].
    - subst p. rewrite dict_get_set_same in G. inversion G; subst v1.
      exists db. split; [exact Gd|]. cbn [Dec.coef]. unfold a. lia.
    - rewrite dict_get_set_other in G by exact Hn1.
      destruct (Person_eqb_spec p cp) as [E|Hn2].
      + subst p. rewrite dict_get_set_same in G. inversion G; subst v1.
        exists cb. split; [exact Gc|]. cbn [Dec.coef]. unfold a. lia.
      + rewrite dict_get_set_other in G by exact Hn2.
        exists v1. split; [exact G|]. lia. }
  destruct (Old _ _ Gf) as (vf0 & Gf0 & Hf0 & _).
  destruct (Old _ _ Gt) as (vt0 & Gt0 & _ & Ht0).
  exists vf0, vt0. repeat split; try assumption; try apply Q; lia.
Qed.

Lemma greedy_loop_sound (tol : Decimal) :
  dle Dec.zero tol ->
  forall fuel wb acc wb' ts,
    dict_wf wb -> quantized_dict wb ->
    greedy_loop fuel wb tol acc = Ok (wb', ts) ->
    exists gen, ts = acc ++ gen /\ Forall (transfer_sound wb) gen.
Proof.
  intros Htol. induction fuel as [|fuel IH]; intros wb acc wb' ts Hwf Hq H;
    simpl in H; [discriminate|].
  destruct (greedy_step_quantized wb tol Hwf Hq Htol)
    as [E|(cp & cb & dp & db & r1 & r2 & _ & _ & Hc & Hd & Hne & Hcb & Hdb & E)].
  - rewrite E in H. cbn [bind] in H. inversion H; subst.
    exists []. split; [symmetry; apply app_nil_r|constructor].
  - cbv zeta in E. pose proof E as E0. rewrite E in H. cbn [bind] in H.
    destruct (greedy_step_progress wb tol _ _ Hwf Hq Htol E0) as (W' & Q' & _).
    destruct (IH _ _ _ _ W' Q' H) as (gen & -> & Hgen).
    exists (SettlementTransfer.mk dp cp
              (Dec.mkDec (Z.min (Dec.coef cb) (- Dec.coef db)) (-2)) :: gen).
    split; [rewrite <- app_assoc; reflexivity|].
    assert (Qc : quantized cb).
    { unfold quantized_dict in Hq. rewrite Forall_forall in Hq. apply (Hq (cp, cb) Hc). }
    constructor.
    + exists db, cb. cbn [SettlementTransfer.from_person SettlementTransfer.to_person
                          SettlementTransfer.amount Dec.coef].
      split; [apply dict_get_In; assumption|]. split; [apply dict_get_In; assumption|].
      split; [exact Hdb|]. split; [exact Hcb|].
      split; [|lia].
      apply quantized_mk. destruct Qc as [_ Hf]. unfold fits in Hf. lia.
    + eapply Forall_impl; [|exact Hgen].
      intros t Ht. eapply (transfer_sound_step wb cp dp cb db t); eassumption.
Qed.

Lemma transfers_follow_balances_aux (fuel : nat) (balances : Dict Decimal) (tol : Decimal)
    (ts : list SettlementTransfer.t) :
  dict_wf balances -> quantized_dict balances -> dle Dec.zero tol ->
  compute_minimal_transfers fuel balances tol = Ok ts ->
  forall t, In t ts -> transfer_sound balances t.
Proof.
  intros Hwf Hq Htol H. unfold compute_minimal_transfers in H.
  apply bind_Ok in H. destruct H as ([wb' gen] & Hl & H).
  destruct (exceeds tol wb'); [discriminate|]. inversion H; subst ts.
  destruct (greedy_loop_sound tol Htol _ _ _ _ _ Hwf Hq Hl) as (g & -> & Hg).
  simpl. rewrite Forall_forall in Hg. intros t Ht. apply Hg.
  apply (sort_by_In transfer_key g t). exact Ht.
Qed.

(** X12. For balances quantized to two decimals, without repeated keys,
    and a tolerance that is not negative: every transfer that
    [compute_minimal_transfers] returns goes from a person whose given
    balance is negative to a person whose given balance is positive, and
    its amount is a positive number of cents, no more than what the
    sender owes and no more than what the receiver is owed. *)
Theorem transfers_follow_balances (fuel : nat) (balances : Dict Decimal) (tol : Decimal)
    (ts : list SettlementTransfer.t) :
  dict_wf balances -> quantized_dict balances -> dle Dec.zero tol ->
  compute_minimal_transfers fuel balances tol = Ok ts ->
  Forall (transfer_sound balances) ts.
Proof.
  intros Hwf Hq Htol H. apply Forall_forall.
  eapply transfers_follow_balances_aux; eassumption.
Qed.

Lemma transfers_follow_balances_witness :
  dict_wf simple_balances /\ quantized_dict simple_balances /\ dle Dec.zero d_0_02 /\
  compute_minimal_transfers 10 simple_balances d_0_02
    = Ok [SettlementTransfer.mk bob alice (Dec.mkDec 5000 (-2))] /\
  Forall (transfer_sound simple_balances)
    [SettlementTransfer.mk bob alice (Dec.mkDec 5000 (-2))].
Proof.
  split; [exact simple_balances_wf|]. split; [exact simple_balances_quantized|].
  split; [exact tolerance_0_02_nonneg|]. split; [reflexivity|].
  apply (transfers_follow_balances 10 simple_balances d_0_02 _
           simple_balances_wf simple_balances_quantized tolerance_0_02_nonneg).
  reflexivity.
Defined.

(** ** Balances within the tolerance *)

Lemma gtb_abs (v tol : Decimal) :
  fits v -> Dec.gtb (Dec.abs v) tol = false -> Dec.gtb v tol = false.
Proof.
  intros Hf. rewrite (abs_fits v Hf). unfold Dec.gtb, Dec.ltb, Dec.compare.
  cbn [Dec.coef Dec.exp].
  set (m := Z.min (Dec.exp tol) (Dec.exp v)).
  assert (HP : 0 < 10 ^ (Dec.exp v - m)) by (apply Z.pow_pos_nonneg; unfold m; lia).
  destruct (Z.compare_spec (Dec.coef tol * 10 ^ (Dec.exp tol - m))
              (Z.abs (Dec.coef v) * 10 ^ (Dec.exp v - m))) as [E|E|E]; [|discriminate|];
    intros _;
    destruct (Z.compare_spec (Dec.coef tol * 10 ^ (Dec.exp tol - m))
                (Dec.coef v * 10 ^ (Dec.exp v - m))) as [E'|E'|E']; try reflexivity;
    exfalso; nia.
Qed.

Lemma no_creditors (tol : Decimal) (b : Dict Decimal) :
  fits_dict b -> exceeds tol b = false -> creditors_of b tol = [].
Proof.
  unfold fits_dict, exceeds, creditors_of.
  induction b as [|x b IH]; intros Hf He; simpl in *; [reflexivity|].
  inversion Hf as [|? ? Hx Hb]; subst.
  apply orb_false_iff in He. destruct He as [H1 H2].
  rewrite (gtb_abs _ _ Hx H1). apply IH; assumption.
Qed.

(** X13. Balances that all lie within the tolerance need no transfer:
    [compute_minimal_transfers] returns the empty list after one pass of
    its loop. *)
Theorem within_tolerance_no_transfers (fuel : nat) (balances : Dict Decimal)
    (tol : Decimal) :
  fits_dict balances -> exceeds tol balances = false ->
  compute_minimal_transfers (S fuel) balances tol = Ok [].
Proof.
  intros Hf He. unfold compute_minimal_transfers. cbn [greedy_loop].
  unfold greedy_step. rewrite (no_creditors tol balances Hf He). cbn [bind].
  rewrite He. reflexivity.
Qed.

Lemma within_tolerance_no_transfers_witness :
  fits_dict within_tolerance_balances /\
  exceeds d_0_02 within_tolerance_balances = false /\
  compute_minimal_transfers 1 within_tolerance_balances d_0_02 = Ok [].
Proof.
  assert (Hf : fits_dict within_tolerance_balances)
    by (repeat constructor).
  split; [exact Hf|]. split; [reflexivity|].
  apply (within_tolerance_no_transfers 0 within_tolerance_balances d_0_02 Hf).
  reflexivity.
Defined.

(** ** The returned dict is a new object *)

Lemma returns_dict_Ok (res : outcome ref * Store) (o : outcome (Dict Decimal)) (r : ref) :
  returns_dict res o -> fst res = Ok r -> o = Ok (deref (snd res) r).
Proof.
  unfold returns_dict. intros H E. destruct o as [d|e|].
  - destruct H as (r' & E' & D). rewrite E in E'. inversion E'; subst r'. congruence.
  - congruence.
  - congruence.
Qed.

(** X14. The dict that [ensure_zero_sum] or [distribute_remainder]
    returns is a new object, none of those that existed when the function
    was called (so not the caller's balances, also when there is nothing
    to distribute), and it holds the balances the function computes from
    the items of its argument. *)
Theorem result_is_new_object (s : Store) (balances : ref) :
  (forall tolerance r,
     fst (Imp.ensure_zero_sum balances tolerance s) = Ok r ->
     (List.length s <= r)%nat /\
     ensure_zero_sum (deref s balances) tolerance
       = Ok (deref (snd (Imp.ensure_zero_sum balances tolerance s)) r)) /\
  (forall remainder tolerance r,
     fst (Imp.distribute_remainder balances remainder tolerance s) = Ok r ->
     (List.length s <= r)%nat /\
     distribute_remainder (deref s balances) remainder tolerance
       = Ok (deref (snd (Imp.distribute_remainder balances remainder tolerance s)) r)).
Proof.
  split.
  - intros tol r E. split.
    + destruct (preserves_ensure_zero_sum (List.length s) balances tol s (le_n _))
        as (_ & _ & H). apply H. exact E.
    + apply returns_dict_Ok; [apply ensure_zero_sum_refines|exact E].
  - intros rem tol r E. split.
    + destruct (preserves_distribute_remainder (List.length s) balances rem tol s (le_n _))
        as (_ & _ & H). apply H. exact E.
    + apply returns_dict_Ok; [apply distribute_remainder_refines|exact E].
Qed.

(** ** Event.compute_settlement *)

Lemma balances_loop_shares (activities : list Activity.t) :
  forall b b', balances_loop activities b = Ok b' ->
    forall a, In a activities -> exists shares, compute_all_shares a = Ok shares.
Proof.
  induction activities as [|a0 activities IH]; intros b b' H a Ha; simpl in *; [contradiction|].
  apply bind_Ok in H. destruct H as (shares & Hs & H).
  apply bind_Ok in H. destruct H as (b1 & _ & H).
  apply bind_Ok in H. destruct H as (b2 & _ & H).
  destruct Ha as [<-|Ha]; [eauto|]. eapply IH; eassumption.
Qed.

Lemma paid_owed_loop_ok (p_ok : Person.t -> Prop) (activities : list Activity.t) :
  (forall a, In a activities ->
     (forall p, In p (Activity.participants a) -> p_ok p) /\
     (forall p, In p (map fst (Activity.get_payers a)) -> p_ok p)) ->
  (forall a, In a activities -> exists shares, compute_all_shares a = Ok shares) ->
  forall pd od,
    (forall p, p_ok p -> In p (dict_keys pd)) ->
    (forall p, p_ok p -> In p (dict_keys od)) ->
    exists pd' od', paid_owed_loop activities pd od = Ok (pd', od') /\
                    dict_keys pd' = dict_keys pd /\ dict_keys od' = dict_keys od.
Proof.
  induction activities as [|a activities IH]; intros Hi Hs pd od Kp Ko; simpl; [eauto|].
  destruct (Hi a (or_introl eq_refl)) as [Hp Hq].
  destruct (add_amounts_ok (Activity.get_payers a) pd) as (pd1 & E1 & K1).
  { intros p Hin. apply Kp, Hq. exact Hin. }
  rewrite E1. cbn [bind].
  destruct (Hs a (or_introl eq_refl)) as (shares & Es). rewrite Es. cbn [bind].
  destruct (add_amounts_ok shares od) as (od1 & E2 & K2).
  { intros p Hin. apply Ko, Hp. eapply compute_all_shares_keys; eauto. }
  rewrite E2. cbn [bind].
  destruct (IH (fun a' Ha' => Hi a' (or_intror Ha')) (fun a' Ha' => Hs a' (or_intror Ha'))
              pd1 od1) as (pd' & od' & E & K1' & K2').
  { intros p Hp'. rewrite K1. apply Kp. exact Hp'. }
  { intros p Hp'. rewrite K2. apply Ko. exact Hp'. }
  exists pd', od'. split; [exact E|]. split; congruence.
Qed.

Lemma round_money_cases (x : Decimal) :
  round_money x 2 = Raise InvalidOperation \/ exists r, round_money x 2 = Ok r.
Proof.
  destruct (round_money x 2) as [r|e|] eqn:E; [eauto| |].
  - left. rewrite (round_money_raises x 2 e E). reflexivity.
  - exfalso. unfold round_money, Dec.quantize in E.
    destruct (Dec.coef x =? 0); [discriminate|].
    destruct (Dec.prec <? _); [discriminate|].
    destruct (Dec.prec <? _); discriminate.
Qed.

Lemma summary_loop_cases (pd od bal : Dict Decimal) (people : list Person.t) :
  (forall p, In p people ->
     In p (dict_keys pd) /\ In p (dict_keys od) /\ In p (dict_keys bal)) ->
  forall acc,
    summary_loop people pd od bal acc = Raise InvalidOperation \/
    exists s, summary_loop people pd od bal acc = Ok s.
Proof.
  induction people as [|q people IH]; intros Hk acc; simpl; [eauto|].
  destruct (Hk q (or_introl eq_refl)) as (K1 & K2 & K3).
  destruct (dict_get_of_key pd q K1) as (v1 & ->). cbn [bind].
  destruct (round_money_cases v1) as [->|(r1 & ->)]; cbn [bind]; [auto|].
  destruct (dict_get_of_key od q K2) as (v2 & ->). cbn [bind].
  destruct (round_money_cases v2) as [->|(r2 & ->)]; cbn [bind]; [auto|].
  destruct (dict_get_of_key bal q K3) as (v3 & ->). cbn [bind].
  apply IH. intros p Hp. apply Hk. right. exact Hp.
Qed.

(** X15. [Event.compute_settlement] on an Event with referential
    integrity whose net balances are two-decimal amounts within the
    precision: once the net balances are computed, the loop of
    [compute_minimal_transfers] ends within as many passes as the Event
    has people, and the call either raises RoundingError or
    InvalidOperation, or returns the transfers, no more than there are
    people and each following the balances, with the summary. It raises
    no KeyError and no StrategyError at that point. *)
Theorem settlement_outcome (event : Event.t) (balances : Dict Decimal) (fuel : nat) :
  referential_integrity event ->
  compute_net_balances event = Ok balances ->
  quantized_dict balances ->
  (List.length (Event.people event) < fuel)%nat ->
  compute_settlement fuel event = Raise RoundingError \/
  compute_settlement fuel event = Raise InvalidOperation \/
  exists ts s,
    compute_settlement fuel event = Ok (ts, s) /\
    compute_minimal_transfers fuel balances d_0_02 = Ok ts /\
    compute_settlement_summary event balances = Ok s /\
    (List.length ts <= List.length (Event.people event))%nat /\
    Forall (transfer_sound balances) ts.
Proof.
  intros Hi Hb Hq Hfuel.
  destruct (net_balances_keys event balances Hi Hb) as (Hwf & Hk & _).
  assert (Hlen : (List.length balances <= List.length (Event.people event))%nat).
  { replace (List.length balances) with (List.length (dict_keys balances))
      by (unfold dict_keys; apply length_map).
    apply NoDup_incl_length; [exact Hwf|]. intros p Hp. apply Hk. exact Hp. }
  unfold compute_settlement. rewrite Hb. cbn [bind].
  destruct (greedy_loop_quantized d_0_02 tolerance_0_02_nonneg (List.length balances)
              balances [] Hwf Hq (nonzero_count_le_length balances))
    as (wb & gen & Hgen & _ & _ & _ & _ & _ & Hloop).
  pose proof (Hloop fuel ltac:(lia)) as El. simpl in El.
  assert (Et : compute_minimal_transfers fuel balances d_0_02
               = if exceeds d_0_02 wb then Raise RoundingError
                 else Ok (sort_by transfer_key gen)).
  { unfold compute_minimal_transfers. rewrite El. reflexivity. }
  destruct (exceeds d_0_02 wb).
  { left. rewrite Et. reflexivity. }
  rewrite Et. cbn [bind]. right.
  (* the summary *)
  destruct (zero_dict_spec (Event.people event)) as (_ & K0 & _).
  assert (Hs : forall a, In a (Event.activities event) ->
                 exists shares, compute_all_shares a = Ok shares).
  { unfold compute_net_balances, rounded_balances in Hb.
    apply bind_Ok in Hb. destruct Hb as (b2 & Hb & _).
    apply bind_Ok in Hb. destruct Hb as (b1 & Hb & _).
    eapply balances_loop_shares. exact Hb. }
  destruct (paid_owed_loop_ok (fun p => In p (Event.people event))
              (Event.activities event) Hi Hs
              (zero_dict (Event.people event)) (zero_dict (Event.people event)))
    as (pd & od & Ep & Kp & Ko); try (intros p Hp; apply K0; exact Hp).
  assert (Es : compute_settlement_summary event balances
               = summary_loop (sort_by person_key (Event.people event)) pd od balances []).
  { unfold compute_settlement_summary. rewrite Ep. reflexivity. }
  destruct (summary_loop_cases pd od balances (sort_by person_key (Event.people event)))
    with (acc := @nil (Person.t * SummaryRow)) as [E|(s & E)].
  { intros p Hp. apply sort_by_In in Hp.
    rewrite Kp, Ko. split; [apply K0; exact Hp|]. split; [apply K0; exact Hp|].
    apply Hk. exact Hp. }
  - left. rewrite Es, E. reflexivity.
  - right. exists (sort_by transfer_key gen), s.
    rewrite Es, E. cbn [bind].
    split; [reflexivity|]. split; [reflexivity|]. split; [reflexivity|]. split.
    + rewrite (Permutation_length (sort_by_perm transfer_key gen)). lia.
    + apply Forall_forall.
      apply (transfers_follow_balances_aux fuel balances d_0_02 _ Hwf Hq
               tolerance_0_02_nonneg).
      rewrite Et. reflexivity.
Qed.

Lemma settlement_outcome_witness :
  referential_integrity carol_absent_event /\
  compute_net_balances carol_absent_event = Ok carol_absent_balances /\
  quantized_dict carol_absent_balances /\
  (List.length (Event.people carol_absent_event) < 4)%nat /\
  (compute_settlement 4 carol_absent_event = Raise RoundingError \/
   compute_settlement 4 carol_absent_event = Raise InvalidOperation \/
   exists ts s,
     compute_settlement 4 carol_absent_event = Ok (ts, s) /\
     compute_minimal_transfers 4 carol_absent_balances d_0_02 = Ok ts /\
     compute_settlement_summary carol_absent_event carol_absent_balances = Ok s /\
     (List.length ts <= List.length (Event.people carol_absent_event))%nat /\
     Forall (transfer_sound carol_absent_balances) ts).
Proof.
  assert (Hi : referential_integrity carol_absent_event).
  { apply (add_activity_integrity (event0 [alice; bob; carol])). intros a []. }
  assert (Hq : quantized_dict carol_absent_balances) by (repeat constructor).
  assert (Hl : (List.length (Event.people carol_absent_event) < 4)%nat) by (simpl; lia).
  split; [exact Hi|]. split; [reflexivity|]. split; [exact Hq|]. split; [exact Hl|].
  apply (settlement_outcome carol_absent_event carol_absent_balances 4 Hi eq_refl Hq Hl).
Defined.
